(** * regex-deriv: a shallow embedding of the byte-level regular-expression
    algebra, its DFA builder, the Hopcroft minimiser and the lexical scanner.

    Sources: [src/regex-deriv/src/byte_set.rs], [src/src/regex.rs],
    [src/src/dfa/mod.rs], [src/regex-deriv/src/dfa/hopcroft.rs],
    [src/src/scan.rs], [src/src/table.rs], [src/src/char_set.rs]. *)

From Stdlib Require Import List ZArith Lia Bool Arith Permutation Sorted.
From Stdlib Require Import Strings.Byte.
Import ListNotations.
Open Scope Z_scope.
Set Warnings "-register-all".

(* ================================================================= *)
(** ** ByteSet ([byte_set.rs]) *)

(** A [ByteSet] is a bitmap [[u8; 32]]: element [v] is bit [v mod 8] of
    word [v / 8].  We keep the 32 words as one 256-bit integer, word [i]
    occupying bits [8i .. 8i+7]; every operation of the source is word-wise,
    so the word layout is recovered with [word]. *)
Definition ByteSet := Z.

Definition NUM_WORDS : Z := 32.
Definition WORD_BITS : Z := 8.
Definition WORD_MAX : Z := 255.

Definition word (s : ByteSet) (i : Z) : Z :=
  Z.land (Z.shiftr s (WORD_BITS * i)) WORD_MAX.

(** [set.bitmap[i] = x] *)
Definition set_word (s : ByteSet) (i x : Z) : ByteSet :=
  Z.lor (Z.land s (Z.lnot (Z.shiftl WORD_MAX (WORD_BITS * i))))
        (Z.shiftl (Z.land x WORD_MAX) (WORD_BITS * i)).

Definition word_indices : list Z := map Z.of_nat (seq 0 32).

Definition bs_empty : ByteSet := 0.
Definition bs_universe : ByteSet := Z.ones 256.

(** [encode(value) = (value / 8, 1 << (value % 8))] *)
Definition encode (value : Z) : Z * Z :=
  (value / WORD_BITS, Z.shiftl 1 (value mod WORD_BITS)).

(** [decode(index, word) = 8 * index + word.trailing_zeros()] *)
Fixpoint trailing_zeros_aux (fuel : nat) (w k : Z) : Z :=
  match fuel with
  | O => k
  | S f => if Z.testbit w k then k else trailing_zeros_aux f w (k + 1)
  end.
Definition trailing_zeros (w : Z) : Z :=
  if w =? 0 then WORD_BITS else trailing_zeros_aux 8 w 0.
Definition decode (index w : Z) : Z := WORD_BITS * index + trailing_zeros w.

Definition bval (b : byte) : Z := Z.of_nat (Byte.to_nat b).

Definition point (value : byte) : ByteSet :=
  let '(index, w) := encode (bval value) in set_word bs_empty index w.

Definition contains (s : ByteSet) (value : byte) : bool :=
  let '(index, w) := encode (bval value) in
  negb (Z.land (word s index) w =? 0).

(** [is_empty]: every word is [0]. *)
Definition is_empty (s : ByteSet) : bool :=
  forallb (fun i => word s i =? 0) word_indices.

(** [is_universe]: as written in [byte_set.rs], the loop returns [false]
    as soon as a word is [0] ([if self.bitmap[i] == 0 { return false }]). *)
Definition is_universe (s : ByteSet) : bool :=
  forallb (fun i => negb (word s i =? 0)) word_indices.

(** [!self.bitmap[i]] for every word *)
Definition complement (s : ByteSet) : ByteSet := Z.lxor s bs_universe.
Definition intersection (s t : ByteSet) : ByteSet := Z.land s t.
Definition union (s t : ByteSet) : ByteSet := Z.lor s t.

(** [first]: the first non-zero word with its index. *)
Definition first (s : ByteSet) : option (Z * Z) :=
  find (fun p => negb (snd p =? 0)) (map (fun i => (i, word s i)) word_indices).

Definition smallest (s : ByteSet) : option byte :=
  match first s with
  | Some (index, w) => Byte.of_nat (Z.to_nat (decode index w))
  | None => None
  end.

(** The 256 bytes in ascending order. *)
Definition all_bytes : list byte :=
  fold_right (fun n acc => match Byte.of_nat n with Some b => b :: acc | None => acc end)
             [] (seq 0 256).

(** [bytes()]: the members in ascending order. *)
Definition bytes (s : ByteSet) : list byte := filter (contains s) all_bytes.

(** Derived [Ord] on [[u8; 32]]: lexicographic over the words. *)
Fixpoint lex_words (ws1 ws2 : list Z) : comparison :=
  match ws1, ws2 with
  | [], [] => Eq
  | [], _ => Lt
  | _, [] => Gt
  | x :: t1, y :: t2 => match Z.compare x y with Eq => lex_words t1 t2 | c => c end
  end.
Definition words (s : ByteSet) : list Z := map (word s) word_indices.
Definition bs_compare (s t : ByteSet) : comparison := lex_words (words s) (words t).

(** [ByteSet::range(from, to)] with words of [w] bits: [w = 8] is the
    [ByteSet] of [byte_set.rs], [w = 32] the [CharSet] of [char_set.rs]
    (same code on [u32] words). *)
Definition set_word_w (w : Z) (s : Z) (i x : Z) : Z :=
  Z.lor (Z.land s (Z.lnot (Z.shiftl (Z.ones w) (w * i))))
        (Z.shiftl (Z.land x (Z.ones w)) (w * i)).

Definition range_w (w : Z) (from to : byte) : Z :=
  let from_index := bval from / w in
  let a := Z.shiftl 1 (bval from mod w) in
  let to_index := bval to / w in
  let b := Z.shiftl 1 (bval to mod w) in
  let first_word := Z.lxor (a - 1) (Z.ones w) in
  let last_word := Z.lor b (b - 1) in
  if from_index =? to_index then
    set_word_w w 0 from_index (Z.land first_word last_word)
  else
    let set := set_word_w w 0 from_index first_word in
    (* for i in from_index+1 .. to_index: set.bitmap[i] = MAX *)
    let set := fold_left (fun st i => set_word_w w st i (Z.ones w))
                 (map Z.of_nat (seq (Z.to_nat (from_index + 1))
                                    (Z.to_nat (to_index - (from_index + 1))))) set in
    set_word_w w set to_index last_word.

Definition range (from to : byte) : ByteSet := range_w 8 from to.
Definition charset_range (from to : byte) : Z := range_w 32 from to.

(* ================================================================= *)
(** ** RegEx ([regex.rs]) *)

(** [Operator]; a [RegEx] is a shared handle on an [Operator] whose
    equality and order are structural, so the handle is the tree itself. *)
Inductive RegEx : Type :=
| RNone
| REpsilon
| RSet (s : ByteSet)
| RCat (children : list RegEx)
| RStar (child : RegEx)
| ROr (children : list RegEx)
| RAnd (children : list RegEx)
| RNot (child : RegEx).

(** Variant index used by the derived [Ord]. *)
Definition tag (r : RegEx) : nat :=
  match r with
  | RNone => 0 | REpsilon => 1 | RSet _ => 2 | RCat _ => 3
  | RStar _ => 4 | ROr _ => 5 | RAnd _ => 6 | RNot _ => 7
  end.

(** Derived [Ord] on [Operator]: variant first, then the fields
    ([Vec<RegEx>] lexicographically). *)
Fixpoint re_compare (r s : RegEx) : comparison :=
  match r, s with
  | RSet x, RSet y => bs_compare x y
  | RCat a, RCat b | ROr a, ROr b | RAnd a, RAnd b =>
      (fix lc (a b : list RegEx) : comparison :=
         match a, b with
         | [], [] => Eq
         | [], _ => Lt
         | _, [] => Gt
         | x :: a', y :: b' =>
             match re_compare x y with Eq => lc a' b' | c => c end
         end) a b
  | RStar x, RStar y | RNot x, RNot y => re_compare x y
  | _, _ => Nat.compare (tag r) (tag s)
  end.

Definition re_le (r s : RegEx) : bool :=
  match re_compare r s with Gt => false | _ => true end.

(** [Itertools::merge]: takes from the left while [left <= right]. *)
Fixpoint merge (l1 : list RegEx) : list RegEx -> list RegEx :=
  match l1 with
  | [] => fun l2 => l2
  | x :: t1 =>
      fix merge_r (l2 : list RegEx) : list RegEx :=
        match l2 with
        | [] => x :: t1
        | y :: t2 => if re_le x y then x :: merge t1 l2 else y :: merge_r t2
        end
  end.


Fixpoint is_nullable (r : RegEx) : bool :=
  match r with
  | RNone => false
  | REpsilon => true
  | RSet _ => false
  | RCat res => forallb is_nullable res
  | RStar _ => true
  | ROr res => existsb is_nullable res
  | RAnd res => forallb is_nullable res
  | RNot re => negb (is_nullable re)
  end.

(** [merged_sets(res, reduce)] *)
Definition merged_sets (res : list RegEx) (reduce : ByteSet -> ByteSet -> ByteSet)
  : list RegEx :=
  let '(reduced_set, new_res) :=
    fold_left (fun (acc : option ByteSet * list RegEx) re =>
                 let '(rs, nr) := acc in
                 match re with
                 | RSet a => (match rs with
                              | Some set => Some (reduce set a)
                              | None => Some a
                              end, nr)
                 | _ => (rs, nr ++ [re])
                 end) res (None, []) in
  match reduced_set with
  | Some set => merge new_res [RSet set]
  | None => new_res
  end.

(** Canonical constructors. *)
Definition re_none : RegEx := RNone.
Definition re_empty : RegEx := REpsilon.

Definition re_set (a : ByteSet) : RegEx :=
  if is_empty a then RNone else RSet a.

Definition re_then (self other : RegEx) : RegEx :=
  match self, other with
  | _, REpsilon => self
  | REpsilon, _ => other
  | _, RNone => RNone
  | RNone, _ => RNone
  | RCat a, RCat b => RCat (a ++ b)
  | _, RCat b => RCat (self :: b)
  | RCat a, _ => RCat (a ++ [other])
  | _, _ => RCat [self; other]
  end.

Definition re_star (self : RegEx) : RegEx :=
  match self with
  | RNone | REpsilon => REpsilon
  | RStar _ => self
  | _ => RStar self
  end.

Definition or_aux (res1 res2 : list RegEx) : RegEx :=
  let refs := merged_sets (merge res1 res2) union in
  match refs with
  | [] => RNone
  | [r] => r
  | _ => ROr refs
  end.

Definition re_or (self other : RegEx) : RegEx :=
  match self, other with
  | _, RNone => self
  | RNone, _ => other
  | RSet x, RSet y => re_set (union x y)
  | ROr a, ROr b => or_aux a b
  | ROr a, _ => or_aux a [other]
  | _, ROr b => or_aux [self] b
  | _, _ => or_aux [self] [other]
  end.

Definition and_aux (res1 res2 : list RegEx) : RegEx :=
  let refs := merged_sets (merge res1 res2) intersection in
  match refs with
  | [] => RNone
  | [r] => r
  | _ => RAnd refs
  end.

Definition re_and (self other : RegEx) : RegEx :=
  match self, other with
  | _, RNone => RNone
  | RNone, _ => RNone
  | _, REpsilon => if is_nullable self then REpsilon else RNone
  | REpsilon, _ => if is_nullable other then REpsilon else RNone
  | RSet x, RSet y => re_set (intersection x y)
  | RAnd a, RAnd b => and_aux a b
  | RAnd a, _ => and_aux a [other]
  | _, RAnd b => and_aux [self] b
  | _, _ => and_aux [self] [other]
  end.

Definition re_not (self : RegEx) : RegEx :=
  match self with
  | RNone => re_set bs_universe
  | RSet s => re_set (complement s)
  | RNot a => a
  | _ => RNot self
  end.

Definition re_opt (r : RegEx) : RegEx := re_or r re_empty.
Definition re_plus (r : RegEx) : RegEx := re_then r (re_star r).
Definition re_diff (r s : RegEx) : RegEx := re_and r (re_not s).

(** [RegEx::deriv].  The [unreachable!] arms (a [Cat], [Or] or [And] node
    with fewer than two children) panic; a panic is [None]. *)
Fixpoint deriv (r : RegEx) (a : byte) : option RegEx :=
  match r with
  | RNone | REpsilon => Some RNone
  | RSet s => Some (if contains s a then REpsilon else RNone)
  | RCat res =>
      (fix deriv_cat (cs : list RegEx) : option RegEx :=
         match cs with
         | [] => None
         | r0 :: tl =>
             match tl with
             | [] => None
             | [s] =>
                 match (if is_nullable r0 then deriv s a else Some RNone), deriv r0 a with
                 | Some nu_r_da_s, Some dr => Some (re_or (re_then dr s) nu_r_da_s)
                 | _, _ => None
                 end
             | _ =>
                 match (if is_nullable r0 then deriv_cat tl else Some RNone), deriv r0 a with
                 | Some nu_r_da_s, Some dr => Some (re_or (re_then dr (RCat tl)) nu_r_da_s)
                 | _, _ => None
                 end
             end
         end) res
  | RStar re =>
      match deriv re a with Some d => Some (re_then d r) | None => None end
  | ROr res =>
      (fix deriv_or (cs : list RegEx) : option RegEx :=
         match cs with
         | [] => None
         | r0 :: tl =>
             match tl with
             | [] => None
             | [s] =>
                 match deriv r0 a, deriv s a with
                 | Some d0, Some d1 => Some (re_or d0 d1) | _, _ => None
                 end
             | _ =>
                 match deriv r0 a, deriv_or tl with
                 | Some d0, Some d1 => Some (re_or d0 d1) | _, _ => None
                 end
             end
         end) res
  | RAnd res =>
      (fix deriv_and (cs : list RegEx) : option RegEx :=
         match cs with
         | [] => None
         | r0 :: tl =>
             match tl with
             | [] => None
             | [s] =>
                 match deriv r0 a, deriv s a with
                 | Some d0, Some d1 => Some (re_and d0 d1) | _, _ => None
                 end
             | _ =>
                 match deriv r0 a, deriv_and tl with
                 | Some d0, Some d1 => Some (re_and d0 d1) | _, _ => None
                 end
             end
         end) res
  | RNot re =>
      match deriv re a with Some d => Some (re_not d) | None => None end
  end.

(** [RegEx::is_fullmatch]: derive byte by byte, stop at [None]. *)
Fixpoint is_fullmatch (regex : RegEx) (text : list byte) : option bool :=
  match text with
  | [] => Some (is_nullable regex)
  | byte :: rest =>
      match deriv regex byte with
      | None => None
      | Some RNone => Some false
      | Some d => is_fullmatch d rest
      end
  end.


(** Derivation along a byte string, without the [None] short-circuit of
    [is_fullmatch]. *)
Fixpoint deriv_sequence (r : RegEx) (w : list byte) : option RegEx :=
  match w with
  | [] => Some r
  | b :: w' => match deriv r b with Some d => deriv_sequence d w' | None => None end
  end.

(* ================================================================= *)
(** ** Language semantics *)

Inductive star_lang (L : list byte -> Prop) : list byte -> Prop :=
| star_nil : star_lang L []
| star_app u v : L u -> star_lang L v -> star_lang L (u ++ v).

Definition set_lang (s : ByteSet) (w : list byte) : Prop :=
  exists a, w = [a] /\ contains s a = true.

(** Standard set-theoretic semantics of the operators over byte strings:
    [Cat] concatenation, [Star] Kleene star, [Or] union, [And]
    intersection, [Not] complement. *)
Fixpoint lang (r : RegEx) (w : list byte) {struct r} : Prop :=
  match r with
  | RNone => False
  | REpsilon => w = []
  | RSet s => set_lang s w
  | RCat res =>
      (fix lang_cat (cs : list RegEx) (w : list byte) : Prop :=
         match cs with
         | [] => w = []
         | c :: cs' => exists u v, w = u ++ v /\ lang c u /\ lang_cat cs' v
         end) res w
  | RStar re => star_lang (lang re) w
  | ROr res =>
      (fix lang_or (cs : list RegEx) : Prop :=
         match cs with
         | [] => False
         | c :: cs' => lang c w \/ lang_or cs'
         end) res
  | RAnd res =>
      (fix lang_and (cs : list RegEx) : Prop :=
         match cs with
         | [] => True
         | c :: cs' => lang c w /\ lang_and cs'
         end) res
  | RNot re => ~ lang re w
  end.

(** Expressions built with the public constructors. *)
Inductive built : RegEx -> Prop :=
| built_none : built re_none
| built_empty : built re_empty
| built_set s : built (re_set s)
| built_then r s : built r -> built s -> built (re_then r s)
| built_star r : built r -> built (re_star r)
| built_or r s : built r -> built s -> built (re_or r s)
| built_and r s : built r -> built s -> built (re_and r s)
| built_not r : built r -> built (re_not r).

(** The same without [not]. *)
Inductive built_nn : RegEx -> Prop :=
| bnn_none : built_nn re_none
| bnn_empty : built_nn re_empty
| bnn_set s : built_nn (re_set s)
| bnn_then r s : built_nn r -> built_nn s -> built_nn (re_then r s)
| bnn_star r : built_nn r -> built_nn (re_star r)
| bnn_or r s : built_nn r -> built_nn s -> built_nn (re_or r s)
| bnn_and r s : built_nn r -> built_nn s -> built_nn (re_and r s).

(** [Not]-free expressions whose [Cat], [Or] and [And] nodes have at least
    two children (the arity the [unreachable!] arms of [deriv] rely on). *)
Fixpoint good (r : RegEx) : Prop :=
  match r with
  | RCat l | ROr l | RAnd l =>
      (2 <= length l)%nat /\
      (fix good_l (l : list RegEx) : Prop :=
         match l with [] => True | x :: l' => good x /\ good_l l' end) l
  | RStar x => good x
  | RNot _ => False
  | _ => True
  end.

(** Induction over [RegEx] with an hypothesis for every child of a
    [Cat], [Or] or [And] node. *)
Section RegEx_ind'.
Variable P : RegEx -> Prop.
Hypothesis H_none : P RNone.
Hypothesis H_eps : P REpsilon.
Hypothesis H_set : forall s, P (RSet s).
Hypothesis H_cat : forall l, Forall P l -> P (RCat l).
Hypothesis H_star : forall r, P r -> P (RStar r).
Hypothesis H_or : forall l, Forall P l -> P (ROr l).
Hypothesis H_and : forall l, Forall P l -> P (RAnd l).
Hypothesis H_not : forall r, P r -> P (RNot r).

Fixpoint RegEx_ind' (r : RegEx) : P r :=
  let fix go (l : list RegEx) : Forall P l :=
    match l with
    | [] => Forall_nil P
    | x :: l' => Forall_cons x (RegEx_ind' x) (go l')
    end in
  match r with
  | RNone => H_none
  | REpsilon => H_eps
  | RSet s => H_set s
  | RCat l => H_cat l (go l)
  | RStar x => H_star x (RegEx_ind' x)
  | ROr l => H_or l (go l)
  | RAnd l => H_and l (go l)
  | RNot x => H_not x (RegEx_ind' x)
  end.
End RegEx_ind'.

(** The two halves [merged_sets] splits its input into: the children that
    are not sets, in order, and the sets. *)
Definition is_set (r : RegEx) : bool :=
  match r with RSet _ => true | _ => false end.
Definition nonsets (l : list RegEx) : list RegEx := filter (fun r => negb (is_set r)) l.
Fixpoint sets_of (l : list RegEx) : list ByteSet :=
  match l with
  | [] => []
  | RSet a :: l' => a :: sets_of l'
  | _ :: l' => sets_of l'
  end.
Definition reduce_step (reduce : ByteSet -> ByteSet -> ByteSet)
  (rs : option ByteSet) (a : ByteSet) : option ByteSet :=
  Some (match rs with Some set => reduce set a | None => a end).

(** A derivative of [r] by [a] exists, is well formed, and denotes the
    residual of the language of [r] by [a]. *)
Definition deriv_spec (r : RegEx) (a : byte) : Prop :=
  exists d, deriv r a = Some d /\ good d /\ forall w, lang d w <-> lang r (a :: w).

(** The canonical-form invariants of the [Operator] variants, as the doc
    comments of [enum Operator] state them (with the sortedness of [Or] and
    [And] children the spec adds). *)
Definition is_none (r : RegEx) : bool := match r with RNone => true | _ => false end.
Definition is_eps (r : RegEx) : bool := match r with REpsilon => true | _ => false end.
Definition is_cat (r : RegEx) : bool := match r with RCat _ => true | _ => false end.
Definition is_star (r : RegEx) : bool := match r with RStar _ => true | _ => false end.
Definition is_or (r : RegEx) : bool := match r with ROr _ => true | _ => false end.
Definition is_and (r : RegEx) : bool := match r with RAnd _ => true | _ => false end.
Definition is_not (r : RegEx) : bool := match r with RNot _ => true | _ => false end.

Fixpoint sorted_le (l : list RegEx) : bool :=
  match l with
  | x :: ((y :: _) as t) => re_le x y && sorted_le t
  | _ => true
  end.

Fixpoint canonical (r : RegEx) : bool :=
  let fix all_canonical (l : list RegEx) : bool :=
    match l with [] => true | x :: l' => canonical x && all_canonical l' end in
  match r with
  | RNone | REpsilon => true
  | RSet s => negb (is_empty s)
  | RCat l =>
      (2 <=? length l)%nat && all_canonical l &&
      forallb (fun c => negb (is_none c || is_eps c || is_cat c)) l
  | RStar x => canonical x && negb (is_none x || is_eps x || is_star x)
  | ROr l =>
      (2 <=? length l)%nat && all_canonical l &&
      forallb (fun c => negb (is_none c || is_or c)) l &&
      (length (filter is_set l) <=? 1)%nat && sorted_le l
  | RAnd l =>
      (2 <=? length l)%nat && all_canonical l &&
      forallb (fun c => negb (is_none c || is_eps c || is_and c)) l &&
      (length (filter is_set l) <=? 1)%nat && sorted_le l
  | RNot x => canonical x && negb (is_none x || is_set x || is_not x)
  end.

(* ================================================================= *)
(** ** DFA ([dfa/mod.rs]) *)

(** A [HashMap<u8, usize>] as an association list with one binding per key;
    its iteration order is the order of the list. *)
Definition ByteMap := list (byte * nat).

Fixpoint map_get (m : ByteMap) (k : byte) : option nat :=
  match m with
  | [] => None
  | (k', v) :: t => if Byte.eqb k k' then Some v else map_get t k
  end.

(** [HashMap::insert]: overwrite the binding of [k], or add one. *)
Fixpoint map_insert (m : ByteMap) (k : byte) (v : nat) : ByteMap :=
  match m with
  | [] => [(k, v)]
  | (k', v') :: t => if Byte.eqb k k' then (k', v) :: t else (k', v') :: map_insert t k v
  end.

Record State := mkState { class : option nat; next : ByteMap }.

Definition state_new (next : ByteMap) (class : option nat) : State := mkState class next.
Definition state_sink : State := state_new [] None.

(** [DFA { states }]; indexing out of range panics, a panic is [None]. *)
Definition DFA := list State.

Definition dfa_step (dfa : DFA) (id : nat) (symbol : byte) : option nat :=
  match nth_error dfa id with
  | Some st => Some (match map_get (next st) symbol with Some j => j | None => 0%nat end)
  | None => None
  end.

Definition dfa_class (dfa : DFA) (id : nat) : option (option nat) :=
  option_map class (nth_error dfa id).

(** [text.bytes().fold(id, |id, byte| self.step(id, byte))] *)
Fixpoint dfa_run (dfa : DFA) (id : nat) (text : list byte) : option nat :=
  match text with
  | [] => Some id
  | b :: t => match dfa_step dfa id b with Some j => dfa_run dfa j t | None => None end
  end.

(** The accept class reached from the start state [1]. *)
Definition run_class (dfa : DFA) (text : list byte) : option (option nat) :=
  match dfa_run dfa 1 text with Some id => dfa_class dfa id | None => None end.

Definition matches (dfa : DFA) (text : list byte) : option bool :=
  option_map (fun c => match c with Some _ => true | None => false end) (run_class dfa text).

(** [RegExVec] with its derived [Ord]: lexicographic over [re_compare]. *)
Fixpoint vec_compare (a b : list RegEx) : comparison :=
  match a, b with
  | [], [] => Eq
  | [], _ => Lt
  | _, [] => Gt
  | x :: a', y :: b' => match re_compare x y with Eq => vec_compare a' b' | c => c end
  end.

Definition regexvec_sink (size : nat) : list RegEx := repeat re_none size.

Fixpoint regexvec_deriv (q : list RegEx) (a : byte) : option (list RegEx) :=
  match q with
  | [] => Some []
  | r :: t =>
      match deriv r a, regexvec_deriv t a with
      | Some d, Some dt => Some (d :: dt)
      | _, _ => None
      end
  end.

(** [Iterator::position] *)
Fixpoint position {A} (f : A -> bool) (l : list A) : option nat :=
  match l with
  | [] => None
  | x :: t => if f x then Some 0%nat else option_map S (position f t)
  end.

Definition regexvec_class (q : list RegEx) : option nat := position is_nullable q.

(** [approx_deriv_classes]; a [HashSet<ByteSet>] is a list without
    duplicates (the iteration order of a [HashSet] is unspecified, so any
    order of its elements is a faithful one). *)
Definition bs_set_insert (s : list ByteSet) (x : ByteSet) : list ByteSet :=
  if existsb (Z.eqb x) s then s else s ++ [x].

Definition cross (set1 set2 : list ByteSet) : list ByteSet :=
  fold_left bs_set_insert
    (flat_map (fun t => flat_map (fun s =>
        let u := intersection t s in if is_empty u then [] else [u]) set1) set2) [].

(** The stack is a list whose head is the top: [push x] is [x :: stack]. *)
Fixpoint push_cat (tail stack : list RegEx) : list RegEx :=
  match tail with
  | [] => stack
  | head :: t => if is_nullable head then push_cat t (head :: stack) else head :: stack
  end.

Fixpoint re_size (r : RegEx) : nat :=
  let fix sizes (l : list RegEx) : nat :=
    match l with [] => 0%nat | x :: t => (re_size x + sizes t)%nat end in
  match r with
  | RCat l | ROr l | RAnd l => S (sizes l)
  | RStar x | RNot x => S (re_size x)
  | _ => 1%nat
  end.

(** Every iteration pops one sub-term occurrence of the root, so
    [re_size root] iterations suffice. *)
Fixpoint adc_loop (fuel : nat) (stack : list RegEx) (charsets : list ByteSet)
  : option (list ByteSet) :=
  match stack with
  | [] => Some charsets
  | node :: stack =>
      match fuel with
      | O => None
      | S f =>
          match node with
          | RNone | REpsilon => adc_loop f stack charsets
          | RSet set =>
              if negb (is_empty set) && negb (is_universe set)
              then adc_loop f stack (cross charsets [set; complement set])
              else adc_loop f stack charsets
          | RCat children => adc_loop f (push_cat children stack) charsets
          | RStar child | RNot child => adc_loop f (child :: stack) charsets
          | ROr children | RAnd children => adc_loop f (rev children ++ stack) charsets
          end
      end
  end.

Definition approx_deriv_classes (root : RegEx) : option (list ByteSet) :=
  adc_loop (re_size root) [root] [bs_universe].

Definition approx_deriv_classes_vec (root : list RegEx) : option (list ByteSet) :=
  fold_left (fun acc x =>
    match acc, approx_deriv_classes x with
    | Some acc, Some c => Some (cross acc c)
    | _, _ => None
    end) root (Some [bs_universe]).

(** [DFABuilder]; [re2idx] is a [BTreeMap<RegExVec, usize>], keyed by the
    derived [Ord] of [RegExVec]. *)
Record DFABuilder := mkBuilder {
  b_states : list State;
  re2idx : list (list RegEx * nat)
}.

Fixpoint re2idx_get (m : list (list RegEx * nat)) (q : list RegEx) : option nat :=
  match m with
  | [] => None
  | (k, v) :: t => match vec_compare q k with Eq => Some v | _ => re2idx_get t q end
  end.

Fixpoint re2idx_insert (m : list (list RegEx * nat)) (q : list RegEx) (v : nat)
  : list (list RegEx * nat) :=
  match m with
  | [] => [(q, v)]
  | (k, v') :: t =>
      match vec_compare q k with
      | Eq => (k, v) :: t
      | _ => (k, v') :: re2idx_insert t q v
      end
  end.

(** [vec[i] = x]; the builder only writes to states it has pushed. *)
Fixpoint list_set {A} (l : list A) (i : nat) (x : A) : list A :=
  match l, i with
  | [], _ => []
  | _ :: t, O => x :: t
  | y :: t, S i' => y :: list_set t i' x
  end.

Definition add_state (b : DFABuilder) (q : list RegEx) : DFABuilder * nat :=
  let idx := length (b_states b) in
  (mkBuilder (b_states b ++ [state_new [] (regexvec_class q)])
             (re2idx_insert (re2idx b) q idx), idx).

(** [for a in set.bytes() { self.states[i].next.insert(a, j) }] *)
Definition wire (b : DFABuilder) (i : nat) (set : ByteSet) (j : nat) : DFABuilder :=
  let st := nth i (b_states b) state_sink in
  let nx := fold_left (fun nx a => map_insert nx a j) (bytes set) (next st) in
  mkBuilder (list_set (b_states b) i (state_new nx (class st))) (re2idx b).

(** [goto], given the recursive [explore]. *)
Definition goto_with (explore : DFABuilder -> list RegEx -> nat -> option DFABuilder)
  (b : DFABuilder) (q : list RegEx) (i : nat) (set : ByteSet) : option DFABuilder :=
  match smallest set with
  | None => None
  | Some c =>
      match regexvec_deriv q c with
      | None => None
      | Some qc =>
          match re2idx_get (re2idx b) qc with
          | Some j => Some (wire b i set j)
          | None => let '(b, j) := add_state b qc in explore (wire b i set j) qc j
          end
      end
  end.

(** [explore], with a bound on the depth of its recursion (the source
    relies on the finiteness of the derivatives reached). *)
Fixpoint explore (fuel : nat) (b : DFABuilder) (q : list RegEx) (i : nat)
  : option DFABuilder :=
  match fuel with
  | O => None
  | S f =>
      match approx_deriv_classes_vec q with
      | None => None
      | Some sets =>
          fold_left (fun ob set =>
            match ob with Some b => goto_with (explore f) b q i set | None => None end)
            sets (Some b)
      end
  end.

Definition build (fuel : nat) (start : list RegEx) : option DFA :=
  let b := mkBuilder [state_sink] [(regexvec_sink (length start), 0%nat)] in
  let '(b, _) := add_state b start in
  option_map b_states (explore fuel b start 1).

(** [DFA::from(&regex)] *)
Definition dfa_from (fuel : nat) (regex : RegEx) : option DFA := build fuel [regex].

(* ================================================================= *)
(** ** Hopcroft minimisation ([dfa/hopcroft.rs]) *)

(** [Ids = BTreeSet<usize>]: a list in ascending order. *)
Definition Ids := list nat.

Fixpoint ids_insert (x : nat) (s : Ids) : Ids :=
  match s with
  | [] => [x]
  | y :: t =>
      match Nat.compare x y with
      | Lt => x :: s
      | Eq => s
      | Gt => y :: ids_insert x t
      end
  end.

Definition ids_mem (x : nat) (s : Ids) : bool := existsb (Nat.eqb x) s.

(** [set.extend(keys)] *)
Definition ids_union (s t : Ids) : Ids := fold_left (fun acc x => ids_insert x acc) t s.

(** The derived [Ord] of [BTreeSet<usize>]: lexicographic. *)
Fixpoint ids_compare (a b : Ids) : comparison :=
  match a, b with
  | [], [] => Eq
  | [], _ => Lt
  | _, [] => Gt
  | x :: a', y :: b' => match Nat.compare x y with Eq => ids_compare a' b' | c => c end
  end.

Definition ids_eqb (a b : Ids) : bool :=
  match ids_compare a b with Eq => true | _ => false end.

(** [Partition = BTreeSet<Ids>]: a list in ascending [ids_compare] order. *)
Fixpoint pset_insert (x : Ids) (P : list Ids) : list Ids :=
  match P with
  | [] => [x]
  | y :: t =>
      match ids_compare x y with
      | Lt => x :: P
      | Eq => P
      | Gt => y :: pset_insert x t
      end
  end.

Definition pset_mem (x : Ids) (P : list Ids) : bool := existsb (ids_eqb x) P.
Definition pset_remove (x : Ids) (P : list Ids) : list Ids :=
  filter (fun y => negb (ids_eqb x y)) P.

(** [alphabet]: the keys of all transition maps, without duplicates
    ([iter.next().unwrap()] panics on a DFA without states). *)
Definition key_extend (alph : list byte) (keys : list byte) : list byte :=
  fold_left (fun alph k => if existsb (Byte.eqb k) alph then alph else alph ++ [k]) keys alph.

Definition alphabet (states : list State) : option (list byte) :=
  match states with
  | [] => None
  | st :: rest =>
      Some (fold_left (fun alph st => key_extend alph (map fst (next st)))
              rest (key_extend [] (map fst (next st))))
  end.

(** [InvDFA]: for every destination, a map from symbols to sources. *)
Definition InvStates := list (list (byte * Ids)).

Fixpoint entry_get (m : list (byte * Ids)) (k : byte) : option Ids :=
  match m with
  | [] => None
  | (k', s) :: t => if Byte.eqb k k' then Some s else entry_get t k
  end.

(** [entry(k).or_default().insert(x)] *)
Fixpoint entry_insert (m : list (byte * Ids)) (k : byte) (x : nat) : list (byte * Ids) :=
  match m with
  | [] => [(k, [x])]
  | (k', s) :: t =>
      if Byte.eqb k k' then (k', ids_insert x s) :: t else (k', s) :: entry_insert t k x
  end.

Definition inv_add (states : InvStates) (source_id : nat) (state : State) (symbol : byte)
  : option InvStates :=
  let dest_id := match map_get (next state) symbol with Some d => d | None => 0%nat end in
  match nth_error states dest_id with
  | None => None
  | Some m => Some (list_set states dest_id (entry_insert m symbol source_id))
  end.

Definition inv_new (dfa : DFA) (alph : list byte) : option InvStates :=
  fold_left (fun acc p =>
    fold_left (fun acc symbol =>
      match acc with Some st => inv_add st (fst p) (snd p) symbol | None => None end)
      alph acc)
    (combine (seq 0 (length dfa)) dfa) (Some (repeat [] (length dfa))).

(** [InvDFA::inverse]; the ids are state indices, always in range. *)
Definition inverse (idfa : InvStates) (ids : Ids) (symbol : byte) : option Ids :=
  match flat_map (fun id =>
          match entry_get (nth id idfa []) symbol with Some s => [s] | None => [] end) ids with
  | [] => None
  | set :: rest => Some (fold_left ids_union rest set)
  end.

(** [coarse_partition]: states grouped by [class.map_or(0, |c| c + 1)]. *)
Fixpoint group_insert (m : list (nat * Ids)) (k id : nat) : list (nat * Ids) :=
  match m with
  | [] => [(k, [id])]
  | (k', s) :: t => if Nat.eqb k k' then (k', ids_insert id s) :: t else (k', s) :: group_insert t k id
  end.

Definition coarse_partition (dfa : DFA) : list Ids :=
  let groups := fold_left (fun m p =>
      group_insert m (match class (snd p) with Some c => S c | None => 0%nat end) (fst p))
      (combine (seq 0 (length dfa)) dfa) [] in
  fold_left (fun P g => pset_insert (snd g) P) groups [].

(** [max_by_key] returns the last maximal element. *)
Definition argmax (P : list Ids) : nat :=
  let '(_, best, _) := fold_left (fun acc set =>
      let '(i, best, len) := acc in
      if (len <=? length set)%nat then (S i, i, length set) else (S i, best, len))
      P (0%nat, 0%nat, 0%nat) in
  best.

(** [all_but_largest] ([unwrap] panics on an empty partition). *)
Definition all_but_largest (P : list Ids) : option (list Ids) :=
  match P with
  | [] => None
  | _ =>
      let am := argmax P in
      Some (fold_left (fun W set => pset_insert set W)
              (map snd (filter (fun p => negb (Nat.eqb (fst p) am))
                                (combine (seq 0 (length P)) P))) [])
  end.

Definition split_sets (sets : list Ids) (domain : Ids) : list (Ids * (Ids * Ids)) :=
  flat_map (fun p =>
    let inter := filter (fun x => ids_mem x domain) p in
    match inter with
    | [] => []
    | _ =>
        let diff := filter (fun x => negb (ids_mem x domain)) p in
        match diff with [] => [] | _ => [(p, (inter, diff))] end
    end) sets.

(** The body of [for (p, (p1, p2)) in splits]. *)
Definition apply_split (pw : list Ids * list Ids) (sp : Ids * (Ids * Ids))
  : list Ids * list Ids :=
  let '(partition, waiting) := pw in
  let '(p, (p1, p2)) := sp in
  let partition := pset_remove p partition in
  let waiting :=
    if pset_mem p waiting then pset_insert p2 (pset_insert p1 (pset_remove p waiting))
    else if (length p1 <=? length p2)%nat then pset_insert p1 waiting
    else pset_insert p2 waiting in
  (pset_insert p2 (pset_insert p1 partition), waiting).

(** The body of the [while] loop once [w] has been taken. *)
Definition refine_by (alph : list byte) (idfa : InvStates) (w : Ids)
  (pw : list Ids * list Ids) : list Ids * list Ids :=
  fold_left (fun pw symbol =>
    match inverse idfa w symbol with
    | None => pw
    | Some inv => fold_left apply_split (split_sets (fst pw) inv) pw
    end) alph pw.

(** [take_some]: the first set of [waiting], removed from it. *)
Fixpoint hopcroft_loop (fuel : nat) (alph : list byte) (idfa : InvStates)
  (partition waiting : list Ids) : option (list Ids) :=
  match waiting with
  | [] => Some partition
  | w :: _ =>
      match fuel with
      | O => None
      | S f =>
          let '(partition, waiting) :=
            refine_by alph idfa w (partition, pset_remove w waiting) in
          hopcroft_loop f alph idfa partition waiting
      end
  end.

(** [equivalence_classes]; the loop runs at most [2 n + |waiting|] times
    ([n] states), the bound given to [hopcroft_loop]. *)
Definition equivalence_classes (dfa : DFA) : option (list Ids) :=
  match alphabet dfa with
  | None => None
  | Some alph =>
      match inv_new dfa alph with
      | None => None
      | Some idfa =>
          let partition := coarse_partition dfa in
          match all_but_largest partition with
          | None => None
          | Some waiting =>
              hopcroft_loop (S (2 * length dfa + length waiting)) alph idfa partition waiting
          end
      end
  end.

(** [set.iter().filter_map(|&id| dfa.states[id].class).min()] *)
Definition min_class (dfa : DFA) (set : Ids) : option nat :=
  fold_left (fun acc id =>
    match class (nth id dfa state_sink), acc with
    | Some c, Some m => Some (Nat.min m c)
    | Some c, None => Some c
    | None, _ => acc
    end) set None.

(** The transitions of the state of block [set]; [rest] is
    [partition.iter().skip(1)]. *)
Definition minimize_next (dfa : DFA) (rest : list Ids) (set : Ids) : ByteMap :=
  fold_left (fun nx source =>
    fold_left (fun nx (e : byte * nat) =>
      let '(symbol, dest) := e in
      match map_get nx symbol with
      | Some _ => nx
      | None =>
          match position (ids_mem dest) rest with
          | Some id => map_insert nx symbol (S id)
          | None => nx
          end
      end) (next (nth source dfa state_sink)) nx) set [].

Definition minimize (dfa : DFA) : option DFA :=
  match equivalence_classes dfa with
  | None => None
  | Some partition =>
      let rest := tl partition in
      Some (state_sink ::
            map (fun set => state_new (minimize_next dfa rest set) (min_class dfa set)) rest)
  end.


(* ================================================================= *)
(** ** Scanner ([table.rs], [scan.rs]) *)

Inductive Command := Skip | Emit.

(** [trait LexTable]: a table is given by its methods; [START_STATE] is the
    default [0]. *)
Record LexTable := mkLexTable {
  lt_step : nat -> byte -> nat;
  lt_class : nat -> option nat;
  lt_sink : nat;
  lt_command : nat -> Command
}.

Definition START_STATE : nat := 0.

(** [Token { class, span: i..j }] and [Result<Token, ScanError>]; indices
    are [usize] values, kept as integers. *)
Record Token := mkToken { tok_class : nat; span_start : Z; span_end : Z }.

Inductive ScanItem := Ok (t : Token) | Err (pos : Z).

Definition usize_max : Z := 2 ^ 64 - 1.

(** The [for byte in self.input[self.index..]] loop: returns [state],
    [index], [last_accept_state] and [last_accept_index]. *)
Fixpoint simulate (T : LexTable) (input : list byte) (state : nat) (index : Z)
  (last_accept_state : nat) (last_accept_index : Z) : nat * Z * nat * Z :=
  match input with
  | [] => (state, index, last_accept_state, last_accept_index)
  | byte :: rest =>
      if Nat.eqb state (lt_sink T) then (state, index, last_accept_state, last_accept_index)
      else
        let '(las, lai) :=
          match lt_class T state with
          | Some _ => (state, index)
          | None => (last_accept_state, last_accept_index)
          end in
        simulate T rest (lt_step T state byte) (index + 1) las lai
  end.

(** One pass of the body of the [while] loop of [Scan::next]: a token,
    to be emitted or skipped according to the command of its class, or an
    error; with the new value of [self.index]. *)
Inductive Attempt := AEmit (t : Token) | ASkip (t : Token) | AError (pos : Z).

Definition command_attempt (T : LexTable) (t : Token) : Attempt :=
  match lt_command T (tok_class t) with Emit => AEmit t | Skip => ASkip t end.

Definition attempt (T : LexTable) (input : list byte) (index : Z) : Attempt * Z :=
  let '(state, idx, las, lai) :=
    simulate T (skipn (Z.to_nat index) input) START_STATE index (lt_sink T) 0 in
  match lt_class T state with
  | Some c => (command_attempt T (mkToken c index idx), idx)
  | None =>
      match lt_class T las with
      | Some c => (command_attempt T (mkToken c index lai), lai)
      | None => (AError index, usize_max)
      end
  end.

(** [Scan::next] ([src/src/scan.rs]).  The [while] loop may run forever;
    [fuel] bounds its iterations and [None] means it was exhausted.  The
    result is the item returned and the new [self.index]. *)
Fixpoint scan_next (fuel : nat) (T : LexTable) (input : list byte) (index : Z)
  : option (option ScanItem * Z) :=
  if index <? Z.of_nat (length input) then
    match fuel with
    | O => None
    | S f =>
        match attempt T input index with
        | (AEmit t, i) => Some (Some (Ok t), i)
        | (ASkip _, i) => scan_next f T input i
        | (AError p, i) => Some (Some (Err p), i)
        end
    end
  else Some (None, index).

(** The results of [k] successive calls of [next], each given
    [length input + 1] iterations of its loop. *)
Fixpoint scan_calls (k : nat) (T : LexTable) (input : list byte) (index : Z)
  : option (list (option ScanItem)) :=
  match k with
  | O => Some []
  | S k' =>
      match scan_next (S (length input)) T input index with
      | None => None
      | Some (it, index') => option_map (cons it) (scan_calls k' T input index')
      end
  end.

(** The successive passes of the loop body from [index], skipped tokens
    included, until [self.index] reaches the end of the input. *)
Fixpoint attempts (fuel : nat) (T : LexTable) (input : list byte) (index : Z)
  : list Attempt :=
  match fuel with
  | O => []
  | S f =>
      if index <? Z.of_nat (length input) then
        let '(a, i) := attempt T input index in a :: attempts f T input i
      else []
  end.

(** The items [Scan] yields for these passes. *)
Definition emitted (tr : list Attempt) : list ScanItem :=
  flat_map (fun a => match a with
                     | AEmit t => [Ok t]
                     | ASkip _ => []
                     | AError p => [Err p]
                     end) tr.

(** Stepping the table from [state] over [w]; the scanner never steps from
    the sink (a [NaiveLexTable] has no row for it), so neither does this. *)
Fixpoint lt_run (T : LexTable) (state : nat) (w : list byte) : nat :=
  match w with
  | [] => state
  | b :: w' => if Nat.eqb state (lt_sink T) then state else lt_run T (lt_step T state b) w'
  end.

(** [input[p..q]] and the class the table gives it from [START_STATE]. *)
Definition slice (input : list byte) (p q : Z) : list byte :=
  firstn (Z.to_nat (q - p)) (skipn (Z.to_nat p) input).

Definition accepts (T : LexTable) (input : list byte) (p q : Z) : option nat :=
  lt_class T (lt_run T START_STATE (slice input p q)).

(** A token of class [c] spanning [[p, q)]: the longest non-empty prefix of
    [input[p..]] the table accepts. *)
Definition longest_match (T : LexTable) (input : list byte) (c : nat) (p q : Z) : Prop :=
  p < q <= Z.of_nat (length input) /\ accepts T input p q = Some c /\
  forall q', q < q' <= Z.of_nat (length input) -> accepts T input p q' = None.

(** The passes from [p] tile [input[p..]]: tokens, each the longest match
    at its start, followed by the end of input or by an error at a position
    where no non-empty prefix is accepted. *)
Fixpoint tiles (T : LexTable) (input : list byte) (p : Z) (tr : list Attempt) : Prop :=
  match tr with
  | [] => p = Z.of_nat (length input)
  | AError e :: tr' =>
      e = p /\ tr' = [] /\ p < Z.of_nat (length input) /\
      forall q', p < q' <= Z.of_nat (length input) -> accepts T input p q' = None
  | (AEmit t | ASkip t) :: tr' =>
      span_start t = p /\ longest_match T input (tok_class t) p (span_end t) /\
      tiles T input (span_end t) tr'
  end.

(* ================================================================= *)
(** ** Notions for the correctness of [minimize] *)

(** [DFA::step] and [DFA::class] without the bounds check. *)
Definition tstep (dfa : DFA) (s : nat) (a : byte) : nat :=
  match map_get (next (nth s dfa state_sink)) a with Some j => j | None => 0%nat end.

Definition tclass (dfa : DFA) (s : nat) : option nat := class (nth s dfa state_sink).

(** The run of [tstep] from a state over an input. *)
Fixpoint trun (dfa : DFA) (s : nat) (w : list byte) : nat :=
  match w with
  | [] => s
  | a :: w' => trun dfa (tstep dfa s a) w'
  end.

(** A dead state: no input leads from it to a state with an accept class. *)
Definition dead (dfa : DFA) (s : nat) : Prop := forall w, tclass dfa (trun dfa s w) = None.

(** The order of [BTreeSet<Ids>]. *)
Definition ids_lt (a b : Ids) : Prop := ids_compare a b = Lt.

(** [P] is stable under [X] for the symbol [a]: the states of a block
    all step into [X] on [a], or none does. *)
Definition stable_sym (dfa : DFA) (P : list Ids) (a : byte) (X : nat -> Prop) : Prop :=
  forall B x y, In B P -> In x B -> In y B -> (X (tstep dfa x a) <-> X (tstep dfa y a)).

Definition stable (dfa : DFA) (P : list Ids) (X : nat -> Prop) : Prop :=
  forall a, stable_sym dfa P a X.

(** The sets obtained from the waiting sets [W] and the sets [P] is
    already stable under, by union and difference. *)
Inductive gen (dfa : DFA) (P W : list Ids) : (nat -> Prop) -> Prop :=
| gen_wait w : In w W -> gen dfa P W (fun s => In s w)
| gen_stable X : stable dfa P X -> gen dfa P W X
| gen_union X Y : gen dfa P W X -> gen dfa P W Y -> gen dfa P W (fun s => X s \/ Y s)
| gen_diff X Y : gen dfa P W X -> gen dfa P W Y -> gen dfa P W (fun s => X s /\ ~ Y s)
| gen_ext X Y : gen dfa P W X -> (forall s, X s <-> Y s) -> gen dfa P W Y.

(** A partition of the states [0 .. n-1] as [equivalence_classes] keeps it. *)
Definition part_ok (n : nat) (P : list Ids) : Prop :=
  StronglySorted ids_lt P /\
  (forall B, In B P -> B <> [] /\ StronglySorted lt B /\ forall x, In x B -> (x < n)%nat) /\
  (forall x, (x < n)%nat -> exists B, In B P /\ In x B) /\
  (forall B C x, In B P -> In C P -> In x B -> In x C -> B = C).

Definition class_uniform (dfa : DFA) (P : list Ids) : Prop :=
  forall B x y, In B P -> In x B -> In y B -> tclass dfa x = tclass dfa y.

(** The invariant of the [while] loop; [E] are sets taken from [waiting]
    whose refinement is in progress. *)
Definition hop_inv (dfa : DFA) (E P W : list Ids) : Prop :=
  part_ok (length dfa) P /\ class_uniform dfa P /\
  forall B, In B P -> gen dfa P (E ++ W) (fun s => In s B).

(** A block on which a test is constant. *)
Definition uniform_on (f : nat -> bool) (B : Ids) : Prop :=
  forall x y, In x B -> In y B -> f x = f y.

(** A split of [split_sets] by the test [f]. *)
Definition split_of (f : nat -> bool) (sp : Ids * (Ids * Ids)) : Prop :=
  snd sp = (filter f (fst sp), filter (fun x => negb (f x)) (fst sp)) /\
  filter f (fst sp) <> [] /\ filter (fun x => negb (f x)) (fst sp) <> [].

(** Membership in an optional set of [InvDFA]. *)
Definition opt_In (o : option Ids) (x : nat) : Prop :=
  match o with Some s => In x s | None => False end.

(** The key of [coarse_partition]: [class.map_or(0, |c| c + 1)]. *)
Definition gkey_of (dfa : DFA) (x : nat) : nat :=
  match tclass dfa x with Some c => S c | None => 0%nat end.

(** The body of the inner loop of [minimize], over [(&symbol, dest)]. *)
Definition mn_step (rest : list Ids) (nx : ByteMap) (e : byte * nat) : ByteMap :=
  let '(symbol, dest) := e in
  match map_get nx symbol with
  | Some _ => nx
  | None =>
      match position (ids_mem dest) rest with
      | Some id => map_insert nx symbol (S id)
      | None => nx
      end
  end.

(** The states built by [minimize] from the blocks after the first. *)
Definition minimized_states (dfa : DFA) (rest : list Ids) : DFA :=
  state_sink :: map (fun set => state_new (minimize_next dfa rest set) (min_class dfa set)) rest.

(** Decidable well-formedness checks of a DFA. *)
Fixpoint nodup_bytes (l : list byte) : bool :=
  match l with
  | [] => true
  | x :: t => negb (existsb (Byte.eqb x) t) && nodup_bytes t
  end.

Definition targets_ok (dfa : DFA) : bool :=
  forallb (fun st => forallb (fun e => (snd e <? length dfa)%nat) (next st)) dfa.

Definition keys_ok (dfa : DFA) : bool :=
  forallb (fun st => nodup_bytes (map fst (next st))) dfa.

(** The DFA built for [ab|ab*]: five states, of which the three
    accepting ones are equivalent. *)
Definition example_regex : RegEx :=
  re_or (re_then (re_set (range "a"%byte "a"%byte)) (re_set (range "b"%byte "b"%byte)))
        (re_then (re_set (range "a"%byte "a"%byte)) (re_star (re_set (range "b"%byte "b"%byte)))).

Definition example_dfa : DFA :=
  match dfa_from 20 example_regex with Some d => d | None => [] end.

Definition measure (n : nat) (P W : list Ids) : nat := (2 * (n - length P) + length W)%nat.

(* ================================================================= *)
(** ** Further code of the crates *)

(** [value as u8] *)
Definition u8_of_Z (z : Z) : byte :=
  match Byte.of_nat (Z.to_nat (z mod 256)) with Some b => b | None => x00 end.

(** [Bytes::new] ([byte_set.rs]): the state [(index, word)] of the
    iterator of [ByteSet::bytes]. *)
Definition bytes_new (s : ByteSet) : Z * Z :=
  match first s with
  | Some (index, w) => (index, w)
  | None => (NUM_WORDS, 0)
  end.

(** [Bytes::next]; its recursive call advances [index], so it nests at
    most [31] times and the bound [32] is never reached. *)
Fixpoint bytes_next (fuel : nat) (s : ByteSet) (st : Z * Z) : option (byte * (Z * Z)) :=
  let '(index, w) := st in
  if w =? 0 then
    if index <? NUM_WORDS - 1 then
      match fuel with
      | O => None
      | S f => bytes_next f s (index + 1, word s (index + 1))
      end
    else None
  else Some (u8_of_Z (decode index w), (index, Z.land w (w - 1))).

(** The items of the iterator: at most [fuel] calls of [next]. *)
Fixpoint bytes_collect (fuel : nat) (s : ByteSet) (st : Z * Z) : list byte :=
  match fuel with
  | O => []
  | S f =>
      match bytes_next 32 s st with
      | None => []
      | Some (b, st') => b :: bytes_collect f s st'
      end
  end.

Definition bytes_iter (s : ByteSet) : list byte := bytes_collect 257 s (bytes_new s).

(** [literal(s)] ([src/src/lib.rs], [regex-deriv-syntax/src/utils.rs]):
    [s.bytes().fold(RegEx::empty(), |r, byte| r.then(&RegEx::set(point(byte))))]. *)
Definition literal (s : list byte) : RegEx :=
  fold_left (fun r byte => re_then r (re_set (point byte))) s re_empty.

(** [char::encode_utf8] for the scalar value [code]. *)
Definition encode_utf8 (code : Z) : list byte :=
  if code <? 128 then [u8_of_Z code]
  else if code <? 2048 then
    [u8_of_Z (Z.lor (Z.land (Z.shiftr code 6) 31) 192);
     u8_of_Z (Z.lor (Z.land code 63) 128)]
  else if code <? 65536 then
    [u8_of_Z (Z.lor (Z.land (Z.shiftr code 12) 15) 224);
     u8_of_Z (Z.lor (Z.land (Z.shiftr code 6) 63) 128);
     u8_of_Z (Z.lor (Z.land code 63) 128)]
  else
    [u8_of_Z (Z.lor (Z.land (Z.shiftr code 18) 7) 240);
     u8_of_Z (Z.lor (Z.land (Z.shiftr code 12) 63) 128);
     u8_of_Z (Z.lor (Z.land (Z.shiftr code 6) 63) 128);
     u8_of_Z (Z.lor (Z.land code 63) 128)].

(** [any(s)] ([src/src/lib.rs]); a [&str] is the sequence of its chars,
    each a Unicode scalar value. *)
Definition any (s : list Z) : RegEx :=
  fold_left (fun r c => re_or r (literal (encode_utf8 c))) s re_empty.

(** [NaiveLexTable] ([src/src/table.rs]). *)
Record NaiveLexTable := mkNaiveLexTable {
  nl_next : list nat;
  nl_classes : list (option nat);
  nl_commands : list Command
}.

(** The body of [NaiveLexTable::new] once [dfa] is the minimized DFA:
    row [i] of [next] is state [i + 1], the row index [nrows] is the sink.
    The minimized DFA has a state and no transition to [0], so neither
    [usize] subtraction goes below [0]. *)
Definition naive_from_dfa (dfa : DFA) (commands : list Command) : NaiveLexTable :=
  let nrows := (length dfa - 1)%nat in
  let next := fold_left (fun nx (p : nat * State) =>
      let '(i, state) := p in
      fold_left (fun nx (e : byte * nat) =>
          let '(symbol, dest) := e in
          list_set nx (256 * i + Byte.to_nat symbol)%nat (dest - 1)%nat) (next state) nx)
      (combine (seq 0 nrows) (tl dfa)) (repeat nrows (256 * nrows)%nat) in
  mkNaiveLexTable next (map class (tl dfa) ++ [None]) commands.

(** [NaiveLexTable::new(regexes, commands)]:
    [DFA::from(regexes).minimize()], then the table. *)
Definition naive_lex_table_new (fuel : nat) (regexes : list RegEx) (commands : list Command)
  : option NaiveLexTable :=
  match build fuel regexes with
  | None => None
  | Some d => option_map (fun m => naive_from_dfa m commands) (minimize d)
  end.

(** [impl LexTable for NaiveLexTable].  [Vec] indexing panics out of
    range; the scanner steps only from states other than the sink, whose
    rows exist. *)
Definition naive_table (T : NaiveLexTable) : LexTable :=
  mkLexTable (fun state symbol => nth (256 * state + Byte.to_nat symbol)%nat (nl_next T) 0%nat)
             (fun state => nth state (nl_classes T) None)
             (length (nl_classes T) - 1)%nat
             (fun class => nth class (nl_commands T) Emit).

(** [Scan::next] of [regex-deriv/src/scan.rs]: one pass of the simulation
    from [self.index], without commands; the result and the new
    [self.index]. *)
Definition scan_next_rd (T : LexTable) (input : list byte) (index : Z) : option ScanItem * Z :=
  if index <? Z.of_nat (length input) then
    let '(state, idx, las, lai) :=
      simulate T (skipn (Z.to_nat index) input) 0%nat index (lt_sink T) 0 in
    match lt_class T state with
    | Some c => (Some (Ok (mkToken c index idx)), idx)
    | None =>
        match lt_class T las with
        | Some c => (Some (Ok (mkToken c index lai)), lai)
        | None => (Some (Err index), usize_max)
        end
    end
  else (None, index).

(** A list of byte classes in which every byte lies in exactly one class. *)
Definition byte_partition (cs : list ByteSet) : Prop :=
  forall a, exists B, In B cs /\ contains B a = true /\
    forall B', In B' cs -> contains B' a = true -> B' = B.

(** The invariant of [DFABuilder]: state [0] is the sink, state [1] has
    the class of [start], transitions and [re2idx] point to states, and a
    transition map has one entry per symbol. *)
Definition builder_ok (start : list RegEx) (b : DFABuilder) : Prop :=
  (exists rest, b_states b = state_sink :: rest) /\
  (1 < length (b_states b))%nat /\
  class (nth 1 (b_states b) state_sink) = regexvec_class start /\
  (forall st k d, In st (b_states b) -> In (k, d) (next st) -> (d < length (b_states b))%nat) /\
  (forall st, In st (b_states b) -> NoDup (map fst (next st))) /\
  (forall q v, In (q, v) (re2idx b) -> (v < length (b_states b))%nat).

(* ================================================================= *)
(** * Auxiliary views of the code *)

(** The integers [k, k + n) (as [Z]), in increasing order. *)
Definition zrange (k n : nat) : list Z := map Z.of_nat (seq k n).

(** The set bits of an 8-bit word, in increasing order. *)
Definition wbits (w : Z) : list Z := filter (Z.testbit w) (zrange 0 8).

(** What the [Bytes] iterator still yields from word [i] holding [w]
    onwards: the bits left in [w], then the members of the later words. *)
Definition iter_rest (s : ByteSet) (i : nat) (w : Z) : list Z :=
  map (fun k => 8 * Z.of_nat i + k) (wbits w) ++
  filter (Z.testbit s) (zrange (8 * S i) (256 - 8 * S i)).

(** A collection of byte classes as [approx_deriv_classes] should return:
    no duplicates, no empty class, and a partition of the bytes. *)
Definition classes_ok (cs : list ByteSet) : Prop :=
  NoDup cs /\ (forall B, In B cs -> is_empty B = false) /\ byte_partition cs.

(** The inner loop of [NaiveLexTable::new]: fill row [k] of [next] with
    the transitions [E] of one state. *)
Definition naive_row (k : nat) (E : ByteMap) (nx : list nat) : list nat :=
  fold_left (fun nx (e : byte * nat) =>
      let '(symbol, dest) := e in
      list_set nx (256 * k + Byte.to_nat symbol)%nat (dest - 1)%nat) E nx.

(** The outer loop of [NaiveLexTable::new] over the enumerated states. *)
Definition naive_rows (L : list (nat * State)) (nx : list nat) : list nat :=
  fold_left (fun nx (p : nat * State) => let '(i, state) := p in naive_row i (next state) nx) L nx.

(** How a state [t] of the naive table corresponds to a state [s] of the
    DFA [state_sink :: rest]: a non-sink row [t] is DFA state [t + 1], and
    the table's sink row stands for any state with the sink's shape. *)
Definition naive_rel (rest : list State) (t s : nat) : Prop :=
  ((t < length rest)%nat /\ s = S t) \/
  (t = length rest /\ nth s (state_sink :: rest) state_sink = state_sink).

(** A one-state DFA (besides the sink) accepting class 0 after any number
    of "a"; and a table whose only row is its sink. *)
Definition one_state_rest : list State := [state_new [("a"%byte, 1%nat)] (Some 0%nat)].

Definition emit_table : LexTable := naive_table (mkNaiveLexTable [] [None] []).


(* ================================================================= *)
(** * Properties *)

(** The test [derivative] of [tests.rs]. *)
Example range_83_149 :
  bytes (range "083"%byte "149"%byte) = filter (fun b => (83 <=? bval b) && (bval b <=? 149)) all_bytes.
Proof. vm_compute. reflexivity. Qed.

Example derivative_test :
  let set1 := re_set (range "000"%byte "016"%byte) in
  let set2 := re_set (range "008"%byte "024"%byte) in
  let re1 := re_and (re_or (re_and set1 set2) set1) set2 in
  let regex := re_then (re_then (re_then re1 re1) re1) re1 in
  (match deriv regex "008"%byte with
   | Some d1 => match deriv d1 "008"%byte with
               | Some d2 => match deriv d2 "008"%byte with
                           | Some d3 => deriv d3 "008"%byte
                           | None => None end
               | None => None end
   | None => None end) = Some REpsilon
  /\ deriv regex "000"%byte = Some RNone.
Proof. vm_compute. split; reflexivity. Qed.

(** The test [approx_eq] of [src/src/tests.rs]. *)
Example approx_eq_test :
  re_set (complement (range "003"%byte "017"%byte)) = re_not (re_set (range "003"%byte "017"%byte)).
Proof. vm_compute. reflexivity. Qed.

Lemma land_pow2_testbit (x k : Z) : 0 <= k ->
  negb (Z.land x (Z.shiftl 1 k) =? 0) = Z.testbit x k.
Proof.
  intros Hk. rewrite Z.shiftl_1_l.
  destruct (Z.testbit x k) eqn:E.
  - apply negb_true_iff, Z.eqb_neq. intros H0.
    assert (Z.testbit (Z.land x (2 ^ k)) k = false) by (rewrite H0; apply Z.testbit_0_l).
    rewrite Z.land_spec, E, Z.pow2_bits_true in H; auto; discriminate.
  - apply negb_false_iff, Z.eqb_eq. apply Z.bits_inj_0. intros n.
    rewrite Z.land_spec. destruct (Z.eq_dec n k) as [->|Hn]; [rewrite E; reflexivity|].
    destruct (Z.testbit x n); simpl; [|reflexivity].
    destruct (Z.lt_ge_cases n 0).
    + apply Z.testbit_neg_r; lia.
    + rewrite Z.pow2_bits_eqb by lia. apply Z.eqb_neq; lia.
Qed.

Lemma bval_range (b : byte) : 0 <= bval b < 256.
Proof. unfold bval. pose proof (Byte.to_nat_bounded b). lia. Qed.

Lemma word_testbit (s i j : Z) : 0 <= i -> 0 <= j < 8 ->
  Z.testbit (word s i) j = Z.testbit s (8 * i + j).
Proof.
  intros Hi Hj. unfold word, WORD_BITS, WORD_MAX.
  change 255 with (Z.ones 8). rewrite Z.land_spec, Z.ones_spec_low by lia.
  rewrite Z.shiftr_spec by lia. replace (j + 8 * i) with (8 * i + j) by lia.
  apply andb_true_r.
Qed.

Lemma contains_testbit (s : ByteSet) (a : byte) :
  contains s a = Z.testbit s (bval a).
Proof.
  unfold contains, encode. pose proof (bval_range a).
  rewrite land_pow2_testbit by (unfold WORD_BITS; apply Z.mod_pos_bound; lia).
  unfold WORD_BITS. rewrite word_testbit.
  - rewrite <- Z.div_mod by lia. reflexivity.
  - apply Z.div_pos; lia.
  - apply Z.mod_pos_bound; lia.
Qed.

Lemma contains_union (s t : ByteSet) (a : byte) :
  contains (union s t) a = contains s a || contains t a.
Proof. rewrite !contains_testbit. apply Z.lor_spec. Qed.

Lemma contains_inter (s t : ByteSet) (a : byte) :
  contains (intersection s t) a = contains s a && contains t a.
Proof. rewrite !contains_testbit. apply Z.land_spec. Qed.

Lemma contains_complement (s : ByteSet) (a : byte) :
  contains (complement s) a = negb (contains s a).
Proof.
  rewrite !contains_testbit. unfold complement, bs_universe.
  pose proof (bval_range a).
  rewrite Z.lxor_spec, Z.ones_spec_low by lia. apply xorb_true_r.
Qed.

Lemma contains_universe (a : byte) : contains bs_universe a = true.
Proof.
  rewrite contains_testbit. pose proof (bval_range a).
  unfold bs_universe. apply Z.ones_spec_low; lia.
Qed.

Lemma in_word_indices (i : Z) : In i word_indices <-> 0 <= i < 32.
Proof.
  unfold word_indices. rewrite in_map_iff. split.
  - intros [n [<- Hn]]. apply in_seq in Hn. lia.
  - intros Hi. exists (Z.to_nat i). split; [lia|]. apply in_seq. lia.
Qed.

Lemma is_empty_true (s : ByteSet) :
  is_empty s = true -> forall a, contains s a = false.
Proof.
  unfold is_empty. rewrite forallb_forall. intros H a.
  pose proof (bval_range a) as Ha.
  assert (Hw : word s (bval a / 8) = 0).
  { apply Z.eqb_eq, H, in_word_indices. split; [apply Z.div_pos; lia|].
    apply Z.div_lt_upper_bound; lia. }
  rewrite contains_testbit.
  rewrite (Z.div_mod (bval a) 8) by lia.
  rewrite <- word_testbit, Hw; [apply Z.testbit_0_l| |].
  - apply Z.div_pos; lia.
  - apply Z.mod_pos_bound; lia.
Qed.

Lemma word_nonzero_bit (s i : Z) : word s i <> 0 ->
  exists j, 0 <= j < 8 /\ Z.testbit (word s i) j = true.
Proof.
  intros Hw.
  destruct (existsb (fun j => Z.testbit (word s i) j) [0;1;2;3;4;5;6;7]) eqn:Ex.
  { apply existsb_exists in Ex. destruct Ex as [j [Hj Hb]].
    exists j. split; [|exact Hb]. simpl in Hj; lia. }
  exfalso. apply Hw. apply Z.bits_inj_0. intros n.
  destruct (Z.testbit (word s i) n) eqn:E; [|reflexivity]. exfalso.
  destruct (Z.lt_ge_cases n 0) as [Hn0|Hn0].
  { rewrite Z.testbit_neg_r in E by lia. discriminate. }
  destruct (Z.lt_ge_cases n 8) as [Hn8|Hn8].
  { assert (In n [0;1;2;3;4;5;6;7]) as Hin by (simpl; lia).
    assert (existsb (fun j => Z.testbit (word s i) j) [0;1;2;3;4;5;6;7] = true)
      by (apply existsb_exists; eauto).
    congruence. }
  unfold word, WORD_MAX in E. change 255 with (Z.ones 8) in E.
  rewrite Z.land_spec, Z.ones_spec_high, andb_false_r in E by lia. discriminate.
Qed.

Lemma byte_of_Z (v : Z) : 0 <= v < 256 -> exists a, bval a = v.
Proof.
  intros Hv. destruct (Byte.of_nat (Z.to_nat v)) as [a|] eqn:E.
  - exists a. unfold bval. apply Byte.to_of_nat in E. lia.
  - apply Byte.of_nat_None_iff in E. lia.
Qed.

Lemma forallb_false_ex {A} (f : A -> bool) (l : list A) :
  forallb f l = false -> exists x, In x l /\ f x = false.
Proof.
  induction l as [|x l IH]; simpl; [discriminate|].
  destruct (f x) eqn:Ef; simpl.
  - intros H. destruct (IH H) as [y [Hy Hf]]. eauto.
  - intros _. eauto.
Qed.

Lemma is_empty_false (s : ByteSet) :
  is_empty s = false -> exists a, contains s a = true.
Proof.
  unfold is_empty. intros H.
  destruct (forallb_false_ex _ _ H) as [i [Hi Hw]].
  apply in_word_indices in Hi. apply Z.eqb_neq in Hw.
  destruct (word_nonzero_bit s i Hw) as [j [Hj Hb]].
  destruct (byte_of_Z (8 * i + j)) as [a Ha]; [lia|].
  exists a. rewrite contains_testbit, Ha, <- word_testbit by lia. exact Hb.
Qed.

(** ** Language lemmas *)

Lemma lang_RCat_nil (w : list byte) : lang (RCat []) w <-> w = [].
Proof. reflexivity. Qed.

Lemma lang_RCat_cons (c : RegEx) (cs : list RegEx) (w : list byte) :
  lang (RCat (c :: cs)) w <->
  exists u v, w = u ++ v /\ lang c u /\ lang (RCat cs) v.
Proof. reflexivity. Qed.

Lemma lang_RCat_single (c : RegEx) (w : list byte) :
  lang (RCat [c]) w <-> lang c w.
Proof.
  rewrite lang_RCat_cons. split.
  - intros (u & v & -> & Hu & Hv). assert (v = []) as -> by exact Hv.
    rewrite app_nil_r. exact Hu.
  - intros H. exists w, []. split; [symmetry; apply app_nil_r|].
    split; [exact H|reflexivity].
Qed.

Lemma lang_RCat_app (a b : list RegEx) (w : list byte) :
  lang (RCat (a ++ b)) w <->
  exists u v, w = u ++ v /\ lang (RCat a) u /\ lang (RCat b) v.
Proof.
  revert w. induction a as [|c a IH]; intros w; simpl app.
  - split.
    + intros H. exists [], w. repeat split; auto.
    + intros (u & v & -> & Hu & Hv). assert (u = []) as -> by exact Hu. exact Hv.
  - rewrite !lang_RCat_cons. split.
    + intros (u & v & -> & Hu & Hv). apply IH in Hv.
      destruct Hv as (v1 & v2 & -> & H1 & H2).
      exists (u ++ v1), v2. rewrite app_assoc. repeat split; auto.
      apply lang_RCat_cons. eauto.
    + intros (u & v & -> & Hu & Hv). apply lang_RCat_cons in Hu.
      destruct Hu as (u1 & u2 & -> & H1 & H2).
      exists u1, (u2 ++ v). rewrite app_assoc. repeat split; auto.
      apply IH. eauto.
Qed.

Lemma lang_ROr (l : list RegEx) (w : list byte) :
  lang (ROr l) w <-> Exists (fun c => lang c w) l.
Proof.
  induction l as [|c l IH].
  - split; [intros []|intros H; inversion H].
  - rewrite Exists_cons. rewrite <- IH. reflexivity.
Qed.

Lemma lang_RAnd (l : list RegEx) (w : list byte) :
  lang (RAnd l) w <-> Forall (fun c => lang c w) l.
Proof.
  induction l as [|c l IH].
  - split; [constructor|intros; exact I].
  - rewrite Forall_cons_iff. rewrite <- IH. reflexivity.
Qed.

Lemma star_concat (L : list byte -> Prop) (u v : list byte) :
  star_lang L u -> star_lang L v -> star_lang L (u ++ v).
Proof.
  induction 1 as [|u1 u2 H1 H2 IH]; intros Hv; [exact Hv|].
  rewrite <- app_assoc. constructor; auto.
Qed.

Lemma star_one (L : list byte -> Prop) (u : list byte) : L u -> star_lang L u.
Proof. intros H. rewrite <- (app_nil_r u). constructor; [exact H|constructor]. Qed.

Lemma star_cons (L : list byte -> Prop) (a : byte) (w : list byte) :
  star_lang L (a :: w) <->
  exists u v, w = u ++ v /\ L (a :: u) /\ star_lang L v.
Proof.
  split.
  - intros H. remember (a :: w) as aw eqn:E. revert a w E.
    induction H as [|u v Hu Hv IH]; intros a w E; [discriminate|].
    destruct u as [|b u].
    + apply IH. exact E.
    + injection E as <- <-. exists u, v. auto.
  - intros (u & v & -> & Hu & Hv).
    change (a :: u ++ v) with ((a :: u) ++ v). constructor; auto.
Qed.

Lemma star_star (L : list byte -> Prop) (w : list byte) :
  star_lang (star_lang L) w <-> star_lang L w.
Proof.
  split.
  - induction 1; [constructor|]. apply star_concat; auto.
  - apply star_one.
Qed.

Lemma star_eps (L : list byte -> Prop) (w : list byte) :
  (forall u, L u -> u = []) -> (star_lang L w <-> w = []).
Proof.
  intros HL. split.
  - induction 1 as [|u v Hu Hv IH]; [reflexivity|].
    rewrite (HL u Hu). exact IH.
  - intros ->. constructor.
Qed.

Lemma re_set_lang (s : ByteSet) (w : list byte) :
  lang (re_set s) w <-> set_lang s w.
Proof.
  unfold re_set. destruct (is_empty s) eqn:E; [|reflexivity].
  split; [intros []|]. intros (a & _ & Ha).
  rewrite (is_empty_true s E a) in Ha. discriminate.
Qed.

Lemma re_then_lang (r s : RegEx) (w : list byte) :
  lang (re_then r s) w <-> exists u v, w = u ++ v /\ lang r u /\ lang s v.
Proof.
  assert (Eps_r : forall r w, lang r w <->
            exists u v, w = u ++ v /\ lang r u /\ lang REpsilon v).
  { intros r0 w0. split.
    - intros H. exists w0, []. split; [symmetry; apply app_nil_r|]. split; auto.
      reflexivity.
    - intros (u & v & -> & Hu & Hv). assert (v = []) as -> by exact Hv.
      rewrite app_nil_r. exact Hu. }
  assert (Eps_l : forall s w, lang s w <->
            exists u v, w = u ++ v /\ lang REpsilon u /\ lang s v).
  { intros s0 w0. split.
    - intros H. exists [], w0. repeat split; auto.
    - intros (u & v & -> & Hu & Hv). assert (u = []) as -> by exact Hu. exact Hv. }
  assert (None_r : forall r w, lang RNone w <->
            exists u v, w = u ++ v /\ lang r u /\ lang RNone v).
  { intros r0 w0. split; [intros []|]. intros (u & v & _ & _ & []). }
  assert (None_l : forall s w, lang RNone w <->
            exists u v, w = u ++ v /\ lang RNone u /\ lang s v).
  { intros s0 w0. split; [intros []|]. intros (u & v & _ & [] & _). }
  assert (Two : forall r s w, lang (RCat [r; s]) w <->
            exists u v, w = u ++ v /\ lang r u /\ lang s v).
  { intros r0 s0 w0. rewrite lang_RCat_cons.
    split; intros (u & v & E & Hu & Hv); exists u, v; repeat split; auto;
      apply lang_RCat_single; auto. }
  assert (CatL : forall a s w, lang (RCat (a ++ [s])) w <->
            exists u v, w = u ++ v /\ lang (RCat a) u /\ lang s v).
  { intros a s0 w0. rewrite lang_RCat_app.
    split; intros (u & v & E & Hu & Hv); exists u, v; repeat split; auto;
      apply lang_RCat_single; auto. }
  destruct r; destruct s; cbn [re_then];
    first [ apply Eps_r | apply Eps_l | apply None_r | apply None_l
          | apply lang_RCat_app | apply CatL | apply Two | apply iff_refl ].
Qed.

Lemma re_star_lang (r : RegEx) (w : list byte) :
  lang (re_star r) w <-> star_lang (lang r) w.
Proof.
  destruct r; cbn [re_star]; try reflexivity.
  - symmetry. apply star_eps. intros u [].
  - symmetry. apply star_eps. intros u H. exact H.
  - symmetry. apply star_star.
Qed.

Lemma nullable_lang (r : RegEx) : is_nullable r = true <-> lang r [].
Proof.
  induction r as [| |s|l IH|r IH|l IH|l IH|r IH] using RegEx_ind'.
  - split; [discriminate|intros []].
  - split; reflexivity.
  - split; [discriminate|]. intros (a & E & _). discriminate.
  - cbn [is_nullable]. induction IH as [|c l Hc Hl IHl].
    + split; reflexivity.
    + cbn [forallb]. rewrite andb_true_iff, lang_RCat_cons, Hc, IHl. split.
      * intros [H1 H2]. exists [], []. auto.
      * intros (u & v & E & Hu & Hv). symmetry in E. apply app_eq_nil in E.
        destruct E; subst. auto.
  - split; [intros _; constructor|reflexivity].
  - cbn [is_nullable]. rewrite lang_ROr, existsb_exists, Exists_exists.
    rewrite Forall_forall in IH. split.
    + intros (x & Hx & Hn). exists x. split; [exact Hx|]. apply IH; auto.
    + intros (x & Hx & Hn). exists x. split; [exact Hx|]. apply IH; auto.
  - cbn [is_nullable]. rewrite lang_RAnd, forallb_forall, Forall_forall.
    rewrite Forall_forall in IH. split.
    + intros H x Hx. apply IH; auto.
    + intros H x Hx. apply IH; auto.
  - cbn [is_nullable lang]. rewrite <- IH. destruct (is_nullable r); simpl.
    + split; [discriminate|]. intros H. exfalso. apply H. reflexivity.
    + split; [intros _ H; discriminate|reflexivity].
Qed.

(** ** [merge] and [merged_sets] *)

Lemma merge_cons_cons (x y : RegEx) (t1 t2 : list RegEx) :
  merge (x :: t1) (y :: t2) =
  if re_le x y then x :: merge t1 (y :: t2) else y :: merge (x :: t1) t2.
Proof. reflexivity. Qed.

Lemma merge_perm (l1 l2 : list RegEx) : Permutation (merge l1 l2) (l1 ++ l2).
Proof.
  revert l2. induction l1 as [|x t1 IH1]; intros l2; [reflexivity|].
  induction l2 as [|y t2 IH2].
  - rewrite app_nil_r. reflexivity.
  - rewrite merge_cons_cons. destruct (re_le x y).
    + simpl. constructor. apply IH1.
    + rewrite IH2. apply (Permutation_middle (x :: t1)).
Qed.

Lemma merged_sets_eq (l : list RegEx) (reduce : ByteSet -> ByteSet -> ByteSet) :
  merged_sets l reduce =
  match fold_left (reduce_step reduce) (sets_of l) None with
  | Some set => merge (nonsets l) [RSet set]
  | None => nonsets l
  end.
Proof.
  unfold merged_sets.
  lazymatch goal with |- context [fold_left ?f _ _] => set (F := f) end.
  assert (Hf : forall l rs nr, fold_left F l (rs, nr) =
            (fold_left (reduce_step reduce) (sets_of l) rs, nr ++ nonsets l)).
  { induction l0 as [|x l0 IH]; intros rs nr; simpl.
    - rewrite app_nil_r. reflexivity.
    - destruct x; cbn [is_set negb]; rewrite IH;
        try (rewrite <- app_assoc; reflexivity).
      destruct rs; reflexivity. }
  rewrite Hf. reflexivity.
Qed.

Lemma Exists_split (P : RegEx -> Prop) (l : list RegEx) :
  Exists P l <-> Exists P (nonsets l) \/ Exists (fun s => P (RSet s)) (sets_of l).
Proof.
  induction l as [|x l IH]; simpl.
  - split; [intros H; inversion H|intros [H|H]; inversion H].
  - destruct x; simpl; rewrite ?Exists_cons, IH; tauto.
Qed.

Lemma Forall_split (P : RegEx -> Prop) (l : list RegEx) :
  Forall P l <-> Forall P (nonsets l) /\ Forall (fun s => P (RSet s)) (sets_of l).
Proof.
  induction l as [|x l IH]; simpl.
  - split; [intros _; split; constructor|intros _; constructor].
  - destruct x; simpl; rewrite ?Forall_cons_iff, IH; tauto.
Qed.

Lemma set_lang_union (x y : ByteSet) (w : list byte) :
  set_lang (union x y) w <-> set_lang x w \/ set_lang y w.
Proof.
  unfold set_lang. split.
  - intros (a & -> & Ha). rewrite contains_union, orb_true_iff in Ha.
    destruct Ha; [left|right]; eauto.
  - intros [(a & -> & Ha)|(a & -> & Ha)]; exists a; split; auto;
      rewrite contains_union, Ha; [reflexivity|apply orb_true_r].
Qed.

Lemma set_lang_inter (x y : ByteSet) (w : list byte) :
  set_lang (intersection x y) w <-> set_lang x w /\ set_lang y w.
Proof.
  unfold set_lang. split.
  - intros (a & -> & Ha). rewrite contains_inter, andb_true_iff in Ha.
    destruct Ha; split; eauto.
  - intros [(a & -> & Ha) (b & E & Hb)]. injection E as <-.
    exists a. split; auto. rewrite contains_inter, Ha, Hb. reflexivity.
Qed.

Lemma fold_union_lang (xs : list ByteSet) (o : option ByteSet) (w : list byte) :
  match fold_left (reduce_step union) xs o with
  | Some s => set_lang s w | None => False end <->
  (match o with Some s => set_lang s w | None => False end) \/
  Exists (fun s => set_lang s w) xs.
Proof.
  revert o. induction xs as [|x xs IH]; intros o; simpl.
  - split; [tauto|]. intros [H|H]; [exact H|inversion H].
  - rewrite IH, Exists_cons. unfold reduce_step.
    destruct o; [rewrite set_lang_union|]; tauto.
Qed.

Lemma fold_inter_lang (xs : list ByteSet) (o : option ByteSet) (w : list byte) :
  match fold_left (reduce_step intersection) xs o with
  | Some s => set_lang s w | None => True end <->
  (match o with Some s => set_lang s w | None => True end) /\
  Forall (fun s => set_lang s w) xs.
Proof.
  revert o. induction xs as [|x xs IH]; intros o; simpl.
  - split; [split; auto|tauto].
  - rewrite IH, Forall_cons_iff. unfold reduce_step.
    destruct o; [rewrite set_lang_inter|]; tauto.
Qed.

Lemma fold_reduce_some (reduce : ByteSet -> ByteSet -> ByteSet)
  (xs : list ByteSet) (o : option ByteSet) :
  fold_left (reduce_step reduce) xs o = None -> o = None /\ xs = [].
Proof.
  revert o. induction xs as [|x xs IH]; intros o; simpl; [auto|].
  intros H. apply IH in H. destruct H. discriminate.
Qed.

Lemma Exists_merge (P : RegEx -> Prop) (l1 l2 : list RegEx) :
  Exists P (merge l1 l2) <-> Exists P l1 \/ Exists P l2.
Proof.
  rewrite !Exists_exists. split.
  - intros (x & Hx & Hp). apply (Permutation_in _ (merge_perm l1 l2)) in Hx.
    apply in_app_or in Hx. destruct Hx; [left|right]; eauto.
  - intros [(x & Hx & Hp)|(x & Hx & Hp)]; exists x; split; auto;
      apply (Permutation_in _ (Permutation_sym (merge_perm l1 l2)));
      apply in_or_app; auto.
Qed.

Lemma Forall_merge (P : RegEx -> Prop) (l1 l2 : list RegEx) :
  Forall P (merge l1 l2) <-> Forall P l1 /\ Forall P l2.
Proof.
  rewrite <- Forall_app. split; apply Permutation_Forall;
    [apply merge_perm|apply Permutation_sym, merge_perm].
Qed.

Lemma merged_sets_union_lang (l : list RegEx) (w : list byte) :
  Exists (fun c => lang c w) (merged_sets l union) <->
  Exists (fun c => lang c w) l.
Proof.
  rewrite merged_sets_eq, (Exists_split _ l).
  pose proof (fold_union_lang (sets_of l) None w) as H.
  destruct (fold_left (reduce_step union) (sets_of l) None) as [set|].
  - rewrite Exists_merge, Exists_cons.
    split; [intros [A|[B|C]]; [auto|right; tauto|inversion C]|].
    intros [A|B]; [auto|]. right. left. apply H. auto.
  - split; [auto|]. intros [A|B]; [auto|]. exfalso. apply H. auto.
Qed.

Lemma merged_sets_inter_lang (l : list RegEx) (w : list byte) :
  Forall (fun c => lang c w) (merged_sets l intersection) <->
  Forall (fun c => lang c w) l.
Proof.
  rewrite merged_sets_eq, (Forall_split _ l).
  pose proof (fold_inter_lang (sets_of l) None w) as H.
  destruct (fold_left (reduce_step intersection) (sets_of l) None) as [set|].
  - rewrite Forall_merge, Forall_cons_iff.
    split; [intros [A [B _]]; split; [auto|apply H; auto]|].
    intros [A B]. split; [auto|]. split; [apply H; auto|constructor].
  - split; [|tauto]. intros A. split; [auto|apply H; exact I].
Qed.

Lemma merged_sets_nil (l : list RegEx) (reduce : ByteSet -> ByteSet -> ByteSet) :
  merged_sets l reduce = [] -> l = [].
Proof.
  rewrite merged_sets_eq.
  destruct (fold_left (reduce_step reduce) (sets_of l) None) as [set|] eqn:E.
  - intros H. apply (f_equal (@length RegEx)) in H.
    rewrite (Permutation_length (merge_perm _ _)), length_app in H.
    simpl in H. lia.
  - apply fold_reduce_some in E. destruct E as [_ E].
    induction l as [|x l IH]; [auto|]. destruct x; simpl in *; discriminate.
Qed.

Lemma or_aux_lang (a b : list RegEx) (w : list byte) :
  lang (or_aux a b) w <-> Exists (fun c => lang c w) a \/ Exists (fun c => lang c w) b.
Proof.
  unfold or_aux. rewrite <- Exists_merge, <- merged_sets_union_lang.
  destruct (merged_sets (merge a b) union) as [|x [|y l]].
  - split; [intros []|intros H; inversion H].
  - rewrite Exists_cons. split; [auto|intros [H|H]; [auto|inversion H]].
  - apply lang_ROr.
Qed.

Lemma and_aux_lang (a b : list RegEx) (w : list byte) :
  a ++ b <> [] ->
  (lang (and_aux a b) w <-> Forall (fun c => lang c w) a /\ Forall (fun c => lang c w) b).
Proof.
  intros Hne. unfold and_aux. rewrite <- Forall_merge, <- merged_sets_inter_lang.
  destruct (merged_sets (merge a b) intersection) as [|x [|y l]] eqn:E.
  - exfalso. apply merged_sets_nil in E.
    apply (f_equal (@length RegEx)) in E.
    rewrite (Permutation_length (merge_perm _ _)) in E. simpl in E.
    destruct (a ++ b); [contradiction|discriminate].
  - rewrite Forall_cons_iff. split; [split; [auto|constructor]|tauto].
  - apply lang_RAnd.
Qed.

Lemma Exists_single (P : RegEx -> Prop) (x : RegEx) : Exists P [x] <-> P x.
Proof. rewrite Exists_cons. split; [intros [H|H]; [auto|inversion H]|auto]. Qed.

Lemma Forall_single (P : RegEx -> Prop) (x : RegEx) : Forall P [x] <-> P x.
Proof. rewrite Forall_cons_iff. split; [tauto|split; auto]. Qed.

Lemma re_or_lang (r s : RegEx) (w : list byte) :
  lang (re_or r s) w <-> lang r w \/ lang s w.
Proof.
  destruct r; destruct s; cbn [re_or];
    rewrite ?or_aux_lang, ?Exists_single, ?re_set_lang, ?set_lang_union,
      <- ?lang_ROr; try (change (lang RNone w) with False); tauto.
Qed.

Lemma re_and_lang (r s : RegEx) (w : list byte) :
  r <> RAnd [] ->
  (lang (re_and r s) w <-> lang r w /\ lang s w).
Proof.
  intros Hr.
  assert (Eps : forall t, (lang (if is_nullable t then REpsilon else RNone) w <->
                           lang t w /\ w = [])).
  { intros t. destruct (is_nullable t) eqn:E; cbn [lang].
    - apply nullable_lang in E. split; [intros ->; auto|tauto].
    - split; [intros []|]. intros [H ->]. apply nullable_lang in H. congruence. }
  destruct r; destruct s; cbn [re_and];
    try (change (lang RNone w) with False); try tauto;
    try (rewrite Eps; tauto);
    try (rewrite and_aux_lang
           by (let E := fresh in intros E; apply app_eq_nil in E;
               destruct E; subst; congruence);
         rewrite ?Forall_single, <- ?lang_RAnd; tauto);
    rewrite ?re_set_lang, ?set_lang_inter; tauto.
Qed.

(** ** Well-formedness of the derivatives *)

Lemma good_l_Forall (l : list RegEx) :
  (fix good_l (l : list RegEx) : Prop :=
     match l with [] => True | x :: l' => good x /\ good_l l' end) l <->
  Forall good l.
Proof.
  induction l as [|x l IH]; [split; auto|].
  rewrite Forall_cons_iff, <- IH. reflexivity.
Qed.

Lemma good_RCat (l : list RegEx) : good (RCat l) <-> (2 <= length l)%nat /\ Forall good l.
Proof. rewrite <- good_l_Forall. reflexivity. Qed.
Lemma good_ROr (l : list RegEx) : good (ROr l) <-> (2 <= length l)%nat /\ Forall good l.
Proof. rewrite <- good_l_Forall. reflexivity. Qed.
Lemma good_RAnd (l : list RegEx) : good (RAnd l) <-> (2 <= length l)%nat /\ Forall good l.
Proof. rewrite <- good_l_Forall. reflexivity. Qed.

Lemma good_re_set (s : ByteSet) : good (re_set s).
Proof. unfold re_set. destruct (is_empty s); exact I. Qed.

Lemma good_re_then (r s : RegEx) : good r -> good s -> good (re_then r s).
Proof.
  intros Hr Hs.
  destruct r; destruct s; cbn [re_then]; auto;
    repeat match goal with
    | H : good (RCat _) |- _ => apply good_RCat in H; destruct H
    | H : good (ROr _) |- _ => apply good_ROr in H; destruct H
    | H : good (RAnd _) |- _ => apply good_RAnd in H; destruct H
    end;
    apply good_RCat; rewrite ?length_app; simpl; split;
    rewrite ?Forall_app; repeat constructor; try lia; auto;
    first [ apply good_ROr | apply good_RAnd ]; auto.
Qed.

Lemma good_merged_sets (l : list RegEx) (reduce : ByteSet -> ByteSet -> ByteSet) :
  Forall good l -> Forall good (merged_sets l reduce).
Proof.
  intros H. rewrite merged_sets_eq.
  assert (Hn : Forall good (nonsets l)).
  { unfold nonsets. rewrite Forall_forall in *. intros x Hx.
    apply filter_In in Hx. apply H. tauto. }
  destruct (fold_left _ _ _); [|exact Hn].
  apply Forall_merge. split; [exact Hn|]. repeat constructor.
Qed.

Lemma good_or_aux (a b : list RegEx) :
  Forall good a -> Forall good b -> good (or_aux a b).
Proof.
  intros Ha Hb. unfold or_aux.
  assert (H : Forall good (merged_sets (merge a b) union))
    by (apply good_merged_sets, Forall_merge; auto).
  destruct (merged_sets (merge a b) union) as [|x [|y l]]; [exact I| |].
  - inversion H; auto.
  - apply good_ROr. simpl. split; [lia|exact H].
Qed.

Lemma good_and_aux (a b : list RegEx) :
  Forall good a -> Forall good b -> good (and_aux a b).
Proof.
  intros Ha Hb. unfold and_aux.
  assert (H : Forall good (merged_sets (merge a b) intersection))
    by (apply good_merged_sets, Forall_merge; auto).
  destruct (merged_sets (merge a b) intersection) as [|x [|y l]]; [exact I| |].
  - inversion H; auto.
  - apply good_RAnd. simpl. split; [lia|exact H].
Qed.

Ltac good_or_children :=
  repeat match goal with
  | H : good (ROr _) |- _ => apply good_ROr in H; destruct H
  end.
Ltac good_and_children :=
  repeat match goal with
  | H : good (RAnd _) |- _ => apply good_RAnd in H; destruct H
  end.

Lemma good_re_or (r s : RegEx) : good r -> good s -> good (re_or r s).
Proof.
  intros Hr Hs.
  destruct r; destruct s; cbn [re_or]; auto; try apply good_re_set;
    apply good_or_aux; good_or_children;
    repeat (apply Forall_cons || apply Forall_nil); auto.
Qed.

Lemma good_re_and (r s : RegEx) : good r -> good s -> good (re_and r s).
Proof.
  intros Hr Hs.
  destruct r; destruct s; cbn [re_and]; auto;
    try (destruct (is_nullable _); exact I); try apply good_re_set;
    apply good_and_aux; good_and_children;
    repeat (apply Forall_cons || apply Forall_nil); auto.
Qed.

Lemma good_re_star (r : RegEx) : good r -> good (re_star r).
Proof. intros H. destruct r; cbn [re_star]; auto; exact I. Qed.

Lemma built_nn_good (r : RegEx) : built_nn r -> good r.
Proof.
  induction 1.
  - exact I.
  - exact I.
  - apply good_re_set.
  - apply good_re_then; auto.
  - apply good_re_star; auto.
  - apply good_re_or; auto.
  - apply good_re_and; auto.
Qed.

(** ** Derivatives *)

Lemma deriv_cat2 (r0 s : RegEx) (a : byte) :
  deriv (RCat [r0; s]) a =
  match (if is_nullable r0 then deriv s a else Some RNone), deriv r0 a with
  | Some nu, Some dr => Some (re_or (re_then dr s) nu)
  | _, _ => None
  end.
Proof. reflexivity. Qed.

Lemma deriv_cat3 (r0 r1 r2 : RegEx) (tl : list RegEx) (a : byte) :
  deriv (RCat (r0 :: r1 :: r2 :: tl)) a =
  match (if is_nullable r0 then deriv (RCat (r1 :: r2 :: tl)) a else Some RNone),
        deriv r0 a with
  | Some nu, Some dr => Some (re_or (re_then dr (RCat (r1 :: r2 :: tl))) nu)
  | _, _ => None
  end.
Proof. reflexivity. Qed.

Lemma deriv_or2 (r0 s : RegEx) (a : byte) :
  deriv (ROr [r0; s]) a =
  match deriv r0 a, deriv s a with
  | Some d0, Some d1 => Some (re_or d0 d1) | _, _ => None
  end.
Proof. reflexivity. Qed.

Lemma deriv_or3 (r0 r1 r2 : RegEx) (tl : list RegEx) (a : byte) :
  deriv (ROr (r0 :: r1 :: r2 :: tl)) a =
  match deriv r0 a, deriv (ROr (r1 :: r2 :: tl)) a with
  | Some d0, Some d1 => Some (re_or d0 d1) | _, _ => None
  end.
Proof. reflexivity. Qed.

Lemma deriv_and2 (r0 s : RegEx) (a : byte) :
  deriv (RAnd [r0; s]) a =
  match deriv r0 a, deriv s a with
  | Some d0, Some d1 => Some (re_and d0 d1) | _, _ => None
  end.
Proof. reflexivity. Qed.

Lemma deriv_and3 (r0 r1 r2 : RegEx) (tl : list RegEx) (a : byte) :
  deriv (RAnd (r0 :: r1 :: r2 :: tl)) a =
  match deriv r0 a, deriv (RAnd (r1 :: r2 :: tl)) a with
  | Some d0, Some d1 => Some (re_and d0 d1) | _, _ => None
  end.
Proof. reflexivity. Qed.

(** The Brzozowski law for a concatenation [r0 . R]. *)
Lemma cat_deriv_lang (r0 R dr nu : RegEx) (a : byte) :
  (forall w, lang dr w <-> lang r0 (a :: w)) ->
  (forall w, lang nu w <-> lang r0 [] /\ lang R (a :: w)) ->
  forall w, lang (re_or (re_then dr R) nu) w <->
            exists u v, a :: w = u ++ v /\ lang r0 u /\ lang R v.
Proof.
  intros Hdr Hnu w. rewrite re_or_lang, re_then_lang, Hnu. split.
  - intros [(u & v & -> & Hu & Hv)|[H0 HR]].
    + exists (a :: u), v. split; [reflexivity|]. split; [apply Hdr|]; auto.
    + exists [], (a :: w). auto.
  - intros ([|b u] & v & E & Hu & Hv).
    + right. simpl in E. subst. auto.
    + left. injection E as <- ->. exists u, v. split; [reflexivity|].
      split; [apply Hdr|]; auto.
Qed.

Lemma nu_spec (r0 R : RegEx) (a : byte) :
  (is_nullable r0 = true -> deriv_spec R a) ->
  exists nu, (if is_nullable r0 then deriv R a else Some RNone) = Some nu /\
             good nu /\ forall w, lang nu w <-> lang r0 [] /\ lang R (a :: w).
Proof.
  intros H. destruct (is_nullable r0) eqn:E.
  - destruct (H eq_refl) as (d & Hd & Hg & Hl). exists d.
    split; [exact Hd|]. split; [exact Hg|]. intros w. rewrite Hl.
    split; [|tauto]. intros Hw. split; [apply nullable_lang; auto|exact Hw].
  - exists RNone. split; [reflexivity|]. split; [exact I|]. intros w.
    split; [intros []|]. intros [H0 _]. apply nullable_lang in H0. congruence.
Qed.

Lemma lang_ROr_cons (c : RegEx) (cs : list RegEx) (w : list byte) :
  lang (ROr (c :: cs)) w <-> lang c w \/ lang (ROr cs) w.
Proof. reflexivity. Qed.

Lemma lang_RAnd_cons (c : RegEx) (cs : list RegEx) (w : list byte) :
  lang (RAnd (c :: cs)) w <-> lang c w /\ lang (RAnd cs) w.
Proof. reflexivity. Qed.

Lemma good_not_and_nil (r : RegEx) : good r -> r <> RAnd [].
Proof. intros H ->. apply good_RAnd in H. simpl in H. lia. Qed.

Section DerivLists.
Variable a : byte.

Lemma deriv_cat_ok (l : list RegEx) :
  (2 <= length l)%nat -> Forall good l ->
  Forall (fun r => good r -> deriv_spec r a) l -> deriv_spec (RCat l) a.
Proof.
  induction l as [|r0 rest IHl]; intros Hlen Hg IH; [simpl in Hlen; lia|].
  apply Forall_cons_iff in Hg as [Hg0 Hgr].
  apply Forall_cons_iff in IH as [IH0 IHr].
  destruct (IH0 Hg0) as (dr & Hdr & Hgdr & Hldr).
  destruct rest as [|r1 [|r2 tl]]; [simpl in Hlen; lia| |].
  - apply Forall_single in Hgr. apply Forall_single in IHr.
    destruct (nu_spec r0 r1 a (fun _ => IHr Hgr)) as (nu & Hnu & Hgnu & Hlnu).
    unfold deriv_spec. rewrite deriv_cat2, Hnu, Hdr. eexists. split; [reflexivity|].
    split; [apply good_re_or; [apply good_re_then|]; auto|].
    intros w. rewrite (cat_deriv_lang r0 r1 dr nu a Hldr Hlnu w).
    rewrite (lang_RCat_cons r0 [r1]). setoid_rewrite lang_RCat_single.
    reflexivity.
  - assert (Hrest : deriv_spec (RCat (r1 :: r2 :: tl)) a)
      by (apply IHl; auto; simpl; lia).
    destruct (nu_spec r0 (RCat (r1 :: r2 :: tl)) a (fun _ => Hrest))
      as (nu & Hnu & Hgnu & Hlnu).
    unfold deriv_spec. rewrite deriv_cat3, Hnu, Hdr. eexists. split; [reflexivity|].
    split.
    + apply good_re_or; [apply good_re_then|]; auto.
      apply good_RCat. split; [simpl; lia|exact Hgr].
    + intros w. rewrite (cat_deriv_lang _ _ dr nu a Hldr Hlnu w).
      symmetry. apply lang_RCat_cons.
Qed.

Lemma deriv_or_ok (l : list RegEx) :
  (2 <= length l)%nat -> Forall good l ->
  Forall (fun r => good r -> deriv_spec r a) l -> deriv_spec (ROr l) a.
Proof.
  induction l as [|r0 rest IHl]; intros Hlen Hg IH; [simpl in Hlen; lia|].
  apply Forall_cons_iff in Hg as [Hg0 Hgr].
  apply Forall_cons_iff in IH as [IH0 IHr].
  destruct (IH0 Hg0) as (d0 & Hd0 & Hgd0 & Hld0).
  destruct rest as [|r1 [|r2 tl]]; [simpl in Hlen; lia| |].
  - apply Forall_single in Hgr. apply Forall_single in IHr.
    destruct (IHr Hgr) as (d1 & Hd1 & Hgd1 & Hld1).
    unfold deriv_spec. rewrite deriv_or2, Hd0, Hd1. eexists. split; [reflexivity|].
    split; [apply good_re_or; auto|].
    intros w. rewrite re_or_lang, Hld0, Hld1, !lang_ROr_cons.
    cbn [lang]. tauto.
  - assert (Hrest : deriv_spec (ROr (r1 :: r2 :: tl)) a)
      by (apply IHl; auto; simpl; lia).
    destruct Hrest as (d1 & Hd1 & Hgd1 & Hld1).
    unfold deriv_spec. rewrite deriv_or3, Hd0, Hd1. eexists. split; [reflexivity|].
    split; [apply good_re_or; auto|].
    intros w. rewrite re_or_lang, Hld0, Hld1. symmetry. apply lang_ROr_cons.
Qed.

Lemma deriv_and_ok (l : list RegEx) :
  (2 <= length l)%nat -> Forall good l ->
  Forall (fun r => good r -> deriv_spec r a) l -> deriv_spec (RAnd l) a.
Proof.
  induction l as [|r0 rest IHl]; intros Hlen Hg IH; [simpl in Hlen; lia|].
  apply Forall_cons_iff in Hg as [Hg0 Hgr].
  apply Forall_cons_iff in IH as [IH0 IHr].
  destruct (IH0 Hg0) as (d0 & Hd0 & Hgd0 & Hld0).
  destruct rest as [|r1 [|r2 tl]]; [simpl in Hlen; lia| |].
  - apply Forall_single in Hgr. apply Forall_single in IHr.
    destruct (IHr Hgr) as (d1 & Hd1 & Hgd1 & Hld1).
    unfold deriv_spec. rewrite deriv_and2, Hd0, Hd1. eexists. split; [reflexivity|].
    split; [apply good_re_and; auto|].
    intros w. rewrite re_and_lang by (apply good_not_and_nil; auto).
    rewrite Hld0, Hld1, !lang_RAnd_cons. cbn [lang]. tauto.
  - assert (Hrest : deriv_spec (RAnd (r1 :: r2 :: tl)) a)
      by (apply IHl; auto; simpl; lia).
    destruct Hrest as (d1 & Hd1 & Hgd1 & Hld1).
    unfold deriv_spec. rewrite deriv_and3, Hd0, Hd1. eexists. split; [reflexivity|].
    split; [apply good_re_and; auto|].
    intros w. rewrite re_and_lang by (apply good_not_and_nil; auto).
    rewrite Hld0, Hld1. symmetry. apply lang_RAnd_cons.
Qed.

End DerivLists.

Lemma deriv_ok (r : RegEx) (a : byte) : good r -> deriv_spec r a.
Proof.
  induction r as [| |s|l IH|x IH|l IH|l IH|x IH] using RegEx_ind'; intros Hg.
  - exists RNone. split; [reflexivity|]. split; [exact I|]. intros w.
    split; intros [].
  - exists RNone. split; [reflexivity|]. split; [exact I|]. intros w.
    split; [intros []|discriminate].
  - eexists. split; [reflexivity|].
    split; [destruct (contains s a); exact I|]. intros w.
    cbn [lang]. unfold set_lang. destruct (contains s a) eqn:E; cbn [lang].
    + split; [intros ->; eauto|]. intros (b & F & _). injection F as _ ->. reflexivity.
    + split; [intros []|]. intros (b & F & Hb). injection F as <- _. congruence.
  - apply good_RCat in Hg as [Hlen Hgl]. apply deriv_cat_ok; auto.
  - destruct (IH Hg) as (d & Hd & Hgd & Hld).
    exists (re_then d (RStar x)). split; [cbn [deriv]; rewrite Hd; reflexivity|].
    split; [apply good_re_then; auto|]. intros w.
    rewrite re_then_lang. cbn [lang]. rewrite star_cons.
    setoid_rewrite Hld. reflexivity.
  - apply good_ROr in Hg as [Hlen Hgl]. apply deriv_or_ok; auto.
  - apply good_RAnd in Hg as [Hlen Hgl]. apply deriv_and_ok; auto.
  - destruct Hg.
Qed.

Lemma fullmatch_good (r : RegEx) (w : list byte) :
  good r -> exists b, is_fullmatch r w = Some b /\ (b = true <-> lang r w).
Proof.
  revert r. induction w as [|a w IH]; intros r Hg.
  - exists (is_nullable r). split; [reflexivity|]. apply nullable_lang.
  - destruct (deriv_ok r a Hg) as (d & Hd & Hgd & Hld). cbn [is_fullmatch].
    rewrite Hd. destruct (IH d Hgd) as (b & Hb & Hbl).
    destruct d;
      try (exists b; split; [exact Hb|]; rewrite Hbl; apply Hld).
    exists false. split; [reflexivity|]. rewrite <- Hld. split; [discriminate|intros []].
Qed.

Lemma deriv_sequence_none (w : list byte) : deriv_sequence RNone w = Some RNone.
Proof. induction w; [reflexivity|exact IHw]. Qed.

Lemma fullmatch_deriv_sequence (r : RegEx) (w : list byte) :
  is_fullmatch r w = option_map is_nullable (deriv_sequence r w).
Proof.
  revert r. induction w as [|a w IH]; intros r; [reflexivity|].
  cbn [is_fullmatch deriv_sequence]. destruct (deriv r a) as [d|]; [|reflexivity].
  destruct d; try apply IH.
  rewrite deriv_sequence_none. reflexivity.
Qed.

(* ================================================================= *)
(** ** C1: [is_fullmatch] and the language semantics *)

(** C1 (counterexample).  The expression [not(star(set({0})))], built with
    the public constructors, denotes the complement of [0*], which contains
    the string [1 1 1]; yet [is_fullmatch] answers [false] on it, since
    [not(None)] is [set(universe)] (the one-byte strings), not the set of
    all strings. *)
Lemma is_fullmatch_not_counterexample :
  built (re_not (re_star (re_set (point x00)))) /\
  is_fullmatch (re_not (re_star (re_set (point x00)))) [x01; x01; x01] = Some false /\
  lang (re_not (re_star (re_set (point x00)))) [x01; x01; x01].
Proof.
  split; [repeat constructor|]. split; [vm_compute; reflexivity|].
  assert (E : re_not (re_star (re_set (point x00))) = RNot (RStar (RSet 1)))
    by (vm_compute; reflexivity).
  rewrite E. cbn [lang]. intros H. apply star_cons in H.
  destruct H as (u & v & _ & (b & F & Hb) & _). injection F as <- _.
  vm_compute in Hb. discriminate.
Qed.

(** C1 (amended).  For every expression built with the public constructors
    other than [not] and every byte string [w], [is_fullmatch r w] does not
    panic, answers [true] exactly when [w] is in the language of [r], and
    equals [is_nullable] of the derivative of [r] along [w]. *)
Theorem is_fullmatch_lang (r : RegEx) (w : list byte) :
  built_nn r ->
  is_fullmatch r w <> None /\
  (is_fullmatch r w = Some true <-> lang r w) /\
  is_fullmatch r w = option_map is_nullable (deriv_sequence r w).
Proof.
  intros Hb. destruct (fullmatch_good r w (built_nn_good r Hb)) as (b & Hf & Hl).
  rewrite Hf. split; [discriminate|]. split.
  - rewrite <- Hl. split; [intros H; injection H; auto|intros ->; reflexivity].
  - rewrite <- Hf. apply fullmatch_deriv_sequence.
Qed.

Lemma is_fullmatch_lang_witness :
  built_nn (re_star (re_set (point x00))) /\
  (is_fullmatch (re_star (re_set (point x00))) [x00; x00] <> None /\
   (is_fullmatch (re_star (re_set (point x00))) [x00; x00] = Some true <->
    lang (re_star (re_set (point x00))) [x00; x00]) /\
   is_fullmatch (re_star (re_set (point x00))) [x00; x00] =
   option_map is_nullable (deriv_sequence (re_star (re_set (point x00))) [x00; x00])).
Proof.
  split; [repeat constructor|].
  apply is_fullmatch_lang. repeat constructor.
Defined.

(* ================================================================= *)
(** ** C2: canonical form of the constructors' results *)

(** C2 (code bug).  [and] of the canonical expressions
    [and(set({0}), star(set({0})))] and [set({1})] yields an [And] whose
    [Set] child holds the empty set: [merged_sets] re-inserts the reduced
    set with [RegEx::new(Operator::Set(..))], without the emptiness check of
    [RegEx::set], against the invariant "Set is not empty". *)
Theorem re_and_merged_empty_set :
  canonical (re_and (re_set (point x00)) (re_star (re_set (point x00)))) = true /\
  canonical (re_set (point x01)) = true /\
  re_and (re_and (re_set (point x00)) (re_star (re_set (point x00)))) (re_set (point x01))
    = RAnd [RSet bs_empty; RStar (RSet (point x00))] /\
  canonical (re_and (re_and (re_set (point x00)) (re_star (re_set (point x00))))
                    (re_set (point x01))) = false.
Proof. vm_compute. repeat split. Qed.

(* ================================================================= *)
(** ** Shape of [or] and [and] results *)


Lemma sets_of_length (l : list RegEx) : length (sets_of l) = length (filter is_set l).
Proof. induction l as [|x l IH]; [reflexivity|]. destruct x; simpl; auto. Qed.












(* ================================================================= *)
(** ** C6: idempotence of [or] and [and] *)



(* ================================================================= *)
(** ** C7: intersection with [universe*] *)









(* ================================================================= *)
(** ** Bits of [range] *)

Lemma div_eqb_window (n w i : Z) : 0 < w ->
  (n / w =? i) = (0 <=? n - w * i) && (n - w * i <? w).
Proof.
  intros Hw. pose proof (Z.div_mod n w ltac:(lia)) as E.
  pose proof (Z.mod_pos_bound n w Hw) as M.
  destruct (Z.eqb_spec (n / w) i) as [H|H].
  - subst i. symmetry. apply andb_true_iff. split; [apply Z.leb_le|apply Z.ltb_lt]; lia.
  - symmetry. apply not_true_iff_false. rewrite andb_true_iff, Z.leb_le, Z.ltb_lt.
    intros [H1 H2]. apply H.
    assert (n / w <= i \/ i < n / w) as [C|C] by lia.
    + assert (n / w < i -> False) by (intros; nia). lia.
    + nia.
Qed.

Lemma testbit_set_word_w (w s i x n : Z) : 0 < w -> 0 <= i -> 0 <= n ->
  Z.testbit (set_word_w w s i x) n =
  if n / w =? i then Z.testbit x (n mod w) else Z.testbit s n.
Proof.
  intros Hw Hi Hn. unfold set_word_w.
  rewrite Z.lor_spec, Z.land_spec, Z.lnot_spec, !Z.shiftl_spec by lia.
  rewrite Z.land_spec, !Z.testbit_ones by lia.
  rewrite div_eqb_window by lia.
  destruct (Z.leb_spec 0 (n - w * i)), (Z.ltb_spec (n - w * i) w); simpl;
    rewrite ?andb_true_r, ?andb_false_r, ?orb_false_r; try reflexivity.
  assert (Q : n / w = i) by (symmetry; apply (Z.div_unique _ _ _ (n - w * i)); lia).
  rewrite Z.mod_eq, Q by lia. reflexivity.
Qed.

Lemma first_word_bit (w k j : Z) : 0 <= k < w -> 0 <= j < w ->
  Z.testbit (Z.lxor (Z.shiftl 1 k - 1) (Z.ones w)) j = (k <=? j).
Proof.
  intros Hk Hj. rewrite Z.shiftl_1_l.
  replace (2 ^ k - 1) with (Z.ones k) by (rewrite Z.ones_equiv; lia).
  rewrite Z.lxor_spec, !Z.testbit_ones_nonneg by lia.
  destruct (Z.ltb_spec j k), (Z.ltb_spec j w), (Z.leb_spec k j); simpl; lia.
Qed.

Lemma last_word_bit (m j : Z) : 0 <= m -> 0 <= j ->
  Z.testbit (Z.lor (Z.shiftl 1 m) (Z.shiftl 1 m - 1)) j = (j <=? m).
Proof.
  intros Hm Hj. rewrite Z.shiftl_1_l.
  replace (2 ^ m - 1) with (Z.ones m) by (rewrite Z.ones_equiv; lia).
  rewrite Z.lor_spec, Z.pow2_bits_eqb, Z.testbit_ones_nonneg by lia.
  destruct (Z.eqb_spec m j), (Z.ltb_spec j m), (Z.leb_spec j m); simpl; lia.
Qed.

Lemma same_word_le (w x y : Z) : 0 < w -> x / w = y / w ->
  (x mod w <=? y mod w) = (x <=? y).
Proof.
  intros Hw E. pose proof (Z.div_mod x w ltac:(lia)). pose proof (Z.div_mod y w ltac:(lia)).
  destruct (Z.leb_spec (x mod w) (y mod w)), (Z.leb_spec x y); auto; nia.
Qed.

Lemma range_w_reversed_bits (w : Z) (a b : byte) (n : Z) :
  0 < w -> bval b < bval a -> 0 <= n ->
  Z.testbit (range_w w a b) n =
  negb (bval a / w =? bval b / w) &&
  ((n / w =? bval b / w) && (n <=? bval b) || (n / w =? bval a / w) && (bval a <=? n)).
Proof.
  intros Hw Hab Hn. pose proof (bval_range a). pose proof (bval_range b).
  assert (Hq : bval b / w <= bval a / w) by (apply Z.div_le_mono; lia).
  assert (Ha0 : 0 <= bval a / w) by (apply Z.div_pos; lia).
  assert (Hb0 : 0 <= bval b / w) by (apply Z.div_pos; lia).
  pose proof (Z.mod_pos_bound (bval a) w Hw). pose proof (Z.mod_pos_bound (bval b) w Hw).
  pose proof (Z.mod_pos_bound n w Hw).
  unfold range_w. cbv zeta.
  destruct (Z.eqb_spec (bval a / w) (bval b / w)) as [E|E]; simpl.
  - rewrite testbit_set_word_w, Z.testbit_0_l by lia.
    destruct (n / w =? bval a / w); [|reflexivity].
    rewrite Z.land_spec, first_word_bit, last_word_bit by lia.
    pose proof (Z.div_mod (bval a) w ltac:(lia)) as Da.
    pose proof (Z.div_mod (bval b) w ltac:(lia)) as Db. rewrite E in Da.
    destruct (Z.leb_spec (bval a mod w) (n mod w)),
             (Z.leb_spec (n mod w) (bval b mod w)); simpl; lia.
  - replace (Z.to_nat (bval b / w - (bval a / w + 1))) with O by lia. simpl.
    rewrite !testbit_set_word_w, Z.testbit_0_l by lia.
    destruct (Z.eqb_spec (n / w) (bval b / w)) as [Nb|Nb].
    + rewrite last_word_bit by lia. rewrite (same_word_le w n (bval b) Hw Nb).
      destruct (Z.eqb_spec (n / w) (bval a / w)); [lia|]. simpl.
      rewrite orb_false_r. reflexivity.
    + simpl. destruct (Z.eqb_spec (n / w) (bval a / w)) as [Na|Na]; [|reflexivity].
      rewrite first_word_bit by lia. simpl.
      apply (same_word_le w (bval a) n Hw). congruence.
Qed.

(* ================================================================= *)
(** ** C8: [range] with reversed bounds *)

(** C8 (counterexample).  [ByteSet::range(16, 3)] does not fail and is not
    empty: it is the union of [{0..3}] and [{16..23}]; [CharSet::range(40, 3)] is not empty
    either. *)
Lemma range_reversed_counterexample :
  is_empty (range "016"%byte "003"%byte) = false /\
  map bval (bytes (range "016"%byte "003"%byte)) =
    [0; 1; 2; 3; 16; 17; 18; 19; 20; 21; 22; 23] /\
  charset_range "040"%byte "003"%byte <> 0.
Proof. vm_compute. repeat split. discriminate. Qed.

(** C8 (amended).  [range(a, b)] with [a > b] checks nothing.  Its
    members are the bytes of [b]'s word up to [b] and the bytes of [a]'s
    word from [a] on, unless [a] and [b] share a word, in which case it is
    empty; for [ByteSet] the words have 8 bits, for [CharSet] 32. *)
Theorem range_reversed (a b x : byte) :
  bval b < bval a ->
  contains (range a b) x =
    negb (bval a / 8 =? bval b / 8) &&
    ((bval x / 8 =? bval b / 8) && (bval x <=? bval b) ||
     (bval x / 8 =? bval a / 8) && (bval a <=? bval x)) /\
  Z.testbit (charset_range a b) (bval x) =
    negb (bval a / 32 =? bval b / 32) &&
    ((bval x / 32 =? bval b / 32) && (bval x <=? bval b) ||
     (bval x / 32 =? bval a / 32) && (bval a <=? bval x)).
Proof.
  intros H. pose proof (bval_range x). split.
  - rewrite contains_testbit. apply range_w_reversed_bits; lia.
  - apply range_w_reversed_bits; lia.
Qed.

Lemma range_reversed_witness :
  bval "003"%byte < bval "016"%byte /\
  (contains (range "016"%byte "003"%byte) "000"%byte =
     negb (bval "016"%byte / 8 =? bval "003"%byte / 8) &&
     ((bval "000"%byte / 8 =? bval "003"%byte / 8) && (bval "000"%byte <=? bval "003"%byte) ||
      (bval "000"%byte / 8 =? bval "016"%byte / 8) && (bval "016"%byte <=? bval "000"%byte)) /\
   Z.testbit (charset_range "016"%byte "003"%byte) (bval "000"%byte) =
     negb (bval "016"%byte / 32 =? bval "003"%byte / 32) &&
     ((bval "000"%byte / 32 =? bval "003"%byte / 32) && (bval "000"%byte <=? bval "003"%byte) ||
      (bval "000"%byte / 32 =? bval "016"%byte / 32) && (bval "016"%byte <=? bval "000"%byte))).
Proof.
  split; [vm_compute; reflexivity|].
  apply range_reversed. vm_compute. reflexivity.
Defined.

(* ================================================================= *)
(** ** Approximate derivative classes *)

(** C5 (code bug).  [ByteSet::is_universe] returns [true] for every set
    whose 32 words are all non-zero, e.g. [{0, 8, 16, ..., 248}].  For the
    canonical [Set] node of that set [approx_deriv_classes] skips the split
    and returns the single block [{universe}], although the derivatives by
    the bytes [0] and [1] of that block differ. *)
Theorem approx_deriv_classes_every_eighth :
  let s := fold_left (fun acc k => union acc (Z.shiftl 1 (8 * k)))
             (map Z.of_nat (seq 0 32)) bs_empty in
  canonical (RSet s) = true /\
  map bval (bytes s) = map (fun k => 8 * Z.of_nat k) (seq 0 32) /\
  is_universe s = true /\
  approx_deriv_classes (RSet s) = Some [bs_universe] /\
  deriv (RSet s) "000"%byte = Some REpsilon /\
  deriv (RSet s) "001"%byte = Some RNone.
Proof. vm_compute. repeat split. Qed.

(* ================================================================= *)
(** ** The DFA of [RegEx::none()] *)

(** C9.  In [DFA::from(&RegEx::none())] the start vector [[None]] is the
    sink vector: [add_state] overwrites its [re2idx] entry with [1], so the
    state [1] sends every byte to itself.  Both states are non-accepting,
    [minimize] keeps one block [{0, 1}] and returns a DFA with the sink
    alone, and [matches] on it indexes the missing state [1] for every
    input, the empty one included. *)
Theorem minimize_none_panics :
  re2idx (fst (add_state (mkBuilder [state_sink] [(regexvec_sink 1, 0%nat)]) [re_none]))
    = [([RNone], 1%nat)] /\
  exists d, (forall fuel, dfa_from (S fuel) re_none = Some d) /\
    map class d = [None; None] /\
    (forall a, dfa_step d 1 a = Some 1%nat) /\
    equivalence_classes d = Some [[0; 1]%nat] /\
    exists m, minimize d = Some m /\ length m = 1%nat /\
      forall w, matches m w = None.
Proof.
  split; [reflexivity|].
  let d := eval vm_compute in (dfa_from 1 re_none) in
  match d with Some ?d => exists d end.
  split; [intros fuel; vm_compute; reflexivity|].
  split; [reflexivity|].
  split; [intros a; destruct a; vm_compute; reflexivity|].
  split; [vm_compute; reflexivity|].
  eexists. split; [vm_compute; reflexivity|].
  split; [reflexivity|].
  intros [|b w]; reflexivity.
Qed.

(* ================================================================= *)
(** ** The scanner *)

Lemma lt_run_app (T : LexTable) (s : nat) (u v : list byte) :
  lt_run T s (u ++ v) = lt_run T (lt_run T s u) v.
Proof.
  revert s. induction u as [|b u IH]; intros s; simpl; [reflexivity|].
  destruct (Nat.eqb s (lt_sink T)) eqn:E; [|apply IH].
  apply Nat.eqb_eq in E. subst. destruct v; simpl; [reflexivity|].
  rewrite Nat.eqb_refl. reflexivity.
Qed.

Lemma lt_run_sink (T : LexTable) (v : list byte) : lt_run T (lt_sink T) v = lt_sink T.
Proof. destruct v; simpl; [|rewrite Nat.eqb_refl]; reflexivity. Qed.

(** What the simulation loop computes: it stops after [k] bytes, at the
    sink or at the end of input, and remembers the last accepting state it
    left (or keeps the initial pair when it left none). *)
Lemma simulate_spec (T : LexTable) (w : list byte) :
  forall s i las lai,
  let '(s', i', las', lai') := simulate T w s i las lai in
  exists k, (k <= length w)%nat /\ i' = i + Z.of_nat k /\
    s' = lt_run T s (firstn k w) /\ (s' = lt_sink T \/ k = length w) /\
    (forall m, (k <= m)%nat -> lt_run T s (firstn m w) = s') /\
    ((las' = las /\ lai' = lai /\
      forall m, (m < k)%nat -> lt_class T (lt_run T s (firstn m w)) = None) \/
     (exists j, (j < k)%nat /\ las' = lt_run T s (firstn j w) /\ lai' = i + Z.of_nat j /\
      lt_class T las' <> None /\
      forall m, (j < m < k)%nat -> lt_class T (lt_run T s (firstn m w)) = None)).
Proof.
  induction w as [|b rest IH]; intros s i las lai; simpl.
  - exists 0%nat. split; [lia|]. split; [lia|]. split; [reflexivity|].
    split; [right; reflexivity|]. split; [intros m _; destruct m; reflexivity|].
    left. split; [reflexivity|]. split; [reflexivity|]. intros m Hm. lia.
  - destruct (Nat.eqb s (lt_sink T)) eqn:Es.
    + apply Nat.eqb_eq in Es. exists 0%nat.
      split; [lia|]. split; [lia|]. split; [reflexivity|]. split; [left; exact Es|].
      split; [intros [|m] _; simpl; [reflexivity|]; rewrite Es, Nat.eqb_refl; reflexivity|].
      left. split; [reflexivity|]. split; [reflexivity|]. intros m Hm. lia.
    + destruct (lt_class T s) as [c|] eqn:Ec.
      * specialize (IH (lt_step T s b) (i + 1) s i).
        destruct (simulate T rest (lt_step T s b) (i + 1) s i) as [[[s' i'] las'] lai'].
        destruct IH as (k & Hk & Hi & Hs & Hend & Hafter & Hrec).
        exists (S k). split; [lia|]. split; [lia|].
        split; [simpl; rewrite Es; exact Hs|].
        split; [destruct Hend; [left|right]; auto|].
        split.
        { intros [|m] Hm; [lia|]. simpl. rewrite Es. apply Hafter. lia. }
        right. destruct Hrec as [(-> & -> & Hnone) | (j & Hj & -> & -> & Hc & Hnone)].
        -- exists 0%nat. split; [lia|]. split; [reflexivity|]. split; [lia|].
           split; [simpl; rewrite Ec; discriminate|].
           intros [|m] Hm; [lia|]. simpl. rewrite Es. apply Hnone. lia.
        -- exists (S j). split; [lia|]. split; [simpl; rewrite Es; reflexivity|].
           split; [lia|]. split; [exact Hc|].
           intros [|m] Hm; [lia|]. simpl. rewrite Es. apply Hnone. lia.
      * specialize (IH (lt_step T s b) (i + 1) las lai).
        destruct (simulate T rest (lt_step T s b) (i + 1) las lai) as [[[s' i'] las'] lai'].
        destruct IH as (k & Hk & Hi & Hs & Hend & Hafter & Hrec).
        exists (S k). split; [lia|]. split; [lia|].
        split; [simpl; rewrite Es; exact Hs|].
        split; [destruct Hend; [left|right]; auto|].
        split.
        { intros [|m] Hm; [lia|]. simpl. rewrite Es. apply Hafter. lia. }
        destruct Hrec as [(-> & -> & Hnone) | (j & Hj & -> & -> & Hc & Hnone)].
        -- left. repeat split. intros [|m] Hm; [exact Ec|]. simpl. rewrite Es.
           apply Hnone. lia.
        -- right. exists (S j). split; [lia|]. split; [simpl; rewrite Es; reflexivity|].
           split; [lia|]. split; [exact Hc|].
           intros [|m] Hm; [lia|]. simpl. rewrite Es. apply Hnone. lia.
Qed.

(** One pass of the loop body from a position [p] inside the input, for a
    table whose start state and sink are not accepting: a longest-match
    token starting at [p], or an error at [p] where nothing is accepted. *)
Lemma attempt_spec (T : LexTable) (input : list byte) (p : Z) :
  lt_class T START_STATE = None -> lt_class T (lt_sink T) = None ->
  0 <= p < Z.of_nat (length input) ->
  match attempt T input p with
  | (AError e, q) =>
      e = p /\ q = usize_max /\
      forall q', p < q' <= Z.of_nat (length input) -> accepts T input p q' = None
  | (AEmit t, q) | (ASkip t, q) =>
      span_start t = p /\ span_end t = q /\ longest_match T input (tok_class t) p q
  end.
Proof.
  intros Hstart Hsink Hp. unfold attempt.
  set (w := skipn (Z.to_nat p) input).
  assert (Hw : length w = (length input - Z.to_nat p)%nat) by (apply length_skipn).
  pose proof (simulate_spec T w START_STATE p (lt_sink T) 0) as Hsim.
  destruct (simulate T w START_STATE p (lt_sink T) 0) as [[[s' i'] las'] lai'].
  destruct Hsim as (k & Hk & Hi & Hs & Hend & Hafter & Hrec).
  assert (Hacc : forall m, accepts T input p (p + Z.of_nat m) =
                           lt_class T (lt_run T START_STATE (firstn m w))).
  { intros m. unfold accepts, slice. f_equal. f_equal. f_equal. lia. }
  assert (Hq : forall q', p < q' -> q' = p + Z.of_nat (Z.to_nat (q' - p))) by (intros; lia).
  destruct (lt_class T s') as [c|] eqn:Ec.
  - assert (Hk' : k = length w).
    { destruct Hend as [Hs'|]; [|assumption]. rewrite Hs' in Ec. congruence. }
    assert (Hlen : i' = Z.of_nat (length input)) by lia.
    unfold command_attempt. simpl.
    destruct (lt_command T c); simpl; (split; [reflexivity|]); (split; [reflexivity|]);
      (split; [lia|]);
      (split; [replace i' with (p + Z.of_nat k) by lia; rewrite Hacc, <- Hs; exact Ec|]);
      intros q' Hq'; lia.
  - destruct (lt_class T las') as [c|] eqn:Ec2.
    + destruct Hrec as [(-> & _ & _) | (j & Hj & Hlas & Hlai & Hc & Hnone)];
        [congruence|].
      assert (Hj0 : j <> 0%nat).
      { intros ->. rewrite Hlas in Ec2. simpl in Ec2. congruence. }
      assert (Hacc_j : accepts T input p lai' = Some c).
      { rewrite Hlai, Hacc, <- Hlas. exact Ec2. }
      unfold command_attempt. simpl.
      destruct (lt_command T c); simpl; (split; [reflexivity|]); (split; [reflexivity|]);
        (split; [lia|]); (split; [exact Hacc_j|]);
        intros q' Hq'; rewrite (Hq q') by lia; rewrite Hacc;
        (destruct (Nat.lt_ge_cases (Z.to_nat (q' - p)) k) as [Hlt|Hge];
         [apply Hnone; lia | rewrite Hafter by exact Hge; exact Ec]).
    + split; [reflexivity|]. split; [reflexivity|].
      intros q' Hq'. rewrite (Hq q') by lia. rewrite Hacc.
      destruct Hrec as [(_ & _ & Hnone) | (j & _ & _ & _ & Hc & _)]; [|congruence].
      destruct (Nat.lt_ge_cases (Z.to_nat (q' - p)) k) as [Hlt|Hge];
        [apply Hnone; exact Hlt | rewrite Hafter by exact Hge; exact Ec].
Qed.

Lemma firstn_repeat_le {A} (x : A) (k n : nat) :
  (k <= n)%nat -> firstn k (repeat x n) = repeat x k.
Proof.
  revert n. induction k as [|k IH]; intros n Hk; [reflexivity|].
  destruct n as [|n]; [lia|]. simpl. f_equal. apply IH. lia.
Qed.

Lemma firstn_app_repeat {A} (L : list A) (x : A) (k n : nat) :
  (k <= n)%nat -> firstn k (L ++ repeat x n) = firstn k (L ++ repeat x k).
Proof.
  revert L n. induction k as [|k IH]; intros L n Hk; [reflexivity|].
  destruct L as [|y L].
  - rewrite !app_nil_l, !firstn_repeat_le by lia. reflexivity.
  - simpl. f_equal. rewrite (IH L n) by lia. symmetry. apply (IH L (S k)). lia.
Qed.

Section Scanner.
Variable T : LexTable.
Variable input : list byte.
Hypothesis Hstart : lt_class T START_STATE = None.
Hypothesis Hsink : lt_class T (lt_sink T) = None.
Hypothesis Hmax : Z.of_nat (length input) <= usize_max.

Let len := Z.of_nat (length input).

Lemma attempts_tiles (f : nat) :
  forall p, 0 <= p <= len -> (Z.to_nat (len - p) < f)%nat ->
  tiles T input p (attempts f T input p).
Proof.
  induction f as [|f IH]; intros p Hp Hf; [lia|].
  simpl. destruct (p <? Z.of_nat (length input)) eqn:Ep.
  - apply Z.ltb_lt in Ep.
    pose proof (attempt_spec T input p Hstart Hsink (conj (proj1 Hp) Ep)) as Hs.
    destruct (attempt T input p) as [[t|t|e] q]; simpl.
    + destruct Hs as (H1 & H2 & H3). split; [exact H1|]. rewrite H2.
      split; [exact H3|]. destruct H3 as (Hpq & _). apply IH; unfold len in *; lia.
    + destruct Hs as (H1 & H2 & H3). split; [exact H1|]. rewrite H2.
      split; [exact H3|]. destruct H3 as (Hpq & _). apply IH; unfold len in *; lia.
    + destruct Hs as (H1 & H2 & H3). split; [exact H1|].
      split; [|split; [exact Ep | exact H3]].
      subst q. destruct f; simpl; [reflexivity|].
      replace (usize_max <? Z.of_nat (length input)) with false
        by (symmetry; apply Z.ltb_ge; exact Hmax).
      reflexivity.
  - apply Z.ltb_ge in Ep. simpl. unfold len in *. lia.
Qed.

Lemma scan_next_fuel (f : nat) :
  forall f' p, 0 <= p -> (Z.to_nat (len - p) < f)%nat -> (Z.to_nat (len - p) < f')%nat ->
  scan_next f T input p = scan_next f' T input p.
Proof.
  induction f as [|f IH]; intros f' p Hp Hf Hf'; [lia|].
  destruct f' as [|f']; [lia|]. simpl.
  destruct (p <? Z.of_nat (length input)) eqn:Ep; [|reflexivity].
  apply Z.ltb_lt in Ep.
  pose proof (attempt_spec T input p Hstart Hsink (conj Hp Ep)) as Hs.
  destruct (attempt T input p) as [[t|t|e] q]; [reflexivity| |reflexivity].
  destruct Hs as (_ & H2 & H3 & _). apply IH; unfold len in *; lia.
Qed.

Lemma scan_calls_end (k : nat) :
  forall p, len <= p -> scan_calls k T input p = Some (repeat None k).
Proof.
  induction k as [|k IH]; intros p Hp; [reflexivity|]. simpl.
  replace (p <? Z.of_nat (length input)) with false
    by (symmetry; apply Z.ltb_ge; exact Hp).
  rewrite (IH p Hp). reflexivity.
Qed.

Lemma attempts_end (f : nat) (p : Z) : len <= p -> attempts f T input p = [].
Proof.
  intros Hp. destruct f; simpl; [reflexivity|].
  replace (p <? Z.of_nat (length input)) with false
    by (symmetry; apply Z.ltb_ge; exact Hp).
  reflexivity.
Qed.

(** The calls of [next] from [p] yield the items of the passes from [p],
    then [None] for ever. *)
Lemma scan_calls_attempts (n : nat) :
  forall p, 0 <= p -> (Z.to_nat (len - p) <= n)%nat ->
  forall f, (Z.to_nat (len - p) < f)%nat ->
  forall k, scan_calls k T input p =
            Some (firstn k (map Some (emitted (attempts f T input p)) ++ repeat None k)).
Proof.
  induction n as [|n IH]; intros p Hp Hn f Hf k;
    (destruct (Z_lt_le_dec p len) as [Hlt|Hge];
     [|rewrite scan_calls_end, attempts_end by exact Hge; simpl;
       rewrite firstn_all2 by (rewrite repeat_length; lia); reflexivity]).
  - unfold len in *. lia.
  - destruct f as [|f]; [lia|].
    pose proof (attempt_spec T input p Hstart Hsink (conj Hp Hlt)) as Hs.
    assert (Ep : (p <? Z.of_nat (length input)) = true) by (apply Z.ltb_lt; exact Hlt).
    destruct k as [|k]; [reflexivity|].
    simpl scan_calls. simpl attempts. rewrite Ep.
    destruct (attempt T input p) as [[t|t|e] q] eqn:Ea.
    + destruct Hs as (_ & H2 & H3 & _).
      rewrite (IH q) with (f := f) by (unfold len in *; lia). simpl.
      f_equal. f_equal. symmetry. apply (firstn_app_repeat _ None k (S k)). lia.
    + destruct Hs as (_ & H2 & H3 & _).
      rewrite (scan_next_fuel (length input) (S (length input))) by (unfold len in *; lia).
      change (match scan_next (S (length input)) T input q with
              | Some (it, index') => option_map (cons it) (scan_calls k T input index')
              | None => None end) with (scan_calls (S k) T input q).
      rewrite (IH q) with (f := f) by (unfold len in *; lia). reflexivity.
    + destruct Hs as (-> & -> & _).
      rewrite scan_calls_end by exact Hmax. rewrite attempts_end by exact Hmax. simpl.
      f_equal. f_equal. symmetry. apply (firstn_repeat_le None k (S k)). lia.
Qed.

End Scanner.

Lemma tiles_emitted (T : LexTable) (input : list byte) (tr : list Attempt) :
  forall p, tiles T input p tr ->
  (length (emitted tr) <= Z.to_nat (Z.of_nat (length input) - p))%nat /\
  (forall t, In (Ok t) (emitted tr) -> span_start t < span_end t) /\
  (forall j e, nth_error (emitted tr) j = Some (Err e) -> S j = length (emitted tr)).
Proof.
  induction tr as [|a tr IH]; intros p Ht.
  - simpl. split; [lia|]. split; [intros _ []|]. intros [|j] e H; discriminate.
  - destruct a as [t|t|e]; simpl in Ht |- *.
    + destruct Ht as (H1 & (Hpq & _) & Ht). destruct (IH _ Ht) as (L1 & L2 & L3).
      split; [lia|]. split.
      * intros u [Hu|Hu]; [injection Hu as <-; lia | exact (L2 u Hu)].
      * intros [|j] e' H; simpl in H; [discriminate|]. simpl. f_equal. exact (L3 j e' H).
    + destruct Ht as (H1 & (Hpq & _) & Ht). destruct (IH _ Ht) as (L1 & L2 & L3).
      split; [lia|]. split; [exact L2|exact L3].
    + destruct Ht as (-> & -> & Hp & _). simpl. split; [lia|]. split.
      * intros u [Hu|[]]. discriminate.
      * intros [|j] e' H; simpl in H; [reflexivity|]. destruct j; discriminate.
Qed.

(** C4 (amended).  For a table whose start state and sink are not
    accepting, the passes of [Scan] over an input (emitted and skipped
    tokens, and a final error if any) tile the input from position [0]:
    each token is the longest non-empty prefix the table accepts at its
    start, an error sits where no non-empty prefix is accepted and ends the
    sequence, and without error the tokens reach the end of the input.  The
    calls of [next] yield the emitted tokens and the error of these passes,
    then [None]. *)
Theorem scan_longest_match (T : LexTable) (input : list byte) :
  lt_class T START_STATE = None -> lt_class T (lt_sink T) = None ->
  Z.of_nat (length input) <= usize_max ->
  tiles T input 0 (attempts (S (length input)) T input 0) /\
  forall k, scan_calls k T input 0 =
    Some (firstn k (map Some (emitted (attempts (S (length input)) T input 0))
                    ++ repeat None k)).
Proof.
  intros Hstart Hsink Hmax. split.
  - apply attempts_tiles; try assumption; lia.
  - intros k. apply (scan_calls_attempts T input Hstart Hsink Hmax (length input)); lia.
Qed.

(** C10.  For a table whose start state and sink are not accepting, every
    pass of the loop of [next] from a position inside the input yields a
    non-empty token starting there and moves [self.index] to its end, or an
    error there and moves [self.index] past the input; the calls of [next]
    yield finitely many items (at most one per byte), every token non-empty
    and an error only as the last item, then [None] for ever. *)
Theorem scan_progress (T : LexTable) (input : list byte) :
  lt_class T START_STATE = None -> lt_class T (lt_sink T) = None ->
  Z.of_nat (length input) <= usize_max ->
  (forall p, 0 <= p < Z.of_nat (length input) ->
     match attempt T input p with
     | (AError e, q) => e = p /\ q = usize_max
     | (AEmit t, q) | (ASkip t, q) => span_start t = p /\ span_end t = q /\ p < q
     end) /\
  exists items, (length items <= length input)%nat /\
    (forall k, scan_calls k T input 0 = Some (firstn k (map Some items ++ repeat None k))) /\
    (forall t, In (Ok t) items -> span_start t < span_end t) /\
    (forall j e, nth_error items j = Some (Err e) -> S j = length items).
Proof.
  intros Hstart Hsink Hmax. split.
  - intros p Hp. pose proof (attempt_spec T input p Hstart Hsink Hp) as Hs.
    destruct (attempt T input p) as [[t|t|e] q];
      [destruct Hs as (H1 & H2 & H3 & _) .. | destruct Hs as (H1 & H2 & _)];
      auto; lia.
  - exists (emitted (attempts (S (length input)) T input 0)).
    assert (Ht : tiles T input 0 (attempts (S (length input)) T input 0))
      by (apply attempts_tiles; try assumption; lia).
    destruct (tiles_emitted T input _ 0 Ht) as (L1 & L2 & L3).
    split; [lia|]. split; [|split; assumption].
    intros k. apply (scan_calls_attempts T input Hstart Hsink Hmax (length input)); lia.
Qed.

(** C4 (counterexample).  A table whose start state [0] accepts (class [0])
    and whose every step leads to the sink [1]: on the input ["a"] every
    call of [next] returns the empty token [0..0] and leaves [self.index]
    at [0], so the items never cover the input; with the command [Skip]
    the first call of [next] never returns. *)
Lemma scan_accepting_start_counterexample :
  (forall k, scan_calls k
     (mkLexTable (fun _ _ => 1%nat) (fun s => if Nat.eqb s 0 then Some 0%nat else None)
                 1 (fun _ => Emit)) ["a"%byte] 0
   = Some (repeat (Some (Ok (mkToken 0 0 0))) k)) /\
  (forall f, scan_next f
     (mkLexTable (fun _ _ => 1%nat) (fun s => if Nat.eqb s 0 then Some 0%nat else None)
                 1 (fun _ => Skip)) ["a"%byte] 0 = None).
Proof.
  split.
  - induction k as [|k IH]; [reflexivity|]. simpl. rewrite IH. reflexivity.
  - induction f as [|f IH]; [reflexivity|]. simpl. exact IH.
Qed.

Lemma scan_longest_match_witness :
  let T := mkLexTable
    (fun s b => if Nat.eqb s 2 then 2%nat else if Byte.eqb b "a"%byte then 1%nat else 2%nat)
    (fun s => if Nat.eqb s 1 then Some 0%nat else None) 2 (fun _ => Emit) in
  let input := ["a"%byte; "a"%byte; "b"%byte] in
  lt_class T START_STATE = None /\ lt_class T (lt_sink T) = None /\
  Z.of_nat (length input) <= usize_max /\
  emitted (attempts (S (length input)) T input 0) = [Ok (mkToken 0 0 2); Err 2] /\
  tiles T input 0 (attempts (S (length input)) T input 0) /\
  forall k, scan_calls k T input 0 =
    Some (firstn k (map Some (emitted (attempts (S (length input)) T input 0))
                    ++ repeat None k)).
Proof.
  intros T input.
  split; [reflexivity|]. split; [reflexivity|]. split; [vm_compute; discriminate|].
  split; [vm_compute; reflexivity|].
  apply scan_longest_match; [reflexivity | reflexivity | vm_compute; discriminate].
Defined.

Lemma scan_progress_witness :
  let T := mkLexTable
    (fun s b => if Nat.eqb s 2 then 2%nat else if Byte.eqb b "a"%byte then 1%nat else 2%nat)
    (fun s => if Nat.eqb s 1 then Some 0%nat else None) 2 (fun _ => Emit) in
  let input := ["a"%byte; "a"%byte; "b"%byte] in
  lt_class T START_STATE = None /\ lt_class T (lt_sink T) = None /\
  Z.of_nat (length input) <= usize_max /\
  ((forall p, 0 <= p < Z.of_nat (length input) ->
     match attempt T input p with
     | (AError e, q) => e = p /\ q = usize_max
     | (AEmit t, q) | (ASkip t, q) => span_start t = p /\ span_end t = q /\ p < q
     end) /\
   exists items, (length items <= length input)%nat /\
    (forall k, scan_calls k T input 0 = Some (firstn k (map Some items ++ repeat None k))) /\
    (forall t, In (Ok t) items -> span_start t < span_end t) /\
    (forall j e, nth_error items j = Some (Err e) -> S j = length items)).
Proof.
  intros T input.
  split; [reflexivity|]. split; [reflexivity|]. split; [vm_compute; discriminate|].
  apply scan_progress; [reflexivity | reflexivity | vm_compute; discriminate].
Defined.

(* ================================================================= *)
(** ** Sorted sets of state indices *)

Lemma ids_mem_In (x : nat) (s : Ids) : ids_mem x s = true <-> In x s.
Proof.
  unfold ids_mem. rewrite existsb_exists. split.
  - intros (y & Hy & E). apply Nat.eqb_eq in E. subst. exact Hy.
  - intros H. exists x. split; [exact H | apply Nat.eqb_refl].
Qed.

Lemma ids_insert_In (x y : nat) (s : Ids) : In y (ids_insert x s) <-> y = x \/ In y s.
Proof.
  induction s as [|z s IH]; simpl; [intuition congruence|].
  destruct (Nat.compare x z) eqn:E; simpl.
  - apply Nat.compare_eq in E. subst. intuition congruence.
  - intuition congruence.
  - rewrite IH. intuition congruence.
Qed.

Lemma ids_insert_sorted (x : nat) (s : Ids) :
  StronglySorted lt s -> StronglySorted lt (ids_insert x s).
Proof.
  induction s as [|z s IH]; intros Hs; simpl.
  - repeat constructor.
  - inversion Hs as [|? ? Hs' Hf]; subst.
    destruct (Nat.compare x z) eqn:E.
    + exact Hs.
    + apply Nat.compare_lt_iff in E. constructor; [exact Hs|].
      constructor; [exact E|]. eapply Forall_impl; [|exact Hf]. intros a Ha. simpl in Ha. lia.
    + apply Nat.compare_gt_iff in E. constructor; [apply IH; exact Hs'|].
      apply Forall_forall. intros a Ha. apply ids_insert_In in Ha.
      destruct Ha as [->|Ha]; [lia|]. rewrite Forall_forall in Hf. apply Hf. exact Ha.
Qed.

Lemma ids_union_In (x : nat) (t s : Ids) :
  In x (ids_union s t) <-> In x s \/ In x t.
Proof.
  unfold ids_union. revert s. induction t as [|y t IH]; intros s; simpl; [intuition congruence|].
  rewrite IH, ids_insert_In. intuition congruence.
Qed.

Lemma ids_compare_eq (a b : Ids) : ids_compare a b = Eq <-> a = b.
Proof.
  revert b. induction a as [|x a IH]; intros [|y b]; simpl; try (split; congruence).
  destruct (Nat.compare x y) eqn:E.
  - apply Nat.compare_eq in E. subst. rewrite IH. split; congruence.
  - split; [discriminate|]. intros H. injection H as -> ->. rewrite Nat.compare_refl in E.
    discriminate.
  - split; [discriminate|]. intros H. injection H as -> ->. rewrite Nat.compare_refl in E.
    discriminate.
Qed.

Lemma ids_eqb_eq (a b : Ids) : ids_eqb a b = true <-> a = b.
Proof.
  unfold ids_eqb. rewrite <- ids_compare_eq.
  destruct (ids_compare a b); split; congruence.
Qed.

Lemma ids_compare_antisym (a b : Ids) : ids_compare b a = CompOpp (ids_compare a b).
Proof.
  revert b. induction a as [|x a IH]; intros [|y b]; simpl; try reflexivity.
  rewrite (Nat.compare_antisym x y). destruct (Nat.compare x y); simpl; auto.
Qed.

Lemma ids_lt_trans (a b c : Ids) : ids_lt a b -> ids_lt b c -> ids_lt a c.
Proof.
  unfold ids_lt. revert b c. induction a as [|x a IH]; intros [|y b] [|z c]; simpl;
    try congruence.
  destruct (Nat.compare x y) eqn:E1; destruct (Nat.compare y z) eqn:E2;
    try congruence; intros H1 H2.
  - apply Nat.compare_eq in E1. apply Nat.compare_eq in E2. subst.
    rewrite Nat.compare_refl. apply (IH b c H1 H2).
  - apply Nat.compare_eq in E1. subst. rewrite E2. reflexivity.
  - apply Nat.compare_eq in E2. subst. rewrite E1. reflexivity.
  - apply Nat.compare_lt_iff in E1. apply Nat.compare_lt_iff in E2.
    replace (Nat.compare x z) with Lt by (symmetry; apply Nat.compare_lt_iff; lia).
    reflexivity.
Qed.

Lemma ids_lt_irrefl (a : Ids) : ~ ids_lt a a.
Proof.
  unfold ids_lt. intros H. assert (ids_compare a a = Eq) by (apply ids_compare_eq; reflexivity).
  congruence.
Qed.

Lemma ids_lt_head (x y : nat) (a b : Ids) : ids_lt (x :: a) (y :: b) -> (x <= y)%nat.
Proof.
  unfold ids_lt. simpl. destruct (Nat.compare x y) eqn:E; intros H.
  - apply Nat.compare_eq in E. lia.
  - apply Nat.compare_lt_iff in E. lia.
  - discriminate.
Qed.

Lemma pset_insert_In (x B : Ids) (P : list Ids) :
  In B (pset_insert x P) <-> B = x \/ In B P.
Proof.
  induction P as [|y P IH]; simpl; [intuition congruence|].
  destruct (ids_compare x y) eqn:E; simpl.
  - apply ids_compare_eq in E. subst. intuition congruence.
  - intuition congruence.
  - rewrite IH. intuition congruence.
Qed.

Lemma pset_insert_sorted (x : Ids) (P : list Ids) :
  StronglySorted ids_lt P -> StronglySorted ids_lt (pset_insert x P).
Proof.
  induction P as [|y P IH]; intros Hs; simpl.
  - repeat constructor.
  - inversion Hs as [|? ? Hs' Hf]; subst.
    destruct (ids_compare x y) eqn:E.
    + exact Hs.
    + constructor; [exact Hs|]. constructor; [exact E|].
      eapply Forall_impl; [|exact Hf]. intros a Ha. eapply ids_lt_trans; eassumption.
    + constructor; [apply IH; exact Hs'|].
      apply Forall_forall. intros a Ha. apply pset_insert_In in Ha.
      destruct Ha as [->|Ha].
      * unfold ids_lt. rewrite ids_compare_antisym, E. reflexivity.
      * rewrite Forall_forall in Hf. apply Hf. exact Ha.
Qed.

Lemma pset_insert_length (x : Ids) (P : list Ids) :
  ~ In x P -> length (pset_insert x P) = S (length P).
Proof.
  induction P as [|y P IH]; intros Hn; simpl; [reflexivity|].
  destruct (ids_compare x y) eqn:E; simpl.
  - apply ids_compare_eq in E. subst. exfalso. apply Hn. left. reflexivity.
  - reflexivity.
  - rewrite IH; [reflexivity|]. intros H. apply Hn. right. exact H.
Qed.

Lemma pset_insert_length_le (x : Ids) (P : list Ids) :
  (length (pset_insert x P) <= S (length P))%nat.
Proof.
  induction P as [|y P IH]; simpl; [lia|].
  destruct (ids_compare x y); simpl; lia.
Qed.

Lemma pset_remove_In (x B : Ids) (P : list Ids) :
  In B (pset_remove x P) <-> In B P /\ B <> x.
Proof.
  unfold pset_remove. rewrite filter_In. rewrite negb_true_iff.
  split.
  - intros [H E]. split; [exact H|]. intros ->.
    assert (ids_eqb x x = true) by (apply ids_eqb_eq; reflexivity). congruence.
  - intros [H E]. split; [exact H|]. destruct (ids_eqb x B) eqn:F; [|reflexivity].
    apply ids_eqb_eq in F. congruence.
Qed.

Lemma pset_mem_In (x : Ids) (P : list Ids) : pset_mem x P = true <-> In x P.
Proof.
  unfold pset_mem. rewrite existsb_exists. split.
  - intros (y & Hy & E). apply ids_eqb_eq in E. subst. exact Hy.
  - intros H. exists x. split; [exact H | apply ids_eqb_eq; reflexivity].
Qed.

Lemma StronglySorted_filter {A} (R : A -> A -> Prop) (f : A -> bool) (l : list A) :
  StronglySorted R l -> StronglySorted R (filter f l).
Proof.
  induction l as [|a l IH]; intros H; simpl; [constructor|].
  inversion H as [|? ? Hs Hf]; subst.
  destruct (f a); [|apply IH; exact Hs].
  constructor; [apply IH; exact Hs|].
  rewrite Forall_forall in *. intros y Hy. apply filter_In in Hy. apply Hf. apply Hy.
Qed.

Lemma pset_remove_sorted (x : Ids) (P : list Ids) :
  StronglySorted ids_lt P -> StronglySorted ids_lt (pset_remove x P).
Proof. apply StronglySorted_filter. Qed.

Lemma sorted_NoDup (P : list Ids) : StronglySorted ids_lt P -> NoDup P.
Proof.
  induction P as [|a P IH]; intros H; constructor.
  - inversion H as [|? ? Hs Hf]; subst. rewrite Forall_forall in Hf.
    intros Ha. apply (ids_lt_irrefl a). apply Hf. exact Ha.
  - apply IH. inversion H; assumption.
Qed.

Lemma pset_remove_length (x : Ids) (P : list Ids) :
  NoDup P -> In x P -> S (length (pset_remove x P)) = length P.
Proof.
  induction P as [|y P IH]; intros Hd Hx; [destruct Hx|].
  inversion Hd as [|? ? Hy Hd']; subst. unfold pset_remove. simpl.
  destruct (ids_eqb x y) eqn:E; simpl.
  - apply ids_eqb_eq in E. subst. f_equal.
    rewrite (forallb_filter_id _ P); [reflexivity|].
    apply forallb_forall. intros z Hz. apply negb_true_iff.
    destruct (ids_eqb y z) eqn:F; [|reflexivity]. apply ids_eqb_eq in F. subst. contradiction.
  - destruct Hx as [->|Hx].
    + assert (ids_eqb x x = true) by (apply ids_eqb_eq; reflexivity). congruence.
    + f_equal. apply IH; assumption.
Qed.

Lemma pset_remove_length_le (x : Ids) (P : list Ids) :
  (length (pset_remove x P) <= length P)%nat.
Proof. unfold pset_remove. apply filter_length_le. Qed.

Lemma byte_eqb_iff (a b : byte) : Byte.eqb a b = true <-> a = b.
Proof. split; [apply Byte.byte_dec_bl | apply Byte.byte_dec_lb]. Qed.

Lemma byte_eqb_refl (a : byte) : Byte.eqb a a = true.
Proof. apply byte_eqb_iff. reflexivity. Qed.

(* ================================================================= *)
(** ** Stability and the generated sets *)

Definition refines (P' P : list Ids) : Prop :=
  forall B', In B' P' -> exists B, In B P /\ forall x, In x B' -> In x B.

Lemma refines_refl (P : list Ids) : refines P P.
Proof. intros B HB. exists B. split; auto. Qed.

Lemma refines_trans (P'' P' P : list Ids) : refines P'' P' -> refines P' P -> refines P'' P.
Proof.
  intros H1 H2 B HB. destruct (H1 B HB) as (B' & HB' & I1).
  destruct (H2 B' HB') as (B0 & HB0 & I2). exists B0. split; auto.
Qed.

Lemma stable_sym_refine (dfa : DFA) (P' P : list Ids) (a : byte) (X : nat -> Prop) :
  refines P' P -> stable_sym dfa P a X -> stable_sym dfa P' a X.
Proof.
  intros R S B' x y HB' Hx Hy. destruct (R B' HB') as (B & HB & I).
  apply (S B); auto.
Qed.

Lemma stable_refine (dfa : DFA) (P' P : list Ids) (X : nat -> Prop) :
  refines P' P -> stable dfa P X -> stable dfa P' X.
Proof. intros R S a. apply (stable_sym_refine dfa P' P); auto. Qed.

Lemma gen_nil_stable (dfa : DFA) (P : list Ids) (X : nat -> Prop) :
  gen dfa P [] X -> stable dfa P X.
Proof.
  induction 1 as [w Hw|X S|X Y _ IX _ IY|X Y _ IX _ IY|X Y _ IX E].
  - destruct Hw.
  - exact S.
  - intros a B x y HB Hx Hy. specialize (IX a B x y HB Hx Hy).
    specialize (IY a B x y HB Hx Hy). simpl. tauto.
  - intros a B x y HB Hx Hy. specialize (IX a B x y HB Hx Hy).
    specialize (IY a B x y HB Hx Hy). simpl. tauto.
  - intros a B x y HB Hx Hy. rewrite <- !E. apply (IX a B x y HB Hx Hy).
Qed.

Lemma gen_mono (dfa : DFA) (P P' W W' : list Ids) (X : nat -> Prop) :
  (forall w, In w W -> gen dfa P' W' (fun s => In s w)) -> refines P' P ->
  gen dfa P W X -> gen dfa P' W' X.
Proof.
  intros HW R. induction 1 as [w Hw|X S|X Y _ IX _ IY|X Y _ IX _ IY|X Y _ IX E].
  - apply HW. exact Hw.
  - apply gen_stable. apply (stable_refine dfa P' P); auto.
  - apply gen_union; auto.
  - apply gen_diff; auto.
  - apply (gen_ext _ _ _ X); auto.
Qed.

Lemma gen_take (dfa : DFA) (P W : list Ids) (w : Ids) (X : nat -> Prop) :
  stable dfa P (fun s => In s w) -> gen dfa P (w :: W) X -> gen dfa P W X.
Proof.
  intros S. apply gen_mono; [|apply refines_refl].
  intros v [<-|Hv].
  - apply gen_stable. exact S.
  - apply gen_wait. exact Hv.
Qed.

(* ================================================================= *)
(** ** Partitions *)

Lemma pset_remove_length_lt (x : Ids) (P : list Ids) :
  In x P -> (length (pset_remove x P) < length P)%nat.
Proof.
  unfold pset_remove. induction P as [|y P IH]; intros H; [destruct H|]. simpl.
  destruct H as [->|H].
  - assert (ids_eqb x x = true) by (apply ids_eqb_eq; reflexivity).
    rewrite H. simpl. pose proof (filter_length_le (fun y => negb (ids_eqb x y)) P). lia.
  - destruct (negb (ids_eqb x y)); simpl; [specialize (IH H); lia|].
    pose proof (filter_length_le (fun y => negb (ids_eqb x y)) P). lia.
Qed.

Lemma disjoint_heads_NoDup (P : list Ids) :
  NoDup P -> (forall B, In B P -> B <> []) ->
  (forall B C x, In B P -> In C P -> In x B -> In x C -> B = C) ->
  NoDup (map (hd 0%nat) P).
Proof.
  induction P as [|B P IH]; intros Hd Hne Hdis; simpl; constructor.
  - inversion Hd as [|? ? HB Hd']; subst. intros Hin. apply in_map_iff in Hin.
    destruct Hin as (C & Eh & HC).
    assert (B = C) as <-.
    { apply (Hdis B C (hd 0%nat B)); simpl; auto.
      - destruct B as [|b B]; [exfalso; apply (Hne [] (or_introl eq_refl)); reflexivity|].
        left. reflexivity.
      - rewrite <- Eh. destruct C as [|c C]; [exfalso; apply (Hne [] (or_intror HC)); reflexivity|].
        left. reflexivity. }
    contradiction.
  - inversion Hd; subst. apply IH; [assumption| |].
    + intros C HC. apply Hne. right. exact HC.
    + intros C D x HC HD Hx Hy. apply (Hdis C D x); [right|right|..]; assumption.
Qed.

Lemma part_ok_length (n : nat) (P : list Ids) : part_ok n P -> (length P <= n)%nat.
Proof.
  intros (Hs & Hb & Hc & Hdis).
  assert (ND : NoDup (map (hd 0%nat) P)).
  { apply disjoint_heads_NoDup; [apply sorted_NoDup; exact Hs| |exact Hdis].
    intros B HB. apply (Hb B HB). }
  replace (length P) with (length (map (hd 0%nat) P)) by apply length_map.
  rewrite <- (length_seq n 0).
  apply NoDup_incl_length; [exact ND|].
  intros x Hx. apply in_map_iff in Hx. destruct Hx as (B & <- & HB).
  destruct (Hb B HB) as (Hne & _ & Hlt). apply in_seq.
  destruct B as [|b B]; [contradiction|]. simpl. split; [lia|]. apply Hlt. left. reflexivity.
Qed.

Lemma nonempty_In {A} (l : list A) : l <> [] -> exists x, In x l.
Proof. destruct l as [|x l]; [contradiction|]. intros _. exists x. left. reflexivity. Qed.

Section ApplySplit.

Variables (dfa : DFA) (E P W : list Ids) (p : Ids) (f : nat -> bool).
Hypothesis Hinv : hop_inv dfa E P W.
Hypothesis Hp : In p P.
Let p1 := filter f p.
Let p2 := filter (fun x => negb (f x)) p.
Hypothesis Hp1 : p1 <> [].
Hypothesis Hp2 : p2 <> [].

Lemma split_p1_In (x : nat) : In x p1 <-> In x p /\ f x = true.
Proof. apply filter_In. Qed.

Lemma split_p2_In (x : nat) : In x p2 <-> In x p /\ f x = false.
Proof. unfold p2. rewrite filter_In, negb_true_iff. tauto. Qed.

Lemma split_blocks_In (B : Ids) :
  In B (pset_insert p2 (pset_insert p1 (pset_remove p P))) <->
  B = p2 \/ B = p1 \/ (In B P /\ B <> p).
Proof. rewrite !pset_insert_In, pset_remove_In. tauto. Qed.

Lemma split_refines :
  refines (pset_insert p2 (pset_insert p1 (pset_remove p P))) P.
Proof.
  intros B HB. apply split_blocks_In in HB.
  destruct HB as [->|[->|[HB _]]].
  - exists p. split; [exact Hp|]. intros x Hx. apply split_p2_In in Hx. apply Hx.
  - exists p. split; [exact Hp|]. intros x Hx. apply split_p1_In in Hx. apply Hx.
  - exists B. split; auto.
Qed.

Lemma split_ne_old (q : Ids) (x : nat) :
  In x q -> In x p -> In q P -> q = p.
Proof.
  intros Hq Hxp HqP. destruct Hinv as ((_ & _ & _ & Hdis) & _). apply (Hdis q p x); auto.
Qed.

Lemma split_part_ok :
  part_ok (length dfa) (pset_insert p2 (pset_insert p1 (pset_remove p P))).
Proof.
  destruct Hinv as ((Hs & Hb & Hc & Hdis) & _).
  destruct (Hb p Hp) as (_ & Hps & Hplt).
  split; [|split; [|split]].
  - apply pset_insert_sorted, pset_insert_sorted, pset_remove_sorted. exact Hs.
  - intros B HB. apply split_blocks_In in HB. destruct HB as [->|[->|[HB _]]].
    + split; [exact Hp2|]. split; [apply StronglySorted_filter; exact Hps|].
      intros x Hx. apply split_p2_In in Hx. apply Hplt, Hx.
    + split; [exact Hp1|]. split; [apply StronglySorted_filter; exact Hps|].
      intros x Hx. apply split_p1_In in Hx. apply Hplt, Hx.
    + apply Hb, HB.
  - intros x Hx. destruct (Hc x Hx) as (B & HB & HxB).
    destruct (list_eq_dec Nat.eq_dec B p) as [->|Hne].
    + destruct (f x) eqn:Fx.
      * exists p1. split; [apply split_blocks_In; auto|]. apply split_p1_In. auto.
      * exists p2. split; [apply split_blocks_In; auto|]. apply split_p2_In. auto.
    + exists B. split; [apply split_blocks_In; auto|exact HxB].
  - intros B C x HB HC HxB HxC.
    apply split_blocks_In in HB. apply split_blocks_In in HC.
    destruct HB as [->|[->|[HB HBp]]]; destruct HC as [->|[->|[HC HCp]]]; try reflexivity.
    + apply split_p2_In in HxB. apply split_p1_In in HxC. destruct HxB, HxC. congruence.
    + apply split_p2_In in HxB. destruct HxB as [Hxp _].
      exfalso. apply HCp. apply (split_ne_old C x); auto.
    + apply split_p1_In in HxB. apply split_p2_In in HxC. destruct HxB, HxC. congruence.
    + apply split_p1_In in HxB. destruct HxB as [Hxp _].
      exfalso. apply HCp. apply (split_ne_old C x); auto.
    + apply split_p2_In in HxC. destruct HxC as [Hxp _].
      exfalso. apply HBp. apply (split_ne_old B x); auto.
    + apply split_p1_In in HxC. destruct HxC as [Hxp _].
      exfalso. apply HBp. apply (split_ne_old B x); auto.
    + apply (Hdis B C x); auto.
Qed.

Lemma split_p1_fresh : ~ In p1 (pset_remove p P).
Proof.
  intros H. apply pset_remove_In in H. destruct H as [H Hne].
  destruct (nonempty_In p1 Hp1) as [x Hx].
  pose proof Hx as Hx'. apply split_p1_In in Hx'.
  apply Hne. apply (split_ne_old p1 x); [exact Hx|apply Hx'|exact H].
Qed.

Lemma split_p2_fresh : ~ In p2 (pset_insert p1 (pset_remove p P)).
Proof.
  intros H. apply pset_insert_In in H.
  destruct (nonempty_In p2 Hp2) as [x Hx].
  pose proof Hx as Hx'. apply split_p2_In in Hx'. destruct H as [H|H].
  - rewrite H in Hx. apply split_p1_In in Hx. destruct Hx, Hx'. congruence.
  - apply pset_remove_In in H. destruct H as [H Hne]. apply Hne.
    apply (split_ne_old p2 x); [exact Hx|apply Hx'|exact H].
Qed.

Lemma split_length :
  length (pset_insert p2 (pset_insert p1 (pset_remove p P))) = S (length P).
Proof.
  destruct Hinv as ((Hs & _) & _).
  rewrite pset_insert_length by apply split_p2_fresh.
  rewrite pset_insert_length by apply split_p1_fresh.
  rewrite pset_remove_length; [reflexivity| apply sorted_NoDup; exact Hs | exact Hp].
Qed.

Let W' := if pset_mem p W then pset_insert p2 (pset_insert p1 (pset_remove p W))
          else if (length p1 <=? length p2)%nat then pset_insert p1 W
          else pset_insert p2 W.
Let P' := pset_insert p2 (pset_insert p1 (pset_remove p P)).

Lemma split_waiting_length : (length W' <= S (length W))%nat.
Proof.
  unfold W'. destruct (pset_mem p W) eqn:M.
  - apply pset_mem_In in M.
    pose proof (pset_remove_length_lt p W M).
    pose proof (pset_insert_length_le p1 (pset_remove p W)).
    pose proof (pset_insert_length_le p2 (pset_insert p1 (pset_remove p W))). lia.
  - destruct (length p1 <=? length p2)%nat; apply pset_insert_length_le.
Qed.

Lemma split_waiting_keep (w : Ids) : In w W -> w <> p -> In w W'.
Proof.
  intros H Hne. unfold W'. destruct (pset_mem p W).
  - rewrite !pset_insert_In, pset_remove_In. tauto.
  - destruct (length p1 <=? length p2)%nat; rewrite pset_insert_In; tauto.
Qed.

Lemma split_waiting_p : In p W -> In p1 W' /\ In p2 W'.
Proof.
  intros H. apply pset_mem_In in H. unfold W'. rewrite H. rewrite !pset_insert_In. tauto.
Qed.

Lemma split_waiting_one : In p1 W' \/ In p2 W'.
Proof.
  destruct (Bool.bool_dec (pset_mem p W) true) as [M|M].
  - left. apply split_waiting_p. apply pset_mem_In. exact M.
  - apply not_true_is_false in M. unfold W'. rewrite M. destruct (length p1 <=? length p2)%nat.
    + left. apply pset_insert_In. tauto.
    + right. apply pset_insert_In. tauto.
Qed.

Lemma split_gen_old (w : Ids) :
  In w (E ++ W) -> gen dfa P' (E ++ W') (fun s => In s w).
Proof.
  intros H. apply in_app_or in H. destruct H as [H|H].
  - apply gen_wait. apply in_or_app. tauto.
  - destruct (list_eq_dec Nat.eq_dec w p) as [->|Hne].
    + destruct (split_waiting_p H) as [H1 H2].
      apply (gen_ext _ _ _ (fun s => In s p1 \/ In s p2)).
      * apply gen_union; apply gen_wait; apply in_or_app; tauto.
      * intros s. rewrite split_p1_In, split_p2_In.
        destruct (f s); split; intuition congruence.
    + apply gen_wait. apply in_or_app. right. apply split_waiting_keep; assumption.
Qed.

Lemma split_gen (B : Ids) : In B P' -> gen dfa P' (E ++ W') (fun s => In s B).
Proof.
  destruct Hinv as (_ & _ & Hg).
  assert (Gp : gen dfa P' (E ++ W') (fun s => In s p)).
  { apply (gen_mono dfa P P' (E ++ W) (E ++ W')); [apply split_gen_old|apply split_refines|apply Hg, Hp]. }
  assert (Gq : forall q, q = p1 \/ q = p2 -> gen dfa P' (E ++ W') (fun s => In s q)).
  { intros q Hq. destruct split_waiting_one as [H1|H2].
    - destruct Hq as [-> | ->].
      + apply gen_wait. apply in_or_app. tauto.
      + apply (gen_ext _ _ _ (fun s => In s p /\ ~ In s p1)).
        * apply gen_diff; [exact Gp|]. apply gen_wait. apply in_or_app. tauto.
        * intros s. rewrite split_p1_In, split_p2_In.
          destruct (f s); split; intuition congruence.
    - destruct Hq as [-> | ->].
      + apply (gen_ext _ _ _ (fun s => In s p /\ ~ In s p2)).
        * apply gen_diff; [exact Gp|]. apply gen_wait. apply in_or_app. tauto.
        * intros s. rewrite split_p1_In, split_p2_In.
          destruct (f s); split; intuition congruence.
      + apply gen_wait. apply in_or_app. tauto. }
  intros HB. apply split_blocks_In in HB. destruct HB as [->|[->|[HB _]]].
  - apply Gq. tauto.
  - apply Gq. tauto.
  - apply (gen_mono dfa P P' (E ++ W) (E ++ W')); [apply split_gen_old|apply split_refines|apply Hg, HB].
Qed.

Lemma split_inv : hop_inv dfa E P' W'.
Proof.
  split; [apply split_part_ok|split; [|apply split_gen]].
  intros B x y HB Hx Hy. destruct (split_refines B HB) as (C & HC & I).
  destruct Hinv as (_ & Hu & _). apply (Hu C); auto.
Qed.

Lemma apply_split_eq : apply_split (P, W) (p, (p1, p2)) = (P', W').
Proof. reflexivity. Qed.

End ApplySplit.

Lemma fold_split_spec (dfa : DFA) (E : list Ids) (f : nat -> bool) :
  forall spl P W P' W',
  hop_inv dfa E P W ->
  (forall sp, In sp spl -> In (fst sp) P /\ split_of f sp) ->
  NoDup (map fst spl) ->
  fold_left apply_split spl (P, W) = (P', W') ->
  hop_inv dfa E P' W' /\ refines P' P /\
  (measure (length dfa) P' W' + length spl <= measure (length dfa) P W)%nat /\
  ((forall B, In B P -> ~ In B (map fst spl) -> uniform_on f B) ->
   forall B, In B P' -> uniform_on f B).
Proof.
  induction spl as [|[p [p1 p2]] spl IH]; intros P W P' W' Hinv Hspl Hnd Hf.
  - simpl in Hf. injection Hf as <- <-. split; [exact Hinv|split; [apply refines_refl|]].
    split; [simpl; lia|]. intros U B HB. apply U; auto.
  - cbn [fold_left] in Hf. destruct (Hspl _ (or_introl eq_refl)) as [Hp (Hs & Hp1 & Hp2)].
    simpl in Hp, Hs, Hp1, Hp2. injection Hs as -> ->.
    rewrite apply_split_eq in Hf.
    pose proof (split_inv dfa E P W p f Hinv Hp Hp1 Hp2) as Hinv1.
    inversion Hnd as [|? ? Hnotin Hnd']; subst.
    edestruct IH as (Hi & R & M & U); [exact Hinv1| |exact Hnd'|exact Hf|].
    { intros sp Hsp. destruct (Hspl sp (or_intror Hsp)) as [H1 H2]. split; [|exact H2].
      apply split_blocks_In. right. right. split; [exact H1|].
      intros E'. apply Hnotin. rewrite <- E'. apply in_map. exact Hsp. }
    split; [exact Hi|split; [|split]].
    + eapply refines_trans; [exact R|apply split_refines; assumption].
    + pose proof (split_length dfa E P W p f Hinv Hp Hp1 Hp2) as L.
      pose proof (split_waiting_length W p f) as LW.
      pose proof (part_ok_length _ _ (proj1 Hinv1)) as LP.
      unfold measure in *. simpl. simpl in M, L, LW, LP. lia.
    + intros U0. apply U. intros B HB Hnot.
      apply split_blocks_In in HB. destruct HB as [->|[->|[HB Hne]]].
      * intros x y Hx Hy. apply filter_In in Hx. apply filter_In in Hy.
        destruct Hx as [_ Hx], Hy as [_ Hy].
        apply negb_true_iff in Hx. apply negb_true_iff in Hy. congruence.
      * intros x y Hx Hy. apply filter_In in Hx. apply filter_In in Hy.
        destruct Hx as [_ Hx], Hy as [_ Hy]. congruence.
      * apply U0; [exact HB|]. simpl. intros [E'|E']; [congruence|contradiction].
Qed.

Lemma filter_nil_false {A} (g : A -> bool) (l : list A) :
  filter g l = [] -> forall x, In x l -> g x = false.
Proof.
  intros H x Hx. destruct (g x) eqn:G; [|reflexivity].
  assert (In x (filter g l)) by (apply filter_In; auto). rewrite H in *. contradiction.
Qed.

Lemma split_sets_spec (sets : list Ids) (dom : Ids) :
  (forall sp, In sp (split_sets sets dom) ->
     In (fst sp) sets /\ split_of (fun x => ids_mem x dom) sp) /\
  (NoDup sets -> NoDup (map fst (split_sets sets dom))) /\
  (forall B, In B sets -> ~ In B (map fst (split_sets sets dom)) ->
     uniform_on (fun x => ids_mem x dom) B).
Proof.
  induction sets as [|B sets (IH1 & IH2 & IH3)]; simpl.
  - split; [tauto|split; [constructor|tauto]].
  - destruct (filter (fun x => ids_mem x dom) B) as [|i is] eqn:E1.
    + split; [intros sp Hsp; destruct (IH1 sp Hsp); tauto|split].
      * intros Hnd. inversion Hnd; auto.
      * intros C [<-|HC] Hn; [|apply IH3; auto].
        intros x y Hx Hy. rewrite (filter_nil_false _ _ E1 x Hx), (filter_nil_false _ _ E1 y Hy).
        reflexivity.
    + destruct (filter (fun x => negb (ids_mem x dom)) B) as [|d ds] eqn:E2.
      * split; [intros sp Hsp; destruct (IH1 sp Hsp); tauto|split].
        -- intros Hnd. inversion Hnd; auto.
        -- intros C [<-|HC] Hn; [|apply IH3; auto].
           intros x y Hx Hy. pose proof (filter_nil_false _ _ E2 x Hx) as Gx.
           pose proof (filter_nil_false _ _ E2 y Hy) as Gy.
           apply negb_false_iff in Gx. apply negb_false_iff in Gy. congruence.
      * simpl. split; [|split].
        -- intros sp [<-|Hsp]; [|destruct (IH1 sp Hsp); tauto].
           simpl. split; [left; reflexivity|]. unfold split_of. simpl.
           rewrite E1, E2. split; [reflexivity|split; discriminate].
        -- intros Hnd. inversion Hnd as [|? ? Hn Hnd']; subst. constructor; [|auto].
           intros Hin. apply in_map_iff in Hin. destruct Hin as (sp & Efst & Hsp).
           apply Hn. rewrite <- Efst. apply (IH1 sp Hsp).
        -- intros C [<-|HC] Hn; [exfalso; apply Hn; left; reflexivity|].
           apply IH3; [exact HC|]. intros H. apply Hn. right. exact H.
Qed.

Section RefineBy.

Variables (dfa : DFA) (alph : list byte) (idfa : InvStates) (w : Ids).
Let n := length dfa.
Hypothesis Hinverse : forall a, In a alph ->
  match inverse idfa w a with
  | None => forall x, (x < n)%nat -> ~ In (tstep dfa x a) w
  | Some inv => forall x, (x < n)%nat -> (ids_mem x inv = true <-> In (tstep dfa x a) w)
  end.
Hypothesis Hother : forall a x, ~ In a alph -> tstep dfa x a = 0%nat.

Lemma block_lt (P : list Ids) (B : Ids) (x : nat) :
  part_ok n P -> In B P -> In x B -> (x < n)%nat.
Proof. intros (_ & Hb & _) HB Hx. apply (Hb B HB), Hx. Qed.

Lemma refine_by_fold : forall syms P W P' W',
  hop_inv dfa [w] P W -> (forall a, In a syms -> In a alph) ->
  fold_left (fun pw symbol =>
    match inverse idfa w symbol with
    | None => pw
    | Some inv => fold_left apply_split (split_sets (fst pw) inv) pw
    end) syms (P, W) = (P', W') ->
  hop_inv dfa [w] P' W' /\ refines P' P /\
  (measure n P' W' <= measure n P W)%nat /\
  (forall a, In a syms -> stable_sym dfa P' a (fun s => In s w)).
Proof.
  induction syms as [|a syms IH]; intros P W P' W' Hi Hs Hf.
  - simpl in Hf. injection Hf as <- <-. split; [exact Hi|split; [apply refines_refl|]].
    split; [lia|]. intros a [].
  - cbn [fold_left] in Hf. pose proof (Hinverse a (Hs a (or_introl eq_refl))) as Ha.
    assert (Step : exists P1 W1, hop_inv dfa [w] P1 W1 /\ refines P1 P /\
              (measure n P1 W1 <= measure n P W)%nat /\
              stable_sym dfa P1 a (fun s => In s w) /\
              fold_left (fun pw symbol =>
                match inverse idfa w symbol with
                | None => pw
                | Some inv => fold_left apply_split (split_sets (fst pw) inv) pw
                end) syms (P1, W1) = (P', W')).
    { destruct (inverse idfa w a) as [inv|] eqn:Ei.
      - simpl fst in Hf.
        destruct (fold_left apply_split (split_sets P inv) (P, W)) as [P1 W1] eqn:Ef.
        destruct (split_sets_spec P inv) as (S1 & S2 & S3).
        destruct (fold_split_spec dfa [w] (fun x => ids_mem x inv) _ P W P1 W1 Hi S1
                    (S2 (sorted_NoDup _ (proj1 (proj1 Hi)))) Ef) as (Hi1 & R1 & M1 & U1).
        exists P1, W1. split; [exact Hi1|split; [exact R1|split; [unfold n; lia|split; [|exact Hf]]]].
        intros B x y HB Hx Hy.
        pose proof (block_lt P1 B x (proj1 Hi1) HB Hx) as Lx.
        pose proof (block_lt P1 B y (proj1 Hi1) HB Hy) as Ly.
        rewrite <- (Ha x Lx), <- (Ha y Ly). rewrite (U1 S3 B HB x y Hx Hy). reflexivity.
      - exists P, W. split; [exact Hi|split; [apply refines_refl|split; [lia|split; [|exact Hf]]]].
        intros B x y HB Hx Hy.
        pose proof (block_lt P B x (proj1 Hi) HB Hx) as Lx.
        pose proof (block_lt P B y (proj1 Hi) HB Hy) as Ly.
        split; intros H; exfalso; [apply (Ha x Lx)|apply (Ha y Ly)]; exact H. }
    destruct Step as (P1 & W1 & Hi1 & R1 & M1 & St1 & Hf1).
    destruct (IH P1 W1 P' W' Hi1 (fun b Hb => Hs b (or_intror Hb)) Hf1) as (Hi2 & R2 & M2 & St2).
    split; [exact Hi2|split; [eapply refines_trans; eassumption|split; [lia|]]].
    intros b [<-|Hb]; [|apply St2; exact Hb].
    apply (stable_sym_refine dfa P' P1); assumption.
Qed.

Lemma refine_by_spec (P W P' W' : list Ids) :
  hop_inv dfa [w] P W -> refine_by alph idfa w (P, W) = (P', W') ->
  hop_inv dfa [] P' W' /\ (measure n P' W' <= measure n P W)%nat.
Proof.
  intros Hi Hf. unfold refine_by in Hf.
  destruct (refine_by_fold alph P W P' W' Hi (fun a Ha => Ha) Hf) as (Hi' & _ & M & St).
  split; [|exact M].
  assert (Sw : stable dfa P' (fun s => In s w)).
  { intros a. destruct (in_dec Byte.byte_eq_dec a alph) as [Ha|Ha]; [apply St, Ha|].
    intros B x y _ _ _. rewrite (Hother a x Ha), (Hother a y Ha). reflexivity. }
  destruct Hi' as (Hp & Hu & Hg). split; [exact Hp|split; [exact Hu|]].
  intros B HB. simpl. apply (gen_take dfa P' W' w); [exact Sw|]. apply Hg, HB.
Qed.

End RefineBy.

Lemma hop_inv_take (dfa : DFA) (P W : list Ids) (w : Ids) :
  hop_inv dfa [] P W -> In w W -> hop_inv dfa [w] P (pset_remove w W).
Proof.
  intros (Hp & Hu & Hg) Hw. split; [exact Hp|split; [exact Hu|]].
  intros B HB. apply (gen_mono dfa P P W); [|apply refines_refl|apply Hg, HB].
  intros v Hv. apply gen_wait.
  destruct (list_eq_dec Nat.eq_dec v w) as [->|Hne]; [left; reflexivity|].
  right. apply pset_remove_In. auto.
Qed.

Lemma hopcroft_loop_spec (dfa : DFA) (alph : list byte) (idfa : InvStates) :
  (forall w a, In a alph ->
     match inverse idfa w a with
     | None => forall x, (x < length dfa)%nat -> ~ In (tstep dfa x a) w
     | Some inv => forall x, (x < length dfa)%nat -> (ids_mem x inv = true <-> In (tstep dfa x a) w)
     end) ->
  (forall a x, ~ In a alph -> tstep dfa x a = 0%nat) ->
  forall fuel P W, hop_inv dfa [] P W -> (measure (length dfa) P W <= fuel)%nat ->
  exists P', hopcroft_loop fuel alph idfa P W = Some P' /\ hop_inv dfa [] P' [].
Proof.
  intros Hinverse Hother. induction fuel as [|f IH]; intros P W Hi M.
  - destruct W as [|w W]; [exists P; split; [reflexivity|exact Hi]|].
    unfold measure in M. simpl in M. lia.
  - destruct W as [|w W0] eqn:EW; [exists P; split; [reflexivity|exact Hi]|].
    rewrite <- EW in *. simpl. rewrite EW. rewrite <- EW.
    destruct (refine_by alph idfa w (P, pset_remove w W)) as [P1 W1] eqn:Er.
    assert (Hw : In w W) by (rewrite EW; left; reflexivity).
    destruct (refine_by_spec dfa alph idfa w (Hinverse w) Hother P (pset_remove w W) P1 W1
                (hop_inv_take dfa P W w Hi Hw) Er) as [Hi1 M1].
    apply IH; [exact Hi1|].
    pose proof (pset_remove_length_lt w W Hw). unfold measure in *. lia.
Qed.

(* ================================================================= *)
(** ** [alphabet], [InvDFA] and [inverse] *)

Lemma key_extend_In (alph keys : list byte) (a : byte) :
  In a (key_extend alph keys) <-> In a alph \/ In a keys.
Proof.
  unfold key_extend. revert alph. induction keys as [|k keys IH]; intros alph; simpl; [tauto|].
  rewrite IH. destruct (existsb (Byte.eqb k) alph) eqn:E.
  - apply existsb_exists in E. destruct E as (b & Hb & Eb). apply byte_eqb_iff in Eb. subst.
    split; [tauto|]. intros [H|[H|H]]; auto. subst. auto.
  - rewrite in_app_iff. simpl. intuition congruence.
Qed.

Lemma map_get_In (m : ByteMap) (a : byte) (v : nat) : map_get m a = Some v -> In (a, v) m.
Proof.
  induction m as [|[k v'] m IH]; simpl; [discriminate|].
  destruct (Byte.eqb a k) eqn:E.
  - apply byte_eqb_iff in E. intros H. injection H as ->. subst. left. reflexivity.
  - intros H. right. apply IH, H.
Qed.

Lemma map_get_NoDup (m : ByteMap) (a : byte) (v : nat) :
  NoDup (map fst m) -> In (a, v) m -> map_get m a = Some v.
Proof.
  induction m as [|[k v'] m IH]; simpl; [tauto|].
  intros Hnd Hin. inversion Hnd as [|? ? Hk Hnd']; subst.
  destruct (Byte.eqb a k) eqn:E.
  - apply byte_eqb_iff in E. subst. destruct Hin as [H|H]; [injection H as ->; reflexivity|].
    exfalso. apply Hk. apply (in_map fst) in H. exact H.
  - destruct Hin as [H|H]; [injection H as -> ->; rewrite byte_eqb_refl in E; discriminate|].
    apply IH; assumption.
Qed.

Lemma alphabet_spec (dfa : DFA) : dfa <> [] ->
  exists alph, alphabet dfa = Some alph /\
    forall st a, In st dfa -> In a (map fst (next st)) -> In a alph.
Proof.
  destruct dfa as [|st0 rest]; [contradiction|]. intros _. eexists. split; [reflexivity|].
  assert (G : forall (l : list State) (acc : list byte),
    (forall a, In a acc -> In a (fold_left (fun alph st => key_extend alph (map fst (next st))) l acc)) /\
    (forall st a, In st l -> In a (map fst (next st)) ->
       In a (fold_left (fun alph st => key_extend alph (map fst (next st))) l acc))).
  { induction l as [|s l IH]; intros acc; simpl; [split; [auto|tauto]|].
    destruct (IH (key_extend acc (map fst (next s)))) as [G1 G2]. split.
    - intros a Ha. apply G1. apply key_extend_In. auto.
    - intros st a [<-|Hs] Ha; [|apply (G2 st a); auto]. apply G1. apply key_extend_In. auto. }
  intros st a [<-|Hs] Ha.
  - apply (proj1 (G rest _)). apply key_extend_In. auto.
  - apply (proj2 (G rest _) st a Hs Ha).
Qed.

Lemma tstep_other (dfa : DFA) (alph : list byte) :
  (forall st a, In st dfa -> In a (map fst (next st)) -> In a alph) ->
  forall a x, ~ In a alph -> tstep dfa x a = 0%nat.
Proof.
  intros H a x Ha. unfold tstep.
  destruct (map_get (next (nth x dfa state_sink)) a) as [v|] eqn:E; [|reflexivity].
  exfalso. apply Ha. apply map_get_In in E.
  destruct (Nat.lt_ge_cases x (length dfa)) as [L|L].
  - apply (H (nth x dfa state_sink)); [apply nth_In, L|]. apply (in_map fst) in E. exact E.
  - rewrite nth_overflow in E by exact L. destruct E.
Qed.

Lemma combine_seq {A} (d : A) (L : list A) (k : nat) :
  combine (seq k (length L)) L = map (fun i => ((k + i)%nat, nth i L d)) (seq 0 (length L)).
Proof.
  revert k. induction L as [|x L IH]; intros k; [reflexivity|].
  simpl. rewrite Nat.add_0_r. f_equal. rewrite IH, <- seq_shift, map_map.
  apply map_ext. intros i. f_equal. lia.
Qed.

Lemma fold_left_map' {A B C} (g : A -> B -> A) (h : C -> B) (l : list C) (a : A) :
  fold_left g (map h l) a = fold_left (fun acc x => g acc (h x)) l a.
Proof. revert a. induction l as [|x l IH]; intros a; simpl; auto. Qed.

Lemma length_list_set {A} (l : list A) (i : nat) (x : A) : length (list_set l i x) = length l.
Proof.
  revert i. induction l as [|y l IH]; intros [|i]; simpl; auto.
Qed.

Lemma nth_list_set {A} (l : list A) (i j : nat) (x d : A) :
  (i < length l)%nat -> nth j (list_set l i x) d = if Nat.eqb j i then x else nth j l d.
Proof.
  revert i j. induction l as [|y l IH]; intros i j H; simpl in H; [lia|].
  destruct i as [|i], j as [|j]; try reflexivity.
  simpl list_set. cbn [nth]. rewrite IH by lia. reflexivity.
Qed.

Lemma entry_insert_get (m : list (byte * Ids)) (k a : byte) (x y : nat) :
  opt_In (entry_get (entry_insert m k x) a) y <-> opt_In (entry_get m a) y \/ (a = k /\ y = x).
Proof.
  induction m as [|[k' s] m IH]; simpl.
  - destruct (Byte.eqb a k) eqn:E; simpl.
    + apply byte_eqb_iff in E. intuition congruence.
    + split; [intros []|]. intros [[]|[E' _]]. subst. rewrite byte_eqb_refl in E. discriminate.
  - destruct (Byte.eqb k k') eqn:E1.
    + apply byte_eqb_iff in E1. subst k'. simpl.
      destruct (Byte.eqb a k) eqn:E2; simpl.
      * apply byte_eqb_iff in E2. rewrite ids_insert_In. intuition congruence.
      * split; [tauto|]. intros [H|[E' _]]; [exact H|]. subst. rewrite byte_eqb_refl in E2. discriminate.
    + simpl. destruct (Byte.eqb a k') eqn:E2; [|exact IH].
      apply byte_eqb_iff in E2. subst a. simpl. split; [tauto|].
      intros [H|[E' _]]; [exact H|]. subst. rewrite byte_eqb_refl in E1. discriminate.
Qed.

Section InvDFA.

Variable dfa : DFA.
Let n := length dfa.
Hypothesis Htarget : forall s a, (s < n)%nat -> (tstep dfa s a < n)%nat.

Lemma inv_add_spec (st : InvStates) (m : nat) (a : byte) :
  length st = n -> (m < n)%nat ->
  exists st', inv_add st m (nth m dfa state_sink) a = Some st' /\ length st' = n /\
    forall d b x, opt_In (entry_get (nth d st' []) b) x <->
      opt_In (entry_get (nth d st []) b) x \/ (x = m /\ b = a /\ tstep dfa m a = d).
Proof.
  intros L Hm. unfold inv_add. fold (tstep dfa m a).
  pose proof (Htarget m a Hm) as Ht.
  rewrite (nth_error_nth' st [] (n := tstep dfa m a)) by lia.
  eexists. split; [reflexivity|]. split; [rewrite length_list_set; exact L|].
  intros d b x. rewrite nth_list_set by lia.
  destruct (Nat.eqb d (tstep dfa m a)) eqn:E.
  - apply Nat.eqb_eq in E. subst d. rewrite entry_insert_get. intuition congruence.
  - apply Nat.eqb_neq in E. intuition congruence.
Qed.

Lemma inv_row_spec (alph syms : list byte) (m : nat) : forall st,
  length st = n -> (m < n)%nat ->
  exists st', fold_left (fun acc symbol =>
      match acc with Some st => inv_add st m (nth m dfa state_sink) symbol | None => None end)
      syms (Some st) = Some st' /\ length st' = n /\
    forall d b x, opt_In (entry_get (nth d st' []) b) x <->
      opt_In (entry_get (nth d st []) b) x \/ (x = m /\ In b syms /\ tstep dfa m b = d).
Proof.
  induction syms as [|a syms IH]; intros st L Hm; simpl.
  - exists st. split; [reflexivity|split; [exact L|]]. intros. tauto.
  - destruct (inv_add_spec st m a L Hm) as (st1 & E1 & L1 & H1). rewrite E1.
    destruct (IH st1 L1 Hm) as (st2 & E2 & L2 & H2). exists st2.
    split; [exact E2|split; [exact L2|]]. intros d b x. rewrite H2, H1.
    intuition congruence.
Qed.

Lemma nth_repeat_nil {A} (k d : nat) : nth d (repeat (@nil A) k) [] = [].
Proof. revert d. induction k as [|k IH]; intros [|d]; simpl; auto. Qed.

Lemma inv_new_spec (alph : list byte) :
  exists idfa, inv_new dfa alph = Some idfa /\
    forall d b x, In b alph ->
      (opt_In (entry_get (nth d idfa []) b) x <-> (x < n)%nat /\ tstep dfa x b = d).
Proof.
  unfold inv_new. rewrite (combine_seq state_sink dfa 0), fold_left_map'. simpl.
  assert (G : forall m, (m <= n)%nat -> exists st,
    fold_left (fun acc i => fold_left (fun acc symbol =>
        match acc with Some st => inv_add st i (nth i dfa state_sink) symbol | None => None end)
        alph acc) (seq 0 m) (Some (repeat [] n)) = Some st /\ length st = n /\
    forall d b x, In b alph ->
      (opt_In (entry_get (nth d st []) b) x <-> (x < m)%nat /\ tstep dfa x b = d)).
  { induction m as [|m IH]; intros Hm.
    - exists (repeat [] n). split; [reflexivity|split; [apply repeat_length|]].
      intros d b x _. rewrite nth_repeat_nil. simpl. lia.
    - destruct IH as (st & E & L & H); [lia|].
      rewrite seq_S, fold_left_app, E. simpl.
      destruct (inv_row_spec alph alph m st L ltac:(lia)) as (st' & E' & L' & H').
      exists st'. split; [exact E'|split; [exact L'|]].
      intros d b x Hb. rewrite H', H by exact Hb.
      split; [intros [[Hx Ht]|(-> & _ & Ht)]; split; auto; lia|].
      intros [Hx Ht]. destruct (Nat.eq_dec x m) as [->|Hne]; [right; auto|left; split; [lia|auto]]. }
  destruct (G n (le_n n)) as (st & E & _ & H). exists st. split; [exact E|exact H].
Qed.

Lemma fold_union_In (rest : list Ids) (s : Ids) (x : nat) :
  In x (fold_left ids_union rest s) <-> In x s \/ exists t, In t rest /\ In x t.
Proof.
  revert s. induction rest as [|t rest IH]; intros s; simpl.
  - split; [tauto|]. intros [H|(t & [] & _)]; exact H.
  - rewrite IH, ids_union_In. split.
    + intros [[H|H]|(t' & Ht' & H)]; [tauto|right; exists t; auto|right; exists t'; auto].
    + intros [H|(t' & [<-|Ht'] & H)]; [tauto|tauto|right; exists t'; auto].
Qed.

Lemma inverse_spec (alph : list byte) (idfa : InvStates) :
  (forall d b x, In b alph ->
     (opt_In (entry_get (nth d idfa []) b) x <-> (x < n)%nat /\ tstep dfa x b = d)) ->
  forall w a, In a alph ->
  match inverse idfa w a with
  | None => forall x, (x < n)%nat -> ~ In (tstep dfa x a) w
  | Some inv => forall x, (x < n)%nat -> (ids_mem x inv = true <-> In (tstep dfa x a) w)
  end.
Proof.
  intros Hid w a Ha. unfold inverse.
  assert (FM : forall t, In t (flat_map (fun id =>
      match entry_get (nth id idfa []) a with Some s => [s] | None => [] end) w) <->
      exists id, In id w /\ entry_get (nth id idfa []) a = Some t).
  { intros t. rewrite in_flat_map. split.
    - intros (id & Hid' & Ht). destruct (entry_get (nth id idfa []) a) eqn:E; [|destruct Ht].
      destruct Ht as [<-|[]]. exists id. auto.
    - intros (id & Hid' & E). exists id. rewrite E. split; [exact Hid'|left; reflexivity]. }
  assert (Mem : forall x, (x < n)%nat -> In (tstep dfa x a) w ->
     exists t, entry_get (nth (tstep dfa x a) idfa []) a = Some t /\ In x t).
  { intros x Hx Hw. assert (O : opt_In (entry_get (nth (tstep dfa x a) idfa []) a) x)
      by (apply Hid; auto).
    destruct (entry_get (nth (tstep dfa x a) idfa []) a) as [t|]; [exists t; auto|destruct O]. }
  destruct (flat_map _ w) as [|s rest] eqn:E.
  - intros x Hx Hw. destruct (Mem x Hx Hw) as (t & Et & _).
    assert (In t []) by (apply FM; exists (tstep dfa x a); auto). destruct H.
  - intros x Hx. rewrite ids_mem_In, fold_union_In. split.
    + intros Hin. assert (Ht : exists t, In t (s :: rest) /\ In x t).
      { destruct Hin as [Hin|(t & Ht & Hin)]; [exists s; split; [left|]; auto|].
        exists t. split; [right|]; auto. }
      destruct Ht as (t & Ht & Hxt). apply FM in Ht. destruct Ht as (id & Hid' & Et).
      assert (O : opt_In (entry_get (nth id idfa []) a) x) by (rewrite Et; exact Hxt).
      apply Hid in O; [|exact Ha]. destruct O as [_ <-]. exact Hid'.
    + intros Hw. destruct (Mem x Hx Hw) as (t & Et & Hxt).
      assert (Ht : In t (s :: rest)) by (apply FM; exists (tstep dfa x a); auto).
      destruct Ht as [<-|Ht]; [left; exact Hxt|right; exists t; auto].
Qed.

End InvDFA.

(* ================================================================= *)
(** ** [coarse_partition] and [all_but_largest] *)

Lemma pset_fold_In (L P : list Ids) (B : Ids) :
  In B (fold_left (fun P x => pset_insert x P) L P) <-> In B P \/ In B L.
Proof.
  revert P. induction L as [|x L IH]; intros P; simpl; [tauto|].
  rewrite IH, pset_insert_In. intuition congruence.
Qed.

Lemma pset_fold_sorted (L P : list Ids) :
  StronglySorted ids_lt P -> StronglySorted ids_lt (fold_left (fun P x => pset_insert x P) L P).
Proof.
  revert P. induction L as [|x L IH]; intros P H; simpl; [exact H|].
  apply IH, pset_insert_sorted, H.
Qed.

Lemma group_insert_keys (G : list (nat * Ids)) (k id : nat) :
  NoDup (map fst G) -> NoDup (map fst (group_insert G k id)) /\
  (forall k', In k' (map fst (group_insert G k id)) <-> k' = k \/ In k' (map fst G)).
Proof.
  induction G as [|[k0 s] G IH]; intros Hnd; simpl.
  - split; [repeat constructor; intros []|]. intros k'. intuition congruence.
  - inversion Hnd as [|? ? Hk0 Hnd']; subst.
    destruct (Nat.eqb k k0) eqn:E; simpl.
    + apply Nat.eqb_eq in E. subst. split; [exact Hnd|]. intros k'. intuition congruence.
    + apply Nat.eqb_neq in E. destruct (IH Hnd') as [N1 N2]. split.
      * constructor; [|exact N1]. rewrite N2. intros [->|H]; [congruence|contradiction].
      * intros k'. rewrite N2. tauto.
Qed.

Lemma group_insert_In (G : list (nat * Ids)) (k id k' : nat) (s' : Ids) :
  NoDup (map fst G) -> In (k', s') (group_insert G k id) ->
  (k' <> k /\ In (k', s') G) \/
  (k' = k /\ ((exists s, In (k, s) G /\ s' = ids_insert id s) \/
              (s' = [id] /\ ~ In k (map fst G)))).
Proof.
  induction G as [|[k0 s] G IH]; simpl; intros Hnd.
  - intros [H|[]]. injection H as -> ->. right. split; [reflexivity|right; tauto].
  - inversion Hnd as [|? ? Hk0 Hnd']; subst.
    destruct (Nat.eqb k k0) eqn:E.
    + apply Nat.eqb_eq in E. subst k0. intros [H|H].
      * injection H as <- <-. right. split; [reflexivity|left]. exists s. split; [left|]; reflexivity.
      * destruct (Nat.eq_dec k' k) as [->|Hne]; [|left; tauto].
        exfalso. apply Hk0. apply (in_map fst) in H. exact H.
    + apply Nat.eqb_neq in E. intros [H|H].
      * injection H as -> ->. left. split; [congruence|left; reflexivity].
      * destruct (IH Hnd' H) as [[H1 H2]|[H1 [(s0 & H2 & H3)|(H2 & H3)]]].
        -- left. tauto.
        -- right. split; [exact H1|left]. exists s0. tauto.
        -- right. split; [exact H1|right]. split; [exact H2|]. intros [H4|H4]; [congruence|tauto].
Qed.

Lemma group_insert_key (G : list (nat * Ids)) (k id : nat) :
  exists s, In (k, s) (group_insert G k id) /\ In id s.
Proof.
  induction G as [|[k0 s] G IH]; simpl.
  - exists [id]. split; [left; reflexivity|left; reflexivity].
  - destruct (Nat.eqb k k0) eqn:E.
    + apply Nat.eqb_eq in E. subst. exists (ids_insert id s). split; [left; reflexivity|].
      apply ids_insert_In. left. reflexivity.
    + destruct IH as (s' & H1 & H2). exists s'. split; [right; exact H1|exact H2].
Qed.

Lemma group_insert_keep (G : list (nat * Ids)) (k id k' : nat) (s : Ids) :
  In (k', s) G -> k' <> k -> In (k', s) (group_insert G k id).
Proof.
  induction G as [|[k0 s0] G IH]; simpl; [tauto|]. intros [H|H] Hne.
  - injection H as -> ->. destruct (Nat.eqb k k') eqn:E.
    + apply Nat.eqb_eq in E. congruence.
    + left. reflexivity.
  - destruct (Nat.eqb k k0); right; [exact H|]. apply IH; assumption.
Qed.

Lemma assoc_unique (G : list (nat * Ids)) (k : nat) (s s' : Ids) :
  NoDup (map fst G) -> In (k, s) G -> In (k, s') G -> s = s'.
Proof.
  induction G as [|[k0 s0] G IH]; simpl; [tauto|]. intros Hnd H1 H2.
  inversion Hnd as [|? ? Hk0 Hnd']; subst.
  destruct H1 as [H1|H1], H2 as [H2|H2].
  - congruence.
  - injection H1 as -> ->. exfalso. apply Hk0. apply (in_map fst) in H2. exact H2.
  - injection H2 as -> ->. exfalso. apply Hk0. apply (in_map fst) in H1. exact H1.
  - apply IH; assumption.
Qed.

Section Coarse.

Variable dfa : DFA.
Let n := length dfa.

Lemma coarse_groups (m : nat) :
  let G := fold_left (fun g i => group_insert g (gkey_of dfa i) i) (seq 0 m) [] in
  NoDup (map fst G) /\
  (forall k s, In (k, s) G -> s <> [] /\ StronglySorted lt s /\
     forall x, In x s <-> (x < m)%nat /\ gkey_of dfa x = k) /\
  (forall x, (x < m)%nat -> exists s, In (gkey_of dfa x, s) G).
Proof.
  induction m as [|m IH]; cbv zeta in *.
  - simpl. split; [constructor|split; [tauto|intros; lia]].
  - rewrite seq_S, fold_left_app. cbn [fold_left]. rewrite Nat.add_0_l.
    set (G := fold_left (fun g i => group_insert g (gkey_of dfa i) i) (seq 0 m) []) in *.
    destruct IH as (Hnd & Hg & Hc).
    split; [apply group_insert_keys, Hnd|split].
    + intros k s Hks. destruct (group_insert_In G _ _ k s Hnd Hks)
        as [[Hne Hin]|[-> [(s0 & Hin & ->)|(-> & Hnot)]]].
      * destruct (Hg k s Hin) as (H1 & H2 & H3). split; [exact H1|split; [exact H2|]].
        intros x. rewrite H3. split; [intros [Hx Hk]; split; [lia|exact Hk]|].
        intros [Hx Hk]. split; [|exact Hk]. destruct (Nat.eq_dec x m) as [->|]; [congruence|lia].
      * destruct (Hg _ s0 Hin) as (H1 & H2 & H3).
        split; [destruct s0 as [|y s0]; [contradiction|]; simpl; destruct (Nat.compare m y); discriminate|].
        split; [apply ids_insert_sorted, H2|].
        intros x. rewrite ids_insert_In, H3. split.
        -- intros [->|[Hx Hk]]; split; auto; lia.
        -- intros [Hx Hk]. destruct (Nat.eq_dec x m) as [->|]; [left; reflexivity|right; split; [lia|exact Hk]].
      * split; [discriminate|split; [repeat constructor|]].
        intros x. simpl. split; [intros [<-|[]]; split; auto; lia|].
        intros [Hx Hk]. destruct (Nat.eq_dec x m) as [->|Hne]; [left; reflexivity|].
        exfalso. apply Hnot. destruct (Hc x ltac:(lia)) as (s & Hs). rewrite <- Hk.
        apply (in_map fst) in Hs. exact Hs.
    + intros x Hx. destruct (Nat.eq_dec x m) as [->|Hne].
      * destruct (group_insert_key G (gkey_of dfa m) m) as (s & Hs & _). exists s. exact Hs.
      * destruct (Hc x ltac:(lia)) as (s & Hs).
        destruct (Nat.eq_dec (gkey_of dfa x) (gkey_of dfa m)) as [E|E].
        -- rewrite E. destruct (group_insert_key G (gkey_of dfa m) m) as (s' & Hs' & _).
           exists s'. exact Hs'.
        -- exists s. apply group_insert_keep; assumption.
Qed.

Lemma coarse_partition_eq :
  coarse_partition dfa =
  fold_left (fun P x => pset_insert x P)
    (map snd (fold_left (fun g i => group_insert g (gkey_of dfa i) i) (seq 0 n) [])) [].
Proof.
  unfold coarse_partition. rewrite fold_left_map'. f_equal.
  rewrite (combine_seq state_sink dfa 0), fold_left_map'. reflexivity.
Qed.

Lemma coarse_partition_spec :
  part_ok n (coarse_partition dfa) /\ class_uniform dfa (coarse_partition dfa).
Proof.
  rewrite coarse_partition_eq.
  destruct (coarse_groups n) as (Hnd & Hg & Hc). cbv zeta in *.
  set (G := fold_left (fun g i => group_insert g (gkey_of dfa i) i) (seq 0 n) []) in *.
  assert (HB : forall B, In B (fold_left (fun P x => pset_insert x P) (map snd G) []) <->
                         exists k, In (k, B) G).
  { intros B. rewrite pset_fold_In, in_map_iff. simpl. split.
    - intros [[]|([k s] & <- & H)]. exists k. exact H.
    - intros (k & H). right. exists (k, B). auto. }
  split; [split; [|split; [|split]]|].
  - apply pset_fold_sorted. constructor.
  - intros B H. apply HB in H. destruct H as (k & H). destruct (Hg k B H) as (H1 & H2 & H3).
    split; [exact H1|split; [exact H2|]]. intros x Hx. apply H3, Hx.
  - intros x Hx. destruct (Hc x Hx) as (s & Hs). exists s. split; [apply HB; exists (gkey_of dfa x); exact Hs|].
    apply (Hg _ s Hs). auto.
  - intros B C x H1 H2 Hx1 Hx2. apply HB in H1. apply HB in H2.
    destruct H1 as (k1 & H1), H2 as (k2 & H2).
    pose proof (proj2 (proj2 (Hg k1 B H1)) x) as E1. pose proof (proj2 (proj2 (Hg k2 C H2)) x) as E2.
    apply E1 in Hx1. apply E2 in Hx2. destruct Hx1 as [_ <-], Hx2 as [_ <-].
    apply (assoc_unique G (gkey_of dfa x)); assumption.
  - intros B x y H Hx Hy. apply HB in H. destruct H as (k & H).
    pose proof (proj2 (proj2 (Hg k B H)) x) as E1. pose proof (proj2 (proj2 (Hg k B H)) y) as E2.
    apply E1 in Hx. apply E2 in Hy. destruct Hx as [_ Hx], Hy as [_ Hy].
    rewrite <- Hy in Hx. unfold gkey_of in Hx.
    destruct (tclass dfa x), (tclass dfa y); congruence.
Qed.

End Coarse.

Lemma all_but_largest_spec (P : list Ids) : P <> [] ->
  exists W, all_but_largest P = Some W /\
    (forall C, In C W -> In C P) /\
    (forall C, In C P -> In C W \/ nth_error P (argmax P) = Some C).
Proof.
  intros Hne.
  exists (fold_left (fun W set => pset_insert set W)
      (map snd (filter (fun p => negb (Nat.eqb (fst p) (argmax P)))
        (combine (seq 0 (length P)) P))) []).
  split; [unfold all_but_largest; destruct P; [contradiction|reflexivity]|].
  assert (HW : forall C, In C (fold_left (fun W set => pset_insert set W)
      (map snd (filter (fun p => negb (Nat.eqb (fst p) (argmax P)))
        (combine (seq 0 (length P)) P))) []) <->
      exists i, In (i, C) (combine (seq 0 (length P)) P) /\ i <> argmax P).
  { intros C. rewrite pset_fold_In, in_map_iff. simpl. split.
    - intros [[]|([i D] & <- & H)]. apply filter_In in H. destruct H as [H E].
      simpl in E. apply negb_true_iff, Nat.eqb_neq in E. exists i. auto.
    - intros (i & H & E). right. exists (i, C). split; [reflexivity|].
      apply filter_In. split; [exact H|]. simpl. apply negb_true_iff, Nat.eqb_neq. exact E. }
  split.
  - intros C H. apply HW in H. destruct H as (i & H & _). apply in_combine_r in H. exact H.
  - intros C H. apply In_nth with (d := []) in H. destruct H as (i & Hi & Ei).
    destruct (Nat.eq_dec i (argmax P)) as [<-|Hne'].
    + right. rewrite <- Ei. apply nth_error_nth'. exact Hi.
    + left. apply HW. exists i. split; [|exact Hne'].
      rewrite (combine_seq (A := Ids) [] P 0). apply in_map_iff. exists i. split.
      * simpl. rewrite Ei. reflexivity.
      * apply in_seq. lia.
Qed.

Lemma hop_inv_initial (dfa : DFA) (W : list Ids) :
  (forall s a, (s < length dfa)%nat -> (tstep dfa s a < length dfa)%nat) ->
  (forall C, In C W -> In C (coarse_partition dfa)) ->
  (forall C, In C (coarse_partition dfa) ->
     In C W \/ nth_error (coarse_partition dfa) (argmax (coarse_partition dfa)) = Some C) ->
  hop_inv dfa [] (coarse_partition dfa) W.
Proof.
  intros Ht HW1 HW2. destruct (coarse_partition_spec dfa) as [Hp Hu].
  set (P := coarse_partition dfa) in *.
  split; [exact Hp|split; [exact Hu|]]. simpl.
  assert (Gall : gen dfa P W (fun s => (s < length dfa)%nat)).
  { apply gen_stable. intros a B x y HB Hx Hy.
    pose proof (block_lt dfa P B x Hp HB Hx). pose proof (block_lt dfa P B y Hp HB Hy).
    pose proof (Ht x a ltac:(assumption)). pose proof (Ht y a ltac:(assumption)). tauto. }
  assert (Gun : forall L, (forall C, In C L -> In C W) ->
            gen dfa P W (fun s => exists C, In C L /\ In s C)).
  { induction L as [|C L IH]; intros HL.
    - apply gen_stable. intros a B x y _ _ _. split; intros (C & [] & _).
    - apply (gen_ext _ _ _ (fun s => In s C \/ exists D, In D L /\ In s D)).
      + apply gen_union; [apply gen_wait, HL; left; reflexivity|].
        apply IH. intros D HD. apply HL. right. exact HD.
      + intros s. split.
        * intros [H|(D & HD & H)]; [exists C; split; [left|]|exists D; split; [right|]]; auto.
        * intros (D & [<-|HD] & H); [left; exact H|right; exists D; auto]. }
  intros B HB. destruct (in_dec (list_eq_dec Nat.eq_dec) B W) as [Hw|Hnw]; [apply gen_wait, Hw|].
  destruct (HW2 B HB) as [Hw|Hnth]; [contradiction|].
  apply (gen_ext _ _ _ (fun s => (s < length dfa)%nat /\ ~ exists C, In C W /\ In s C)).
  - apply gen_diff; [exact Gall|]. apply Gun. auto.
  - destruct Hp as (_ & Hb & Hc & Hdis). intros s. split.
    + intros [Hs Hn]. destruct (Hc s Hs) as (D & HD & HsD).
      destruct (HW2 D HD) as [HDw|HDn]; [exfalso; apply Hn; exists D; auto|].
      rewrite Hnth in HDn. injection HDn as ->. exact HsD.
    + intros Hs. split; [apply (Hb B HB), Hs|]. intros (C & HC & HsC).
      assert (C = B) as -> by (apply (Hdis C B s); auto).
      contradiction.
Qed.

Lemma equivalence_classes_spec (dfa : DFA) :
  dfa <> [] ->
  (forall s a, (s < length dfa)%nat -> (tstep dfa s a < length dfa)%nat) ->
  exists P, equivalence_classes dfa = Some P /\ hop_inv dfa [] P [].
Proof.
  intros Hne Ht. unfold equivalence_classes.
  destruct (alphabet_spec dfa Hne) as (alph & Ea & Hk). rewrite Ea.
  destruct (inv_new_spec dfa Ht alph) as (idfa & Ei & Hid). rewrite Ei.
  assert (HP : coarse_partition dfa <> []).
  { destruct (coarse_partition_spec dfa) as ((_ & _ & Hc & _) & _).
    destruct dfa as [|st dfa]; [contradiction|].
    destruct (Hc 0%nat ltac:(simpl; lia)) as (B & HB & _). intros E. rewrite E in HB. destruct HB. }
  destruct (all_but_largest_spec _ HP) as (W & Ew & HW1 & HW2). rewrite Ew.
  apply (hopcroft_loop_spec dfa alph idfa).
  - intros w a Ha. apply (inverse_spec dfa alph idfa Hid w a Ha).
  - apply tstep_other. exact Hk.
  - apply hop_inv_initial; assumption.
  - unfold measure. lia.
Qed.

(* ================================================================= *)
(** ** The order of the final partition *)

Lemma sorted_head_le (h x : nat) (t : Ids) :
  StronglySorted lt (h :: t) -> In x (h :: t) -> (h <= x)%nat.
Proof.
  intros Hs [->|Hx]; [lia|]. inversion Hs as [|? ? _ Hf]; subst.
  rewrite Forall_forall in Hf. specialize (Hf x Hx). lia.
Qed.

Lemma block_head (P : list Ids) (C : Ids) (k : nat) :
  (forall B, In B P -> B <> [] /\ StronglySorted lt B) -> In C P ->
  (forall y, (y < k)%nat -> ~ In y C) ->
  exists h t, C = h :: t /\ (k <= h)%nat /\ forall x, In x C -> (h <= x)%nat.
Proof.
  intros Hb HC Hk. destruct (Hb C HC) as (Hne & Hs).
  destruct C as [|h t]; [contradiction|]. exists h, t. split; [reflexivity|split].
  - destruct (Nat.lt_ge_cases h k) as [L|L]; [|exact L].
    exfalso. apply (Hk h L). left. reflexivity.
  - intros x Hx. apply (sorted_head_le h x t Hs Hx).
Qed.

Lemma ids_lt_cons (h h' : nat) (a b : Ids) : (h < h')%nat -> ids_lt (h :: a) (h' :: b).
Proof.
  intros L. unfold ids_lt. simpl. replace (Nat.compare h h') with Lt; [reflexivity|].
  symmetry. apply Nat.compare_lt_iff. exact L.
Qed.

Lemma least_block (D B : Ids) (P : list Ids) :
  StronglySorted ids_lt (D :: P) -> In B (D :: P) ->
  (forall C, In C (D :: P) -> C <> B -> ids_lt B C) -> D = B.
Proof.
  intros Hs HB Hl. destruct (list_eq_dec Nat.eq_dec D B) as [E|Hne]; [exact E|].
  exfalso. destruct HB as [E|HB]; [contradiction|].
  inversion Hs as [|? ? _ Hf]; subst. rewrite Forall_forall in Hf.
  apply (ids_lt_irrefl B). apply (ids_lt_trans B D B).
  - apply Hl; [left; reflexivity|exact Hne].
  - apply Hf, HB.
Qed.

(** The block of [k] comes first when no smaller state is left. *)
Lemma first_block (D : Ids) (P : list Ids) (k : nat) :
  StronglySorted ids_lt (D :: P) ->
  (forall B, In B (D :: P) -> B <> [] /\ StronglySorted lt B) ->
  (forall B C x, In B (D :: P) -> In C (D :: P) -> In x B -> In x C -> B = C) ->
  (exists B, In B (D :: P) /\ In k B) ->
  (forall y C, (y < k)%nat -> In C (D :: P) -> ~ In y C) ->
  In k D.
Proof.
  intros Hs Hb Hdis (B & HB & HkB) Hsmall.
  assert (Hle : forall C, In C (D :: P) -> C <> B -> ids_lt B C).
  { intros C HC Hne.
    destruct (block_head (D :: P) B k Hb HB (fun y Hy => Hsmall y B Hy HB)) as (h & t & EB & Hkh & Hmin).
    assert (h = k) as -> by (specialize (Hmin k HkB); lia).
    destruct (block_head (D :: P) C (S k) Hb HC) as (h' & t' & EC & Hh' & _).
    - intros y Hy HyC. destruct (Nat.eq_dec y k) as [->|Hne'].
      + apply Hne. apply (Hdis C B k HC HB HyC HkB).
      + apply (Hsmall y C ltac:(lia) HC HyC).
    - rewrite EB, EC. apply ids_lt_cons. lia. }
  rewrite (least_block D B P Hs HB Hle). exact HkB.
Qed.

(* ================================================================= *)
(** ** The states of the minimized DFA *)

Lemma minimize_next_eq (dfa : DFA) (rest : list Ids) (set : Ids) :
  minimize_next dfa rest set =
  fold_left (fun nx source => fold_left (mn_step rest) (next (nth source dfa state_sink)) nx) set [].
Proof. reflexivity. Qed.

Lemma map_insert_get (m : ByteMap) (k c : byte) (v : nat) :
  map_get (map_insert m k v) c = if Byte.eqb c k then Some v else map_get m c.
Proof.
  induction m as [|[k' v'] m IH]; simpl; [destruct (Byte.eqb c k); reflexivity|].
  destruct (Byte.eqb k k') eqn:E1.
  - apply byte_eqb_iff in E1. subst k'. simpl. destruct (Byte.eqb c k); reflexivity.
  - simpl. rewrite IH. destruct (Byte.eqb c k') eqn:E2; [|reflexivity].
    apply byte_eqb_iff in E2. subst c. destruct (Byte.eqb k' k) eqn:E3; [|reflexivity].
    apply byte_eqb_iff in E3. subst. rewrite byte_eqb_refl in E1. discriminate.
Qed.

Lemma position_ext {A} (f g : A -> bool) (l : list A) :
  (forall z, In z l -> f z = g z) -> position f l = position g l.
Proof.
  induction l as [|z l IH]; intros H; simpl; [reflexivity|].
  rewrite (H z (or_introl eq_refl)), IH; [reflexivity|]. intros y Hy. apply H. right. exact Hy.
Qed.

Lemma position_Some {A} (f : A -> bool) (l : list A) (i : nat) :
  position f l = Some i -> exists z, nth_error l i = Some z /\ f z = true.
Proof.
  revert i. induction l as [|z l IH]; intros i; simpl; [discriminate|].
  destruct (f z) eqn:E.
  - intros H. injection H as <-. exists z. auto.
  - destruct (position f l) as [j|] eqn:Ej; simpl; [|discriminate].
    intros H. injection H as <-. apply (IH j eq_refl).
Qed.

Lemma position_None {A} (f : A -> bool) (l : list A) :
  position f l = None -> forall z, In z l -> f z = false.
Proof.
  induction l as [|y l IH]; simpl; [tauto|].
  destruct (f y) eqn:E; [discriminate|].
  destruct (position f l); simpl; [discriminate|]. intros _ z [<-|Hz]; [exact E|apply IH; auto].
Qed.

Lemma min_class_uniform (dfa : DFA) (B : Ids) (c : option nat) :
  B <> [] -> (forall y, In y B -> tclass dfa y = c) -> min_class dfa B = c.
Proof.
  unfold min_class. intros Hne H.
  assert (G : forall L acc, (forall y, In y L -> tclass dfa y = c) ->
    (acc = None \/ acc = c) -> (L <> [] \/ acc = c) ->
    fold_left (fun acc id =>
      match class (nth id dfa state_sink), acc with
      | Some c, Some m => Some (Nat.min m c)
      | Some c, None => Some c
      | None, _ => acc
      end) L acc = c).
  { induction L as [|y L IH]; intros acc HL Ha Hn; simpl.
    - destruct Hn as [Hn|Hn]; [contradiction|exact Hn].
    - pose proof (HL y (or_introl eq_refl)) as Hy. unfold tclass in Hy. rewrite Hy.
      apply IH; [intros z Hz; apply HL; right; exact Hz| |].
      + destruct c as [v|]; [|exact Ha]. right.
        destruct Ha as [-> | ->]; [reflexivity|]. rewrite Nat.min_id. reflexivity.
      + right. destruct c as [v|]; [|destruct Ha; auto].
        destruct Ha as [-> | ->]; [reflexivity|]. rewrite Nat.min_id. reflexivity. }
  apply G; auto.
Qed.

Lemma dfa_step_tstep (dfa : DFA) (s : nat) (a : byte) :
  (s < length dfa)%nat -> dfa_step dfa s a = Some (tstep dfa s a).
Proof.
  intros H. unfold dfa_step, tstep. rewrite (nth_error_nth' dfa state_sink H). reflexivity.
Qed.

Lemma dfa_class_tclass (dfa : DFA) (s : nat) :
  (s < length dfa)%nat -> dfa_class dfa s = Some (tclass dfa s).
Proof.
  intros H. unfold dfa_class, tclass. rewrite (nth_error_nth' dfa state_sink H). reflexivity.
Qed.

Lemma dfa_run_trun (dfa : DFA) (w : list byte) :
  (forall s a, (s < length dfa)%nat -> (tstep dfa s a < length dfa)%nat) ->
  forall s, (s < length dfa)%nat ->
  dfa_run dfa s w = Some (trun dfa s w) /\ (trun dfa s w < length dfa)%nat.
Proof.
  intros Ht. induction w as [|a w IH]; intros s Hs; simpl; [auto|].
  rewrite (dfa_step_tstep dfa s a Hs). apply IH, Ht, Hs.
Qed.

Lemma sink_loop_dead (dfa : DFA) :
  (forall a, dfa_step dfa 0 a = Some 0%nat) -> dfa_class dfa 0 = Some None ->
  forall w, exists id, dfa_run dfa 0 w = Some id /\ dfa_class dfa id = Some None.
Proof.
  intros Hs Hc w. exists 0%nat. induction w as [|a w IH]; simpl; [auto|].
  rewrite Hs. exact IH.
Qed.

Section Minimize.

Variables (dfa : DFA) (P : list Ids).
Let n := length dfa.
Hypothesis Htarget : forall s a, (s < n)%nat -> (tstep dfa s a < n)%nat.
Hypothesis Hdead0 : dead dfa 0.
Hypothesis HP : hop_inv dfa [] P [].
Hypothesis Hn : (1 < n)%nat.

Lemma P_stable (B C : Ids) (x y : nat) (a : byte) :
  In B P -> In C P -> In x B -> In y B ->
  (In (tstep dfa x a) C <-> In (tstep dfa y a) C).
Proof.
  intros HB HC Hx Hy. destruct HP as (_ & _ & Hg).
  apply (gen_nil_stable dfa P _ (Hg C HC) a B x y HB Hx Hy).
Qed.

Lemma P_head : exists B0 P1, P = B0 :: P1 /\ In 0%nat B0.
Proof.
  destruct HP as ((Hs & Hb & Hc & Hdis) & _).
  destruct P as [|B0 P1] eqn:EP.
  - destruct (Hc 0%nat ltac:(lia)) as (B & [] & _).
  - exists B0, P1. split; [reflexivity|]. apply first_block with (P := P1); auto.
    + intros B HB. destruct (Hb B HB) as (H1 & H2 & _). auto.
    + apply Hc. lia.
    + intros y C Hy. lia.
Qed.

Lemma P_pair (w : list byte) : forall B x y, In B P -> In x B -> In y B ->
  exists C, In C P /\ In (trun dfa x w) C /\ In (trun dfa y w) C.
Proof.
  pose proof HP as ((_ & Hb & Hc & _) & _).
  induction w as [|a w IH]; intros B x y HB Hx Hy; simpl; [exists B; auto|].
  assert (Lx : (x < n)%nat) by (apply (Hb B HB), Hx).
  destruct (Hc _ (Htarget x a Lx)) as (C & HC & HxC).
  apply (IH C); auto. apply (P_stable B C x y a HB HC Hx Hy). exact HxC.
Qed.

Lemma P_dead (B : Ids) (x : nat) : In B P -> In x B -> In 0%nat B -> dead dfa x.
Proof.
  intros HB Hx H0' w. pose proof HP as (_ & Hu & _).
  destruct (P_pair w B x 0%nat HB Hx H0') as (C & HC & H1 & H2).
  rewrite (Hu C _ _ HC H1 H2). apply Hdead0.
Qed.

Hypothesis Hlive : exists w c, run_class dfa w = Some (Some c).

Lemma P_second : exists B0 B1 P2, P = B0 :: B1 :: P2 /\ In 0%nat B0 /\ In 1%nat B1.
Proof.
  destruct P_head as (B0 & P1 & EP & H0).
  pose proof HP as ((Hs & Hb & Hc & Hdis) & Hu & _).
  assert (HB0 : In B0 P) by (rewrite EP; left; reflexivity).
  assert (N1 : ~ In 1%nat B0).
  { intros H1. destruct Hlive as (w & c & Hw). unfold run_class in Hw.
    destruct (dfa_run_trun dfa w Htarget 1%nat Hn) as (Er & Lr). rewrite Er in Hw.
    rewrite dfa_class_tclass in Hw by exact Lr.
    rewrite (P_dead B0 1%nat HB0 H1 H0 w) in Hw. discriminate. }
  assert (NB0 : ~ In B0 P1).
  { pose proof (sorted_NoDup P Hs) as Hnd. rewrite EP in Hnd. inversion Hnd; auto. }
  rewrite EP in Hs, Hb, Hc, Hdis.
  destruct P1 as [|B1 P2].
  - destruct (Hc 1%nat Hn) as (B & [<-|[]] & HB). contradiction.
  - exists B0, B1, P2. split; [exact EP|split; [exact H0|]].
    inversion Hs as [|? ? Hs1 _]; subst.
    apply first_block with (P := P2); auto.
    + intros B HB. destruct (Hb B (or_intror HB)) as (X1 & X2 & _). auto.
    + intros B C x HB HC. apply Hdis; right; assumption.
    + destruct (Hc 1%nat Hn) as (B & [<-|HB] & H1); [contradiction|]. exists B. auto.
    + intros y C Hy HC HyC. assert (y = 0%nat) as -> by lia.
      assert (C = B0) as -> by (apply (Hdis C B0 0%nat); [right|left|..]; auto).
      contradiction.
Qed.

Hypothesis Hkeys : forall s, (s < n)%nat -> NoDup (map fst (next (nth s dfa state_sink))).

Variables (B0 : Ids) (rest : list Ids).
Hypothesis EP : P = B0 :: rest.
Hypothesis H0 : In 0%nat B0.

Lemma P_block_lt (B : Ids) (x : nat) : In B P -> In x B -> (x < n)%nat.
Proof. intros HB Hx. destruct HP as ((_ & Hb & _) & _). apply (Hb B HB), Hx. Qed.

Lemma position_uniform (B : Ids) (x y : nat) (c : byte) :
  In B P -> In x B -> In y B ->
  position (ids_mem (tstep dfa y c)) rest = position (ids_mem (tstep dfa x c)) rest.
Proof.
  intros HB Hx Hy. apply position_ext. intros C HC.
  assert (HCP : In C P) by (rewrite EP; right; exact HC).
  apply Bool.eq_iff_eq_true. rewrite !ids_mem_In. apply (P_stable B C y x c); assumption.
Qed.

Lemma mn_step_get (B : Ids) (x y : nat) (b : byte) (d : nat) (nx : ByteMap) (c : byte) :
  In B P -> In x B -> In y B -> In (b, d) (next (nth y dfa state_sink)) ->
  map_get (mn_step rest nx (b, d)) c =
  if Byte.eqb c b then
    match map_get nx b with
    | Some v => Some v
    | None => option_map S (position (ids_mem (tstep dfa x b)) rest)
    end
  else map_get nx c.
Proof.
  intros HB Hx Hy Hbd.
  assert (Ed : tstep dfa y b = d).
  { unfold tstep. rewrite (map_get_NoDup _ b d (Hkeys y (P_block_lt B y HB Hy)) Hbd). reflexivity. }
  rewrite <- (position_uniform B x y b HB Hx Hy), Ed.
  unfold mn_step. destruct (map_get nx b) as [v|] eqn:E.
  - destruct (Byte.eqb c b) eqn:Ec; [|reflexivity]. apply byte_eqb_iff in Ec. subst. exact E.
  - destruct (position (ids_mem d) rest) as [id|] eqn:Ep.
    + rewrite map_insert_get. reflexivity.
    + destruct (Byte.eqb c b) eqn:Ec; [|reflexivity]. apply byte_eqb_iff in Ec. subst. exact E.
Qed.

Lemma mn_inner (B : Ids) (x y : nat) : In B P -> In x B -> In y B ->
  forall es nx, (forall e, In e es -> In e (next (nth y dfa state_sink))) ->
  (forall c, map_get nx c = None \/
             map_get nx c = option_map S (position (ids_mem (tstep dfa x c)) rest)) ->
  (forall c, map_get (fold_left (mn_step rest) es nx) c = None \/
             map_get (fold_left (mn_step rest) es nx) c =
             option_map S (position (ids_mem (tstep dfa x c)) rest)) /\
  (forall c, In c (map fst es) \/
             map_get nx c = option_map S (position (ids_mem (tstep dfa x c)) rest) ->
   map_get (fold_left (mn_step rest) es nx) c =
   option_map S (position (ids_mem (tstep dfa x c)) rest)).
Proof.
  intros HB Hx Hy. induction es as [|[b d] es IH]; intros nx Hes J; simpl.
  - split; [exact J|]. intros c [[]|H]. exact H.
  - assert (Hbd : In (b, d) (next (nth y dfa state_sink))) by (apply Hes; left; reflexivity).
    destruct (IH (mn_step rest nx (b, d))) as [J1 D1].
    + intros e He. apply Hes. right. exact He.
    + intros c. rewrite (mn_step_get B x y b d nx c HB Hx Hy Hbd).
      destruct (Byte.eqb c b) eqn:Ec; [|apply J].
      apply byte_eqb_iff in Ec. subst c. destruct (J b) as [E|E]; rewrite E; [right; reflexivity|].
      destruct (option_map S _); [right; reflexivity|right; reflexivity].
    + split; [exact J1|]. intros c Hc. apply D1.
      destruct Hc as [[Ec|Hc]|Hc]; [| left; exact Hc|].
      * right. subst c. rewrite (mn_step_get B x y b d nx b HB Hx Hy Hbd), byte_eqb_refl.
        destruct (J b) as [E|E]; rewrite E; [reflexivity|].
        destruct (option_map S _); reflexivity.
      * right. rewrite (mn_step_get B x y b d nx c HB Hx Hy Hbd).
        destruct (Byte.eqb c b) eqn:Ec; [|exact Hc].
        apply byte_eqb_iff in Ec. subst c. rewrite Hc. destruct (option_map S _); reflexivity.
Qed.

Lemma mn_outer (B : Ids) (x : nat) : In B P -> In x B ->
  forall L nx, (forall y, In y L -> In y B) ->
  (forall c, map_get nx c = None \/
             map_get nx c = option_map S (position (ids_mem (tstep dfa x c)) rest)) ->
  (forall c, map_get nx c = option_map S (position (ids_mem (tstep dfa x c)) rest)) ->
  forall c, map_get (fold_left (fun nx source =>
      fold_left (mn_step rest) (next (nth source dfa state_sink)) nx) L nx) c =
    option_map S (position (ids_mem (tstep dfa x c)) rest).
Proof.
  intros HB Hx. induction L as [|y L IH]; intros nx HL J Full; simpl; [exact Full|].
  assert (Hy : In y B) by (apply HL; left; reflexivity).
  destruct (mn_inner B x y HB Hx Hy (next (nth y dfa state_sink)) nx (fun e He => He) J) as [J1 D1].
  apply IH; [intros z Hz; apply HL; right; exact Hz|exact J1|].
  intros c. apply D1. right. apply Full.
Qed.

Lemma not_in_rest_0 (C : Ids) : In C rest -> ~ In 0%nat C.
Proof.
  intros HC H. destruct HP as ((Hs & _ & _ & Hdis) & _).
  assert (C = B0) as ->.
  { apply (Hdis C B0 0%nat); [rewrite EP; right; exact HC|rewrite EP; left; reflexivity|exact H|exact H0]. }
  pose proof (sorted_NoDup P Hs) as Hnd. rewrite EP in Hnd. inversion Hnd; contradiction.
Qed.

Lemma minimize_next_spec (B : Ids) (x : nat) (c : byte) : In B P -> In x B ->
  map_get (minimize_next dfa rest B) c = option_map S (position (ids_mem (tstep dfa x c)) rest).
Proof.
  intros HB Hx. rewrite minimize_next_eq.
  destruct B as [|y0 L] eqn:EB; [destruct Hx|]. simpl. rewrite <- EB in HB, Hx.
  assert (Hy0 : In y0 B) by (rewrite EB; left; reflexivity).
  destruct (mn_inner B x y0 HB Hx Hy0 (next (nth y0 dfa state_sink)) [] (fun e He => He))
    as [J1 D1]; [intros b; left; reflexivity|].
  apply (mn_outer B x HB Hx L); [intros z Hz; rewrite EB; right; exact Hz|exact J1|].
  intros b. destruct (in_dec Byte.byte_eq_dec b (map fst (next (nth y0 dfa state_sink)))) as [Hin|Hnin].
  - apply D1. left. exact Hin.
  - destruct (J1 b) as [E|E]; [|exact E]. rewrite E.
    rewrite <- (position_uniform B x y0 b HB Hx Hy0).
    assert (T0 : tstep dfa y0 b = 0%nat).
    { unfold tstep. destruct (map_get (next (nth y0 dfa state_sink)) b) as [v|] eqn:Ev; [|reflexivity].
      exfalso. apply Hnin. apply map_get_In in Ev. apply (in_map fst) in Ev. exact Ev. }
    rewrite T0. destruct (position (ids_mem 0%nat) rest) as [id|] eqn:Ep; [|reflexivity].
    exfalso. destruct (position_Some _ _ _ Ep) as (C & HC & Hm).
    apply nth_error_In in HC. apply ids_mem_In in Hm. apply (not_in_rest_0 C HC Hm).
Qed.

Definition sim_rel (x k : nat) : Prop :=
  (x < n)%nat /\
  match k with
  | 0%nat => dead dfa x
  | S _ => exists B, nth_error P k = Some B /\ In x B
  end.

Lemma sim_step (x k : nat) (a : byte) : sim_rel x k ->
  exists k', dfa_step (minimized_states dfa rest) k a = Some k' /\ sim_rel (tstep dfa x a) k'.
Proof.
  intros (Lx & Rk). pose proof HP as ((_ & Hb & Hc & Hdis) & _).
  assert (Lt : (tstep dfa x a < n)%nat) by (apply Htarget, Lx).
  destruct k as [|j].
  - exists 0%nat. split; [reflexivity|]. split; [exact Lt|].
    intros w. apply (Rk (a :: w)).
  - destruct Rk as (B & EB & Hx).
    assert (HBP : In B P) by (apply nth_error_In in EB; exact EB).
    assert (EB' : nth_error rest j = Some B) by (rewrite EP in EB; exact EB).
    unfold dfa_step. simpl nth_error. rewrite nth_error_map, EB'. simpl.
    rewrite (minimize_next_spec B x a HBP Hx).
    destruct (position (ids_mem (tstep dfa x a)) rest) as [id|] eqn:Ep; simpl.
    + exists (S id). split; [reflexivity|]. split; [exact Lt|].
      destruct (position_Some _ _ _ Ep) as (C & HC & Hm). exists C.
      split; [rewrite EP; exact HC|]. apply ids_mem_In, Hm.
    + exists 0%nat. split; [reflexivity|]. split; [exact Lt|].
      destruct (Hc _ Lt) as (D & HD & HtD). pose proof HD as HD'. rewrite EP in HD'.
      destruct HD' as [<-|HD']; [exact (P_dead B0 _ HD HtD H0)|].
      exfalso. pose proof (position_None _ _ Ep D HD') as F.
      apply ids_mem_In in HtD. congruence.
Qed.

Lemma sim_class (x k : nat) : sim_rel x k ->
  dfa_class (minimized_states dfa rest) k = Some (tclass dfa x).
Proof.
  intros (Lx & Rk). pose proof HP as ((_ & Hb & _) & Hu & _).
  destruct k as [|j].
  - pose proof (Rk []) as E. cbn [trun] in E. rewrite E. reflexivity.
  - destruct Rk as (B & EB & Hx).
    assert (HBP : In B P) by (apply nth_error_In in EB; exact EB).
    assert (EB' : nth_error rest j = Some B) by (rewrite EP in EB; exact EB).
    unfold dfa_class. simpl nth_error. rewrite nth_error_map, EB'. simpl. f_equal.
    apply min_class_uniform; [apply (Hb B HBP)|]. intros y Hy. apply (Hu B y x); auto.
Qed.

Lemma sim_run (w : list byte) : forall x k, sim_rel x k ->
  exists x' k', dfa_run dfa x w = Some x' /\
    dfa_run (minimized_states dfa rest) k w = Some k' /\ sim_rel x' k'.
Proof.
  induction w as [|a w IH]; intros x k R; simpl; [exists x, k; auto|].
  destruct (sim_step x k a R) as (k' & Ek & R').
  rewrite (dfa_step_tstep dfa x a (proj1 R)), Ek. apply IH, R'.
Qed.

Lemma sim_run_class (w : list byte) : sim_rel 1 1 ->
  run_class (minimized_states dfa rest) w = run_class dfa w.
Proof.
  intros R. unfold run_class.
  destruct (sim_run w 1 1 R) as (x' & k' & Ex & Ek & R'). rewrite Ex, Ek.
  rewrite (sim_class x' k' R'), dfa_class_tclass by apply R'. reflexivity.
Qed.

End Minimize.

Lemma nodup_bytes_spec (l : list byte) : nodup_bytes l = true -> NoDup l.
Proof.
  induction l as [|x l IH]; simpl; intros H; [constructor|].
  apply andb_true_iff in H. destruct H as [H1 H2]. constructor; [|apply IH, H2].
  intros Hx. apply negb_true_iff in H1.
  assert (existsb (Byte.eqb x) l = true) by (apply existsb_exists; exists x; split; [exact Hx|apply byte_eqb_refl]).
  congruence.
Qed.

Lemma targets_ok_spec (dfa : DFA) : targets_ok dfa = true ->
  forall st b d, In st dfa -> In (b, d) (next st) -> (d < length dfa)%nat.
Proof.
  unfold targets_ok. rewrite forallb_forall. intros H st b d Hst Hbd.
  specialize (H st Hst). rewrite forallb_forall in H. apply (H (b, d)) in Hbd.
  apply Nat.ltb_lt, Hbd.
Qed.

Lemma keys_ok_spec (dfa : DFA) : keys_ok dfa = true ->
  forall st, In st dfa -> NoDup (map fst (next st)).
Proof.
  unfold keys_ok. rewrite forallb_forall. intros H st Hst. apply nodup_bytes_spec, H, Hst.
Qed.

Lemma dfa_run_class_lt (dfa : DFA) (w : list byte) : forall s id c,
  dfa_run dfa s w = Some id -> dfa_class dfa id = Some c -> (s < length dfa)%nat.
Proof.
  induction w as [|a w IH]; intros s id c Er Ec; simpl in Er.
  - injection Er as ->. unfold dfa_class in Ec.
    destruct (nth_error dfa id) eqn:E; [|discriminate]. apply nth_error_Some. congruence.
  - unfold dfa_step in Er. destruct (nth_error dfa s) eqn:E; [|discriminate].
    apply nth_error_Some. congruence.
Qed.

(** C3: for a DFA whose transitions point to states, whose transition
    maps have one entry per symbol, whose state [0] is a sink (no input
    leads from it to a state with an accept class, itself included) and
    whose start state [1] reaches an accepting state,
    [minimize] succeeds, and on every input the minimized DFA matches
    exactly when the DFA does, with the same accept class. *)
Theorem minimize_preserves_matches (dfa : DFA)
  (Htargets : forall st b d, In st dfa -> In (b, d) (next st) -> (d < length dfa)%nat)
  (Hkeys : forall st, In st dfa -> NoDup (map fst (next st)))
  (Hsink : forall w, exists id, dfa_run dfa 0 w = Some id /\ dfa_class dfa id = Some None)
  (Hlive : exists w c, run_class dfa w = Some (Some c)) :
  exists m, minimize dfa = Some m /\
    forall w, matches m w = matches dfa w /\ run_class m w = run_class dfa w.
Proof.
  assert (Hn : (1 < length dfa)%nat).
  { destruct Hlive as (w & c & Hw). unfold run_class in Hw.
    destruct (dfa_run dfa 1 w) as [id|] eqn:Er; [|discriminate].
    apply (dfa_run_class_lt dfa w 1 id (Some c) Er Hw). }
  assert (Ht : forall s a, (s < length dfa)%nat -> (tstep dfa s a < length dfa)%nat).
  { intros s a Hs. unfold tstep.
    destruct (map_get (next (nth s dfa state_sink)) a) as [j|] eqn:E; [|lia].
    apply (Htargets (nth s dfa state_sink) a j); [apply nth_In, Hs|apply map_get_In, E]. }
  assert (Hk : forall s, (s < length dfa)%nat -> NoDup (map fst (next (nth s dfa state_sink)))).
  { intros s Hs. apply Hkeys, nth_In, Hs. }
  assert (Hd0 : dead dfa 0).
  { intros w. destruct (dfa_run_trun dfa w Ht 0%nat ltac:(lia)) as (Er & Lr).
    destruct (Hsink w) as (id & Eid & Ec). rewrite Er in Eid. injection Eid as <-.
    rewrite dfa_class_tclass in Ec by exact Lr. injection Ec as E. exact E. }
  destruct (equivalence_classes_spec dfa) as (P & Ee & HP).
  { intros E. rewrite E in Hn. simpl in Hn. lia. }
  { exact Ht. }
  destruct (P_second dfa P Ht Hd0 HP Hn Hlive) as (B0 & B1 & P2 & EP & H0 & H1).
  exists (minimized_states dfa (B1 :: P2)). split.
  - unfold minimize. rewrite Ee, EP. reflexivity.
  - intros w.
    assert (R : run_class (minimized_states dfa (B1 :: P2)) w = run_class dfa w).
    { apply (sim_run_class dfa P Ht Hd0 HP Hk B0 (B1 :: P2) EP H0 w).
      split; [exact Hn|]. exists B1. rewrite EP. split; [reflexivity|exact H1]. }
    split; [unfold matches; rewrite R; reflexivity|exact R].
Qed.

Lemma minimize_preserves_matches_witness :
  run_class example_dfa ["a"; "b"; "b"]%byte = Some (Some 0%nat) /\
  exists m, minimize example_dfa = Some m /\
    forall w, matches m w = matches example_dfa w /\ run_class m w = run_class example_dfa w.
Proof.
  split; [vm_compute; reflexivity|].
  apply minimize_preserves_matches.
  - apply targets_ok_spec. vm_compute. reflexivity.
  - apply keys_ok_spec. vm_compute. reflexivity.
  - apply sink_loop_dead; [intros a; vm_compute; reflexivity|vm_compute; reflexivity].
  - exists ["a"; "b"; "b"]%byte, 0%nat. vm_compute. reflexivity.
Defined.


(* ================================================================= *)
(** * Further properties *)

(** ** ByteSet: bytes and points *)
Lemma bval_inj (a b : byte) : bval a = bval b -> a = b.
Proof.
  unfold bval. intros H. apply Nat2Z.inj in H.
  pose proof (Byte.of_to_nat a) as Ea. pose proof (Byte.of_to_nat b) as Eb.
  rewrite H, Eb in Ea. injection Ea as ->. reflexivity.
Qed.

Lemma all_bytes_bval : map bval all_bytes = map Z.of_nat (seq 0 256).
Proof. vm_compute. reflexivity. Qed.

Lemma In_all_bytes (x : byte) : In x all_bytes.
Proof.
  assert (H : In (bval x) (map bval all_bytes)).
  { rewrite all_bytes_bval. apply in_map_iff. exists (Byte.to_nat x).
    split; [reflexivity|]. apply in_seq. pose proof (Byte.to_nat_bounded x). lia. }
  apply in_map_iff in H. destruct H as (y & Ey & Hy). apply bval_inj in Ey. subst. exact Hy.
Qed.

Lemma bval_u8_of_Z (z : Z) : 0 <= z < 256 -> bval (u8_of_Z z) = z.
Proof.
  intros Hz. unfold u8_of_Z. rewrite Z.mod_small by lia.
  destruct (Byte.of_nat (Z.to_nat z)) as [b|] eqn:E.
  - apply Byte.to_of_nat in E. unfold bval. rewrite E. lia.
  - apply Byte.of_nat_None_iff in E. lia.
Qed.

Lemma byte_eqb_bval (x v : byte) : Byte.eqb x v = (bval x =? bval v).
Proof.
  destruct (Byte.eqb x v) eqn:E, (Z.eqb_spec (bval x) (bval v)) as [H|H]; auto.
  - apply Byte.byte_dec_bl in E. subst. contradiction.
  - apply bval_inj in H. subst. rewrite Byte.byte_dec_lb in E; [discriminate|reflexivity].
Qed.

(** [point] *)
Lemma point_bit (v x : byte) : contains (point v) x = Byte.eqb x v.
Proof.
  rewrite byte_eqb_bval, contains_testbit.
  pose proof (bval_range v) as Hv. pose proof (bval_range x) as Hx.
  unfold point, encode. cbv zeta.
  assert (E : set_word bs_empty (bval v / WORD_BITS) (Z.shiftl 1 (bval v mod WORD_BITS))
            = set_word_w 8 0 (bval v / 8) (Z.shiftl 1 (bval v mod 8))) by reflexivity.
  rewrite E, testbit_set_word_w, Z.testbit_0_l by (try apply Z.div_pos; lia).
  pose proof (Z.mod_pos_bound (bval x) 8 ltac:(lia)).
  pose proof (Z.mod_pos_bound (bval v) 8 ltac:(lia)).
  rewrite Z.shiftl_1_l, Z.pow2_bits_eqb by lia.
  pose proof (Z.div_mod (bval x) 8 ltac:(lia)). pose proof (Z.div_mod (bval v) 8 ltac:(lia)).
  destruct (Z.eqb_spec (bval x / 8) (bval v / 8)), (Z.eqb_spec (bval v mod 8) (bval x mod 8)),
    (Z.eqb_spec (bval x) (bval v)); simpl; auto; try lia.
Qed.

(** ** ByteSet: ranges *)
Lemma testbit_fold_fill (w s n : Z) (lo len : nat) : 0 < w -> 0 <= n ->
  Z.testbit (fold_left (fun st i => set_word_w w st i (Z.ones w))
     (map Z.of_nat (seq lo len)) s) n =
  (Z.of_nat lo <=? n / w) && (n / w <? Z.of_nat (lo + len)) || Z.testbit s n.
Proof.
  intros Hw Hn. revert lo s. induction len as [|len IH]; intros lo s.
  - simpl. destruct (Z.leb_spec (Z.of_nat lo) (n / w)), (Z.ltb_spec (n / w) (Z.of_nat (lo + 0))); simpl; auto; lia.
  - cbn [seq map fold_left]. rewrite IH, testbit_set_word_w by lia.
    pose proof (Z.mod_pos_bound n w Hw).
    rewrite Z.ones_spec_low by lia.
    destruct (Z.eqb_spec (n / w) (Z.of_nat lo)) as [E|E]; [rewrite E|];
      repeat match goal with
      | |- context [Z.leb ?x ?y] => destruct (Z.leb_spec x y)
      | |- context [Z.ltb ?x ?y] => destruct (Z.ltb_spec x y)
      end; simpl; auto; lia.
Qed.

Lemma range_w_bits (w : Z) (a b : byte) (n : Z) : 0 < w -> bval a <= bval b -> 0 <= n ->
  Z.testbit (range_w w a b) n = (bval a <=? n) && (n <=? bval b).
Proof.
  intros Hw Hab Hn. pose proof (bval_range a). pose proof (bval_range b).
  set (A := bval a) in *. set (B := bval b) in *.
  assert (Ha0 : 0 <= A / w) by (apply Z.div_pos; lia).
  assert (Hb0 : 0 <= B / w) by (apply Z.div_pos; lia).
  assert (Hq : A / w <= B / w) by (apply Z.div_le_mono; lia).
  assert (M1 : n <= A -> n / w <= A / w) by (intros; apply Z.div_le_mono; lia).
  assert (M2 : A <= n -> A / w <= n / w) by (intros; apply Z.div_le_mono; lia).
  assert (M3 : n <= B -> n / w <= B / w) by (intros; apply Z.div_le_mono; lia).
  assert (M4 : B <= n -> B / w <= n / w) by (intros; apply Z.div_le_mono; lia).
  pose proof (Z.mod_pos_bound A w Hw). pose proof (Z.mod_pos_bound B w Hw).
  pose proof (Z.mod_pos_bound n w Hw).
  unfold range_w. fold A B. cbv zeta.
  destruct (Z.eqb_spec (A / w) (B / w)) as [E|E].
  - rewrite testbit_set_word_w, Z.testbit_0_l by lia.
    destruct (Z.eqb_spec (n / w) (A / w)) as [Na|Na].
    + rewrite Z.land_spec, first_word_bit, last_word_bit by lia.
      rewrite (same_word_le w A n Hw ltac:(lia)), (same_word_le w n B Hw ltac:(lia)). reflexivity.
    + destruct (Z.leb_spec A n), (Z.leb_spec n B); simpl; auto; lia.
  - rewrite testbit_set_word_w by lia.
    destruct (Z.eqb_spec (n / w) (B / w)) as [Nb|Nb].
    + rewrite last_word_bit by lia. rewrite (same_word_le w n B Hw Nb).
      destruct (Z.leb_spec A n); simpl; [reflexivity|lia].
    + rewrite testbit_fold_fill, testbit_set_word_w, Z.testbit_0_l by lia.
      rewrite Nat2Z.inj_add, !Z2Nat.id by lia.
      destruct (Z.eqb_spec (n / w) (A / w)) as [Na|Na].
      * rewrite first_word_bit by lia. rewrite (same_word_le w A n Hw ltac:(lia)).
        destruct (Z.leb_spec (A / w + 1) (n / w)); [lia|]. simpl.
        destruct (Z.leb_spec n B); [rewrite andb_true_r; reflexivity|lia].
      * rewrite orb_false_r.
        destruct (Z.leb_spec (A / w + 1) (n / w)), (Z.ltb_spec (n / w) (A / w + 1 + (B / w - (A / w + 1)))),
          (Z.leb_spec A n), (Z.leb_spec n B); simpl; auto; lia.
Qed.

(** [range] *)
(** X2 (ByteSet::range, CharSet::range): for [from <= to], the range set contains exactly the bytes between [from] and [to] inclusive, in both the 8-bit-word and the 32-bit-word layouts. *)
Theorem range_contains (a b x : byte) : bval a <= bval b ->
  contains (range a b) x = (bval a <=? bval x) && (bval x <=? bval b) /\
  Z.testbit (charset_range a b) (bval x) = (bval a <=? bval x) && (bval x <=? bval b).
Proof.
  intros H. pose proof (bval_range x). split.
  - rewrite contains_testbit. apply range_w_bits; lia.
  - apply range_w_bits; lia.
Qed.

(** ** ByteSet: emptiness, smallest member, set operations *)
Lemma word_range (s i : Z) : 0 <= word s i < 256.
Proof.
  unfold word, WORD_MAX. change 255 with (Z.ones 8). rewrite Z.land_ones by lia.
  apply Z.mod_pos_bound. lia.
Qed.

Lemma first_gen (s : ByteSet) (k len : nat) :
  match find (fun p => negb (snd p =? 0)) (map (fun i => (i, word s i)) (map Z.of_nat (seq k len))) with
  | Some (i, w) => Z.of_nat k <= i < Z.of_nat (k + len) /\ w = word s i /\ w <> 0 /\
                   forall j, Z.of_nat k <= j < i -> word s j = 0
  | None => forall j, Z.of_nat k <= j < Z.of_nat (k + len) -> word s j = 0
  end.
Proof.
  revert k. induction len as [|len IH]; intros k; simpl.
  - intros j Hj. lia.
  - destruct (Z.eqb_spec (word s (Z.of_nat k)) 0) as [E|E]; simpl.
    + specialize (IH (S k)).
      destruct (find _ _) as [[i w]|].
      * destruct IH as (Hi & Hw & Hnz & Hb). split; [lia|]. split; [exact Hw|]. split; [exact Hnz|].
        intros j Hj. destruct (Z.eq_dec j (Z.of_nat k)) as [->|Hjk]; [exact E|]. apply Hb. lia.
      * intros j Hj. destruct (Z.eq_dec j (Z.of_nat k)) as [->|Hjk]; [exact E|]. apply IH. lia.
    + split; [lia|]. split; [reflexivity|]. split; [exact E|]. intros j Hj. lia.
Qed.

Lemma first_spec (s : ByteSet) :
  match first s with
  | Some (i, w) => 0 <= i < 32 /\ w = word s i /\ w <> 0 /\ forall j, 0 <= j < i -> word s j = 0
  | None => forall j, 0 <= j < 32 -> word s j = 0
  end.
Proof. exact (first_gen s 0 32). Qed.

Lemma tz_all : forallb (fun w =>
    (0 <=? trailing_zeros w) && (trailing_zeros w <? 8) && Z.testbit w (trailing_zeros w) &&
    forallb (fun k => (trailing_zeros w <=? k) || negb (Z.testbit w k)) (map Z.of_nat (seq 0 8)))
  (map Z.of_nat (seq 1 255)) = true.
Proof. vm_compute. reflexivity. Qed.

Lemma tz_spec (w : Z) : 0 < w < 256 ->
  0 <= trailing_zeros w < 8 /\ Z.testbit w (trailing_zeros w) = true /\
  forall k, 0 <= k < trailing_zeros w -> Z.testbit w k = false.
Proof.
  intros Hw. pose proof tz_all as H. rewrite forallb_forall in H.
  assert (Hin : In w (map Z.of_nat (seq 1 255))).
  { apply in_map_iff. exists (Z.to_nat w). split; [lia|]. apply in_seq. lia. }
  specialize (H w Hin). rewrite !andb_true_iff in H.
  destruct H as (((H1 & H2) & H3) & H4). apply Z.leb_le in H1. apply Z.ltb_lt in H2.
  split; [lia|]. split; [exact H3|]. intros k Hk.
  rewrite forallb_forall in H4.
  assert (Hk' : In k (map Z.of_nat (seq 0 8))).
  { apply in_map_iff. exists (Z.to_nat k). split; [lia|]. apply in_seq. lia. }
  specialize (H4 k Hk'). apply orb_true_iff in H4. destruct H4 as [H4|H4].
  - apply Z.leb_le in H4. lia.
  - apply negb_true_iff in H4. exact H4.
Qed.

Lemma testbit_bval_word (s : ByteSet) (x : byte) :
  Z.testbit s (bval x) = Z.testbit (word s (bval x / 8)) (bval x mod 8).
Proof.
  pose proof (bval_range x). rewrite word_testbit by (try apply Z.div_pos; try apply Z.mod_pos_bound; lia).
  rewrite <- Z.div_mod by lia. reflexivity.
Qed.

Lemma is_empty_words (s : ByteSet) :
  is_empty s = true <-> forall j, 0 <= j < 32 -> word s j = 0.
Proof.
  unfold is_empty. rewrite forallb_forall. split.
  - intros H j Hj. apply Z.eqb_eq, H, in_word_indices, Hj.
  - intros H i Hi. apply Z.eqb_eq, H, in_word_indices, Hi.
Qed.

Lemma smallest_some (s : ByteSet) (i w : Z) : first s = Some (i, w) ->
  exists v, smallest s = Some v /\ bval v = 8 * i + trailing_zeros w.
Proof.
  intros E. pose proof (first_spec s) as F. rewrite E in F.
  destruct F as (Hi & -> & Hnz & _). pose proof (word_range s i).
  destruct (tz_spec (word s i) ltac:(lia)) as (Ht & _).
  unfold smallest. rewrite E. unfold decode, WORD_BITS.
  destruct (Byte.of_nat (Z.to_nat (8 * i + trailing_zeros (word s i)))) as [v|] eqn:Ev.
  - exists v. split; [reflexivity|]. apply Byte.to_of_nat in Ev. unfold bval. rewrite Ev. lia.
  - apply Byte.of_nat_None_iff in Ev. lia.
Qed.

(** [smallest] *)
(** X4 (ByteSet::smallest, ByteSet::first): [smallest] is [None] exactly on the empty set, and otherwise returns a member no larger than any other member. *)
Theorem smallest_spec (s : ByteSet) :
  (smallest s = None <-> is_empty s = true) /\
  forall v, smallest s = Some v ->
    contains s v = true /\ forall x, contains s x = true -> bval v <= bval x.
Proof.
  pose proof (first_spec s) as F. destruct (first s) as [[i w]|] eqn:E.
  - destruct (smallest_some s i w E) as (v & Ev & Hv). rewrite Ev.
    destruct F as (Hi & Hw & Hnz & Hb). pose proof (word_range s i).
    destruct (tz_spec w ltac:(lia)) as (Ht & Hbit & Hlow).
    split.
    + split; [discriminate|]. intros He. exfalso. rewrite is_empty_words in He. apply Hnz. rewrite Hw. apply He. lia.
    + intros v' Ev'. injection Ev' as <-. split.
      * rewrite contains_testbit, Hv, <- word_testbit, <- Hw by lia. exact Hbit.
      * intros x Hx. rewrite contains_testbit, testbit_bval_word in Hx.
        pose proof (bval_range x). pose proof (Z.div_mod (bval x) 8 ltac:(lia)).
        pose proof (Z.mod_pos_bound (bval x) 8 ltac:(lia)).
        assert (Hj0 : 0 <= bval x / 8) by (apply Z.div_pos; lia).
        destruct (Z.lt_trichotomy (bval x / 8) i) as [Lt|[Eq|Gt]].
        -- rewrite (Hb _ (conj Hj0 Lt)), Z.testbit_0_l in Hx. discriminate.
        -- rewrite Eq, <- Hw in Hx. destruct (Z.lt_ge_cases (bval x mod 8) (trailing_zeros w)) as [L|L].
           ++ rewrite Hlow in Hx by lia. discriminate.
           ++ lia.
        -- lia.
  - split.
    + unfold smallest. rewrite E. split; [intros _|reflexivity]. apply is_empty_words, F.
    + intros v Ev. unfold smallest in Ev. rewrite E in Ev. discriminate.
Qed.

(** [is_empty] *)
(** X3 (ByteSet::is_empty): a set is reported empty exactly when it contains no byte. *)
Theorem is_empty_spec (s : ByteSet) :
  is_empty s = true <-> forall x, contains s x = false.
Proof.
  split; [apply is_empty_true|]. intros H. destruct (is_empty s) eqn:E; [reflexivity|].
  destruct (is_empty_false s E) as (a & Ha). rewrite H in Ha. discriminate.
Qed.

(** [complement], [intersection], [union] *)
(** X5 (ByteSet::complement, intersection, union): membership in the complement, intersection and union is negation, conjunction and disjunction of membership. *)
Theorem set_ops_contains (s t : ByteSet) (x : byte) :
  contains (complement s) x = negb (contains s x) /\
  contains (intersection s t) x = contains s x && contains t x /\
  contains (union s t) x = contains s x || contains t x.
Proof.
  split; [apply contains_complement|]. split; [apply contains_inter|apply contains_union].
Qed.

(** ** ByteSet: the Bytes iterator *)
Lemma wbits_all : forallb (fun w =>
    if list_eq_dec Z.eq_dec (wbits w) (trailing_zeros w :: wbits (Z.land w (w - 1)))
    then (0 <=? Z.land w (w - 1)) && (Z.land w (w - 1) <? 256) else false)
  (zrange 1 255) = true.
Proof. vm_compute. reflexivity. Qed.

Lemma wbits_step (w : Z) : 0 < w < 256 ->
  wbits w = trailing_zeros w :: wbits (Z.land w (w - 1)) /\ 0 <= Z.land w (w - 1) < 256.
Proof.
  intros Hw. pose proof wbits_all as H. rewrite forallb_forall in H.
  assert (Hin : In w (zrange 1 255)).
  { apply in_map_iff. exists (Z.to_nat w). split; [lia|]. apply in_seq. lia. }
  specialize (H w Hin). destruct (list_eq_dec Z.eq_dec _ _) as [E|]; [|discriminate].
  rewrite andb_true_iff, Z.leb_le, Z.ltb_lt in H. auto.
Qed.

Lemma wbits_0 : wbits 0 = [].
Proof. reflexivity. Qed.

Lemma zrange_shift (a n : nat) : zrange a n = map (fun k => Z.of_nat a + k) (zrange 0 n).
Proof.
  unfold zrange. induction n as [|n IH]; [reflexivity|].
  rewrite !seq_S, !map_app, IH. simpl. f_equal. f_equal. lia.
Qed.

Lemma filter_map_comm {A B} (g : B -> bool) (h : A -> B) (l : list A) :
  filter g (map h l) = map h (filter (fun x => g (h x)) l).
Proof. induction l as [|x l IH]; simpl; [reflexivity|]. destruct (g (h x)); simpl; rewrite IH; reflexivity. Qed.

Lemma filter_block (s : ByteSet) (j : nat) :
  filter (Z.testbit s) (zrange (8 * j) 8) =
  map (fun k => 8 * Z.of_nat j + k) (wbits (word s (Z.of_nat j))).
Proof.
  rewrite zrange_shift, filter_map_comm. unfold wbits. rewrite Nat2Z.inj_mul. f_equal.
  apply filter_ext_in. intros k Hk. unfold zrange in Hk. apply in_map_iff in Hk.
  destruct Hk as (n & <- & Hn). apply in_seq in Hn.
  rewrite word_testbit by lia. reflexivity.
Qed.

Lemma filter_blocks (s : ByteSet) (j m : nat) :
  filter (Z.testbit s) (zrange (8 * j) (8 * S m)) =
  filter (Z.testbit s) (zrange (8 * j) 8) ++ filter (Z.testbit s) (zrange (8 * S j) (8 * m)).
Proof.
  unfold zrange. replace (8 * S m)%nat with (8 + 8 * m)%nat by lia.
  rewrite seq_app, map_app, filter_app. f_equal. f_equal. f_equal. f_equal. lia.
Qed.

Lemma filter_zero_prefix (s : ByteSet) (m j : nat) :
  (forall k, (j <= k < j + m)%nat -> word s (Z.of_nat k) = 0) ->
  filter (Z.testbit s) (zrange (8 * j) (8 * m)) = [].
Proof.
  revert j. induction m as [|m IH]; intros j H; [reflexivity|].
  rewrite filter_blocks, filter_block, H by lia. rewrite wbits_0. cbn [map app].
  apply IH. intros k Hk. apply H. lia.
Qed.

Lemma iter_rest_zero (s : ByteSet) (i : nat) : (i < 31)%nat ->
  iter_rest s i 0 = iter_rest s (S i) (word s (Z.of_nat (S i))).
Proof.
  intros Hi. unfold iter_rest. rewrite wbits_0. cbn [map app].
  replace (256 - 8 * S i)%nat with (8 * S (31 - S i))%nat by lia.
  rewrite filter_blocks, filter_block. replace (256 - 8 * S (S i))%nat with (8 * (31 - S i))%nat by lia. reflexivity.
Qed.

Lemma bytes_next_spec (s : ByteSet) (fuel i : nat) (w : Z) :
  (i <= 32)%nat -> 0 <= w < 256 -> (i = 32%nat -> w = 0) -> (31 - i <= fuel)%nat ->
  match bytes_next fuel s (Z.of_nat i, w) with
  | None => iter_rest s i w = []
  | Some (b, (i', w')) => exists j, i' = Z.of_nat j /\ (j <= 32)%nat /\ 0 <= w' < 256 /\
      (j = 32%nat -> w' = 0) /\ iter_rest s i w = bval b :: iter_rest s j w'
  end.
Proof.
  revert i w. induction fuel as [|f IH]; intros i w Hi Hw H32 Hf.
  - assert (i >= 31)%nat by lia. cbn [bytes_next].
    destruct (Z.eqb_spec w 0) as [->|Hnz].
    + destruct (Z.ltb_spec (Z.of_nat i) (NUM_WORDS - 1)) as [L|L]; [unfold NUM_WORDS in L; lia|].
      unfold iter_rest. rewrite wbits_0. replace (256 - 8 * S i)%nat with O by lia. reflexivity.
    + assert (i < 32)%nat by (destruct (Nat.eq_dec i 32); [specialize (H32 e); lia|lia]).
      exists i. destruct (wbits_step w ltac:(lia)) as (Ew & Hw').
      split; [reflexivity|]. split; [lia|]. split; [exact Hw'|]. split; [lia|].
      unfold iter_rest. rewrite Ew. simpl. f_equal.
      pose proof (tz_spec w ltac:(lia)). unfold decode, WORD_BITS. rewrite bval_u8_of_Z by lia. reflexivity.
  - cbn [bytes_next]. destruct (Z.eqb_spec w 0) as [->|Hnz].
    + destruct (Z.ltb_spec (Z.of_nat i) (NUM_WORDS - 1)) as [L|L]; unfold NUM_WORDS in L.
      * replace (Z.of_nat i + 1) with (Z.of_nat (S i)) by lia.
        pose proof (IH (S i) (word s (Z.of_nat (S i))) ltac:(lia) (word_range _ _) ltac:(lia) ltac:(lia)) as R.
        rewrite iter_rest_zero by lia. exact R.
      * unfold iter_rest. rewrite wbits_0. replace (256 - 8 * S i)%nat with O by lia. reflexivity.
    + assert (i < 32)%nat by (destruct (Nat.eq_dec i 32); [specialize (H32 e); lia|lia]).
      exists i. destruct (wbits_step w ltac:(lia)) as (Ew & Hw').
      split; [reflexivity|]. split; [lia|]. split; [exact Hw'|]. split; [lia|].
      unfold iter_rest. rewrite Ew. simpl. f_equal.
      pose proof (tz_spec w ltac:(lia)). unfold decode, WORD_BITS. rewrite bval_u8_of_Z by lia. reflexivity.
Qed.

Lemma bytes_collect_spec (s : ByteSet) (fuel i : nat) (w : Z) :
  (i <= 32)%nat -> 0 <= w < 256 -> (i = 32%nat -> w = 0) ->
  (length (iter_rest s i w) < fuel)%nat ->
  map bval (bytes_collect fuel s (Z.of_nat i, w)) = iter_rest s i w.
Proof.
  revert i w. induction fuel as [|f IH]; intros i w Hi Hw H32 Hf; [lia|].
  cbn [bytes_collect]. pose proof (bytes_next_spec s 32 i w Hi Hw H32 ltac:(lia)) as R.
  destruct (bytes_next 32 s (Z.of_nat i, w)) as [[b [i' w']]|]; [|rewrite R; reflexivity].
  destruct R as (j & -> & Hj & Hw' & H32' & E). rewrite E in Hf |- *. simpl in Hf |- *.
  f_equal. apply IH; auto. lia.
Qed.

Lemma iter_rest_length (s : ByteSet) (i : nat) (w : Z) : (length (iter_rest s i w) <= 256)%nat.
Proof.
  unfold iter_rest. rewrite length_app, length_map.
  pose proof (filter_length_le (Z.testbit w) (zrange 0 8)) as H1.
  pose proof (filter_length_le (Z.testbit s) (zrange (8 * S i) (256 - 8 * S i))) as H2.
  unfold wbits. unfold zrange in *. rewrite length_map, length_seq in H1, H2. lia.
Qed.

Lemma bytes_bval (s : ByteSet) : map bval (bytes s) = filter (Z.testbit s) (zrange 0 256).
Proof.
  unfold bytes. unfold zrange. rewrite <- all_bytes_bval, filter_map_comm. f_equal.
  apply filter_ext. intros x. apply contains_testbit.
Qed.

Lemma map_inj_eq {A B} (f : A -> B) (l1 l2 : list A) :
  (forall a b, f a = f b -> a = b) -> map f l1 = map f l2 -> l1 = l2.
Proof.
  intros Hf. revert l2. induction l1 as [|x l1 IH]; intros [|y l2] E; simpl in E; try discriminate; auto.
  injection E as E1 E2. f_equal; auto.
Qed.

(** [Bytes] *)
(** X6 (ByteSet::bytes, Bytes::new, Bytes::next): the iterator yields exactly the members of the set, in increasing order. *)
Theorem bytes_iter_spec (s : ByteSet) : bytes_iter s = bytes s.
Proof.
  apply (map_inj_eq bval (bytes_iter s) (bytes s)); [apply bval_inj|]. rewrite bytes_bval.
  unfold bytes_iter, bytes_new. pose proof (first_spec s) as F.
  destruct (first s) as [[i w]|] eqn:E.
  - destruct F as (Hi & Hw & Hnz & Hb).
    assert (Ei : i = Z.of_nat (Z.to_nat i)) by lia.
    remember (Z.to_nat i) as n eqn:En. rewrite Ei.
    rewrite bytes_collect_spec
      by (pose proof (iter_rest_length s n w); pose proof (word_range s i); lia).
    assert (Z0 : zrange 0 256 = zrange 0 (8 * n) ++ zrange (8 * n) (8 * S (31 - n))).
    { unfold zrange. rewrite <- map_app, <- seq_app. f_equal. f_equal. lia. }
    assert (P0 : filter (Z.testbit s) (zrange 0 (8 * n)) = []).
    { apply (filter_zero_prefix s n 0). intros k Hk. apply Hb. lia. }
    rewrite Z0, filter_app, P0. cbn [app]. rewrite filter_blocks, filter_block.
    unfold iter_rest. rewrite <- Ei, <- Hw.
    replace (256 - 8 * S n)%nat with (8 * (31 - n))%nat by lia. reflexivity.
  - change NUM_WORDS with (Z.of_nat 32). rewrite bytes_collect_spec by (pose proof (iter_rest_length s 32 0); lia).
    unfold iter_rest. rewrite wbits_0. simpl app. symmetry.
    apply (filter_zero_prefix s 32 0). intros k Hk. apply F. lia.
Qed.

(** ** Regex constructors: literal, any, opt, plus *)
Lemma point_lang (b : byte) (v : list byte) : lang (re_set (point b)) v <-> v = [b].
Proof.
  rewrite re_set_lang. unfold set_lang. split.
  - intros (a & -> & Ha). rewrite point_bit in Ha. apply Byte.byte_dec_bl in Ha. subst. reflexivity.
  - intros ->. exists b. split; [reflexivity|]. rewrite point_bit. apply Byte.byte_dec_lb. reflexivity.
Qed.

Lemma literal_gen (s acc : list byte) (r : RegEx) :
  (forall w, lang r w <-> w = acc) -> good r ->
  (forall w, lang (fold_left (fun r byte => re_then r (re_set (point byte))) s r) w <-> w = acc ++ s) /\
  good (fold_left (fun r byte => re_then r (re_set (point byte))) s r).
Proof.
  revert acc r. induction s as [|b s IH]; intros acc r Hr Hg.
  - simpl. rewrite app_nil_r. auto.
  - simpl. replace (acc ++ b :: s) with ((acc ++ [b]) ++ s) by (rewrite <- app_assoc; reflexivity).
    apply IH.
    + intros w. rewrite re_then_lang. split.
      * intros (u & v & -> & Hu & Hv). apply Hr in Hu. apply point_lang in Hv. subst. reflexivity.
      * intros ->. exists acc, [b]. split; [reflexivity|]. split; [apply Hr; reflexivity|apply point_lang; reflexivity].
    + apply good_re_then; [exact Hg|apply good_re_set].
Qed.

Lemma literal_lang_good (s : list byte) :
  (forall w, lang (literal s) w <-> w = s) /\ good (literal s).
Proof.
  unfold literal. apply (literal_gen s [] re_empty); [|exact I].
  intros w. reflexivity.
Qed.

Lemma any_gen (cs : list Z) (r : RegEx) (P : list byte -> Prop) :
  (forall w, lang r w <-> P w) -> good r ->
  (forall w, lang (fold_left (fun r c => re_or r (literal (encode_utf8 c))) cs r) w <->
     P w \/ exists c, In c cs /\ w = encode_utf8 c) /\
  good (fold_left (fun r c => re_or r (literal (encode_utf8 c))) cs r).
Proof.
  revert r P. induction cs as [|c cs IH]; intros r P Hr Hg.
  - simpl. split; [|exact Hg]. intros w. rewrite Hr. split; [tauto|]. intros [H|(c & [] & _)]. exact H.
  - simpl. destruct (literal_lang_good (encode_utf8 c)) as [Hl Hlg].
    destruct (IH (re_or r (literal (encode_utf8 c))) (fun w => P w \/ w = encode_utf8 c)) as [H1 H2].
    + intros w. rewrite re_or_lang, Hr, Hl. reflexivity.
    + apply good_re_or; assumption.
    + split; [|exact H2]. intros w. rewrite H1. split.
      * intros [[H|H]|(c' & Hc' & H)]; auto; right; eauto.
      * intros [H|(c' & [<-|Hc'] & H)]; auto; right; eauto.
Qed.

Lemma any_lang_good (cs : list Z) :
  (forall w, lang (any cs) w <-> w = [] \/ exists c, In c cs /\ w = encode_utf8 c) /\ good (any cs).
Proof.
  unfold any. apply any_gen; [|exact I]. intros w. reflexivity.
Qed.

(** [literal] *)
(** X7 (literal): [literal s] matches exactly the string [s], and [is_fullmatch] decides it. *)
Theorem literal_matches (s w : list byte) :
  (lang (literal s) w <-> w = s) /\
  exists b, is_fullmatch (literal s) w = Some b /\ (b = true <-> w = s).
Proof.
  destruct (literal_lang_good s) as [Hl Hg]. split; [apply Hl|].
  destruct (fullmatch_good (literal s) w Hg) as (b & Hb & Hbl).
  exists b. split; [exact Hb|]. rewrite Hbl. apply Hl.
Qed.

(** [any] *)
(** X8 (any): [any cs] matches the empty string and the UTF-8 encoding of each char of [cs], and nothing else; [is_fullmatch] decides it. *)
Theorem any_matches (cs : list Z) (w : list byte) :
  (lang (any cs) w <-> w = [] \/ exists c, In c cs /\ w = encode_utf8 c) /\
  exists b, is_fullmatch (any cs) w = Some b /\
    (b = true <-> w = [] \/ exists c, In c cs /\ w = encode_utf8 c).
Proof.
  destruct (any_lang_good cs) as [Hl Hg]. split; [apply Hl|].
  destruct (fullmatch_good (any cs) w Hg) as (b & Hb & Hbl).
  exists b. split; [exact Hb|]. rewrite Hbl. apply Hl.
Qed.

(** [opt], [plus] *)
(** X9 (RegEx::opt, RegEx::plus): [opt r] matches [r] or the empty string; [plus r] matches a word of [r] followed by words of [r]; both preserve well-formedness. *)
Theorem opt_plus_lang (r : RegEx) (w : list byte) :
  (lang (re_opt r) w <-> lang r w \/ w = []) /\
  (lang (re_plus r) w <-> exists u v, w = u ++ v /\ lang r u /\ star_lang (lang r) v) /\
  (good r -> good (re_opt r) /\ good (re_plus r)).
Proof.
  unfold re_opt, re_plus. split; [|split].
  - rewrite re_or_lang. reflexivity.
  - rewrite re_then_lang. setoid_rewrite re_star_lang. reflexivity.
  - intros Hg. split.
    + apply good_re_or; [exact Hg|exact I].
    + apply good_re_then; [exact Hg|apply good_re_star; exact Hg].
Qed.

(** ** Derivative classes: cross and approx_deriv_classes *)
Lemma contains_nonempty (s : ByteSet) (a : byte) : contains s a = true -> is_empty s = false.
Proof.
  intros H. destruct (is_empty s) eqn:E; [|reflexivity].
  rewrite (is_empty_true s E a) in H. discriminate.
Qed.

Lemma set_insert_fold (l acc : list ByteSet) :
  NoDup acc ->
  NoDup (fold_left bs_set_insert l acc) /\
  (forall x, In x (fold_left bs_set_insert l acc) <-> In x acc \/ In x l).
Proof.
  revert acc. induction l as [|y l IH]; intros acc Hd; simpl.
  - split; [exact Hd|]. intros x. tauto.
  - destruct (existsb (Z.eqb y) acc) eqn:E.
    + replace (bs_set_insert acc y) with acc by (unfold bs_set_insert; rewrite E; reflexivity).
      destruct (IH acc Hd) as [H1 H2]. split; [exact H1|]. intros x. rewrite H2.
      apply existsb_exists in E. destruct E as (z & Hz & Ez). apply Z.eqb_eq in Ez. subst z.
      split; [tauto|]. intros [H|[<-|H]]; auto.
    + replace (bs_set_insert acc y) with (acc ++ [y]) by (unfold bs_set_insert; rewrite E; reflexivity).
      assert (Hd' : NoDup (acc ++ [y])).
      { apply NoDup_app; [exact Hd|repeat constructor; intros []|].
        intros x Hx [->|[]]. assert (existsb (Z.eqb x) acc = true) as C.
          { apply existsb_exists. exists x. split; [exact Hx|apply Z.eqb_refl]. }
          congruence. }
      destruct (IH _ Hd') as [H1 H2]. split; [exact H1|]. intros x. rewrite H2, in_app_iff.
      simpl. tauto.
Qed.

Lemma cross_members (set1 set2 : list ByteSet) :
  NoDup (cross set1 set2) /\
  forall u, In u (cross set1 set2) <->
    exists t s, In t set2 /\ In s set1 /\ u = intersection t s /\ is_empty u = false.
Proof.
  unfold cross. destruct (set_insert_fold
    (flat_map (fun t => flat_map (fun s =>
        let u := intersection t s in if is_empty u then [] else [u]) set1) set2) [] (NoDup_nil _))
    as [H1 H2].
  split; [exact H1|]. intros u. rewrite H2. simpl. split.
  - intros [[]|H]. apply in_flat_map in H as (t & Ht & H). apply in_flat_map in H as (s & Hs & H).
    destruct (is_empty (intersection t s)) eqn:E; [destruct H|].
    destruct H as [<-|[]]. exists t, s. auto.
  - intros (t & s & Ht & Hs & -> & E). right. apply in_flat_map. exists t. split; [exact Ht|].
    apply in_flat_map. exists s. split; [exact Hs|]. rewrite E. left. reflexivity.
Qed.

Lemma cross_ok (set1 set2 : list ByteSet) :
  byte_partition set1 -> byte_partition set2 -> classes_ok (cross set1 set2).
Proof.
  intros P1 P2. destruct (cross_members set1 set2) as [Hd Hm].
  split; [exact Hd|]. split.
  - intros B HB. apply Hm in HB. destruct HB as (t & s & _ & _ & _ & E). exact E.
  - intros a. destruct (P1 a) as (B1 & HB1 & Ha1 & U1). destruct (P2 a) as (B2 & HB2 & Ha2 & U2).
    assert (Hu : contains (intersection B2 B1) a = true) by (rewrite contains_inter, Ha1, Ha2; reflexivity).
    exists (intersection B2 B1). split; [|split; [exact Hu|]].
    + apply Hm. exists B2, B1. repeat split; auto. eapply contains_nonempty; eauto.
    + intros B' HB' Ha'. apply Hm in HB'. destruct HB' as (t & s & Ht & Hs & -> & _).
      rewrite contains_inter, andb_true_iff in Ha'. destruct Ha' as [Ht' Hs'].
      rewrite (U2 t Ht Ht'), (U1 s Hs Hs'). reflexivity.
Qed.

Lemma universe_ok : classes_ok [bs_universe].
Proof.
  split; [repeat constructor; intros []|]. split.
  - intros B [<-|[]]. vm_compute. reflexivity.
  - intros a. exists bs_universe. split; [left; reflexivity|]. split; [apply contains_universe|].
    intros B' [<-|[]] _. reflexivity.
Qed.

Lemma split_partition (set : ByteSet) : byte_partition [set; complement set].
Proof.
  intros a. destruct (contains set a) eqn:E.
  - exists set. split; [left; reflexivity|]. split; [exact E|].
    intros B' [<-|[<-|[]]] H; [reflexivity|]. rewrite contains_complement, E in H. discriminate.
  - exists (complement set). split; [right; left; reflexivity|].
    split; [rewrite contains_complement, E; reflexivity|].
    intros B' [<-|[<-|[]]] H; [congruence|reflexivity].
Qed.

Lemma adc_loop_ok (fuel : nat) (stack : list RegEx) (cs cs' : list ByteSet) :
  classes_ok cs -> adc_loop fuel stack cs = Some cs' -> classes_ok cs'.
Proof.
  revert stack cs. induction fuel as [|f IH]; intros stack cs Hc E.
  - destruct stack; simpl in E; [congruence|discriminate].
  - destruct stack as [|node stack]; simpl in E; [congruence|].
    destruct node; try (eapply IH; [exact Hc|exact E]).
    destruct (negb (is_empty s) && negb (is_universe s)); eapply IH; try exact E; auto.
    apply cross_ok; [apply Hc|apply split_partition].
Qed.

Lemma adc_ok (r : RegEx) (cs : list ByteSet) :
  approx_deriv_classes r = Some cs -> classes_ok cs.
Proof. apply adc_loop_ok, universe_ok. Qed.

Lemma adc_vec_ok (q : list RegEx) (cs : list ByteSet) :
  approx_deriv_classes_vec q = Some cs -> classes_ok cs.
Proof.
  unfold approx_deriv_classes_vec.
  assert (G : forall acc, (forall cs, acc = Some cs -> classes_ok cs) ->
    forall cs, fold_left (fun acc x =>
      match acc, approx_deriv_classes x with
      | Some acc, Some c => Some (cross acc c)
      | _, _ => None
      end) q acc = Some cs -> classes_ok cs).
  { induction q as [|x q IH]; intros acc Hacc cs0; simpl; [apply Hacc|].
    apply IH. intros cs1 E. destruct acc as [acc|]; [|discriminate].
    destruct (approx_deriv_classes x) as [c|] eqn:Ec; [|discriminate].
    injection E as <-. apply cross_ok; [apply (Hacc acc eq_refl)|apply (adc_ok x c Ec)]. }
  apply G. intros cs0 E. injection E as <-. apply universe_ok.
Qed.

(** ** DFABuilder: shape of the built DFA *)
Lemma map_insert_keys (m : ByteMap) (k : byte) (v : nat) :
  (forall x, In x (map fst (map_insert m k v)) -> In x (map fst m) \/ x = k) /\
  (forall k' d, In (k', d) (map_insert m k v) -> In (k', d) m \/ d = v) /\
  (NoDup (map fst m) -> NoDup (map fst (map_insert m k v))).
Proof.
  induction m as [|[k0 v0] m IH]; simpl.
  - split; [intros x [<-|[]]; auto|]. split; [intros k' d [E|[]]; injection E; auto|].
    intros _. repeat constructor. intros [].
  - destruct IH as (IH1 & IH2 & IH3). destruct (Byte.eqb k k0) eqn:E; simpl.
    + split; [intros x [<-|H]; auto|]. split; [intros k' d [E'|H]; [injection E'; auto|auto]|].
      intros H. exact H.
    + split; [intros x [<-|H]; auto; destruct (IH1 x H); auto|].
      split; [intros k' d [E'|H]; [left; left; exact E'|destruct (IH2 k' d H); auto]|].
      intros H. inversion H as [|? ? Hn Hd]; subst. constructor; [|apply IH3, Hd].
      intros Hx. destruct (IH1 k0 Hx) as [Hx'|Hx']; [contradiction|].
      subst. rewrite byte_eqb_refl in E. discriminate.
Qed.

Lemma wire_map (l : list byte) (m : ByteMap) (j : nat) :
  (forall k' d, In (k', d) (fold_left (fun nx a => map_insert nx a j) l m) -> In (k', d) m \/ d = j) /\
  (NoDup (map fst m) -> NoDup (map fst (fold_left (fun nx a => map_insert nx a j) l m))).
Proof.
  revert m. induction l as [|a l IH]; intros m; simpl; [split; auto|].
  destruct (IH (map_insert m a j)) as [H1 H2]. destruct (map_insert_keys m a j) as (_ & K2 & K3).
  split.
  - intros k' d H. destruct (H1 k' d H) as [H'|H']; auto.
  - intros Hd. apply H2, K3, Hd.
Qed.

Lemma list_set_length {A} (l : list A) (i : nat) (x : A) : length (list_set l i x) = length l.
Proof. revert i. induction l as [|y l IH]; intros [|i]; simpl; auto. Qed.

Lemma list_set_In {A} (l : list A) (i : nat) (x y : A) : In y (list_set l i x) -> In y l \/ y = x.
Proof.
  revert i. induction l as [|z l IH]; intros [|i]; simpl; auto.
  - intros [<-|H]; auto.
  - intros [<-|H]; auto. destruct (IH i H); auto.
Qed.

Lemma list_set_nth {A} (l : list A) (i k : nat) (x d : A) :
  nth k (list_set l i x) d = if Nat.eqb k i then (if (i <? length l)%nat then x else nth k l d) else nth k l d.
Proof.
  revert i k. induction l as [|z l IH]; intros [|i] [|k]; simpl; auto;
    try (destruct (Nat.eqb k i); reflexivity).
Qed.

Lemma re2idx_insert_In (m : list (list RegEx * nat)) (q k : list RegEx) (v v' : nat) :
  In (k, v') (re2idx_insert m q v) -> In (k, v') m \/ v' = v.
Proof.
  induction m as [|[k0 v0] m IH]; simpl.
  - intros [E|[]]. injection E; auto.
  - destruct (vec_compare q k0); simpl; intros [E|H]; try (injection E as -> ->; auto);
      try (destruct (IH H); auto); auto.
Qed.

Lemma re2idx_get_In (m : list (list RegEx * nat)) (q : list RegEx) (v : nat) :
  re2idx_get m q = Some v -> exists k, In (k, v) m.
Proof.
  induction m as [|[k0 v0] m IH]; simpl; [discriminate|].
  destruct (vec_compare q k0); try (intros E; injection E as ->; exists k0; left; reflexivity);
    intros H; destruct (IH H) as [k Hk]; exists k; right; exact Hk.
Qed.

Lemma add_state_ok (start q : list RegEx) (b : DFABuilder) :
  builder_ok start b ->
  builder_ok start (fst (add_state b q)) /\ snd (add_state b q) = length (b_states b) /\
  length (b_states (fst (add_state b q))) = S (length (b_states b)).
Proof.
  intros (H1 & H2 & H3 & H4 & H5 & H6). unfold add_state, builder_ok. simpl.
  rewrite !length_app. simpl. split; [|split; [reflexivity|lia]].
  split; [destruct H1 as [rest E]; rewrite E; exists (rest ++ [state_new [] (regexvec_class q)]); reflexivity|].
  split; [lia|]. split.
  { rewrite app_nth1 by lia. exact H3. }
  split; [intros st k d Hst Hkd; apply in_app_or in Hst as [Hst|[<-|[]]];
    [specialize (H4 st k d Hst Hkd); lia|destruct Hkd]|].
  split; [intros st Hst; apply in_app_or in Hst as [Hst|[<-|[]]]; [apply H5, Hst|constructor]|].
  intros q' v Hq. apply re2idx_insert_In in Hq as [Hq | ->]; [specialize (H6 q' v Hq); lia|lia].
Qed.

Lemma set_state_ok (start : list RegEx) (b : DFABuilder) (i : nat) (nx : ByteMap) (j : nat) :
  builder_ok start b -> (1 <= i)%nat -> (j < length (b_states b))%nat ->
  (forall k d, In (k, d) nx -> In (k, d) (next (nth i (b_states b) state_sink)) \/ d = j) ->
  (NoDup (map fst (next (nth i (b_states b) state_sink))) -> NoDup (map fst nx)) ->
  builder_ok start
    (mkBuilder (list_set (b_states b) i (state_new nx (class (nth i (b_states b) state_sink)))) (re2idx b)).
Proof.
  intros (H1 & H2 & H3 & H4 & H5 & H6) Hi Hj W1 W2. unfold builder_ok. cbn [b_states re2idx].
  rewrite list_set_length.
  assert (Hnth : forall n, (n < length (b_states b))%nat -> In (nth n (b_states b) state_sink) (b_states b))
    by (intros n Hn; apply nth_In, Hn).
  split.
  { destruct H1 as [rest E]. rewrite E. destruct i as [|i]; [lia|].
    exists (list_set rest i (state_new nx (class (nth (S i) (state_sink :: rest) state_sink)))).
    reflexivity. }
  split; [exact H2|]. split.
  { rewrite list_set_nth. destruct (Nat.eqb_spec 1 i) as [<-|]; [|exact H3].
    destruct (1 <? length (b_states b))%nat; exact H3. }
  split.
  { intros st k d Hst Hkd. apply list_set_In in Hst as [Hst | ->].
    - apply (H4 st k d Hst Hkd).
    - destruct (W1 k d Hkd) as [H | ->]; [|exact Hj].
      destruct (Nat.lt_ge_cases i (length (b_states b))) as [Hl|Hl].
      + apply (H4 _ k d (Hnth i Hl) H).
      + rewrite nth_overflow in H by exact Hl. destruct H. }
  split.
  { intros st Hst. apply list_set_In in Hst as [Hst | ->]; [apply H5, Hst|].
    apply W2. destruct (Nat.lt_ge_cases i (length (b_states b))) as [Hl|Hl].
    - apply H5, Hnth, Hl.
    - rewrite nth_overflow by exact Hl. constructor. }
  exact H6.
Qed.

Lemma wire_ok (start : list RegEx) (b : DFABuilder) (i : nat) (set : ByteSet) (j : nat) :
  builder_ok start b -> (1 <= i)%nat -> (j < length (b_states b))%nat ->
  builder_ok start (wire b i set j) /\ length (b_states (wire b i set j)) = length (b_states b).
Proof.
  intros Hb Hi Hj. destruct (wire_map (bytes set) (next (nth i (b_states b) state_sink)) j) as [W1 W2].
  split.
  - exact (set_state_ok start b i _ j Hb Hi Hj W1 W2).
  - apply list_set_length.
Qed.

Lemma explore_ok (start : list RegEx) (fuel : nat) : forall (b b' : DFABuilder) (q : list RegEx) (i : nat),
  builder_ok start b -> (1 <= i < length (b_states b))%nat ->
  explore fuel b q i = Some b' ->
  builder_ok start b' /\ (length (b_states b) <= length (b_states b'))%nat.
Proof.
  induction fuel as [|f IH]; intros b b' q i Hb Hi E; [discriminate|].
  cbn [explore] in E. destruct (approx_deriv_classes_vec q) as [sets|]; [|discriminate].
  revert b Hb Hi E. induction sets as [|set sets IHs]; intros b Hb Hi E.
  - injection E as <-. split; [exact Hb|lia].
  - cbn [fold_left] in E. destruct (goto_with (explore f) b q i set) as [b1|] eqn:G.
    + assert (Hb1 : builder_ok start b1 /\ (length (b_states b) <= length (b_states b1))%nat).
      { unfold goto_with in G. destruct (smallest set) as [c|]; [|discriminate].
        destruct (regexvec_deriv q c) as [qc|]; [|discriminate].
        destruct (re2idx_get (re2idx b) qc) as [j|] eqn:Ej.
        - injection G as <-. destruct (re2idx_get_In _ _ _ Ej) as [k Hk].
          assert (j < length (b_states b))%nat by (apply (proj2 (proj2 (proj2 (proj2 (proj2 Hb))))) with k; exact Hk).
          destruct (wire_ok start b i set j Hb ltac:(lia) ltac:(lia)) as [W1 W2]. split; [exact W1|lia].
        - destruct (add_state_ok start qc b Hb) as (A1 & A2 & A3).
          destruct (add_state b qc) as [b0 j] eqn:Ea. simpl in A1, A2, A3.
          destruct (wire_ok start b0 i set j A1 ltac:(lia) ltac:(lia)) as [W1 W2].
          destruct (IH (wire b0 i set j) b1 qc j W1 ltac:(lia) G) as [R1 R2]. split; [exact R1|lia]. }
      destruct Hb1 as [Hb1 Hl1]. destruct (IHs b1 Hb1 ltac:(lia) E) as [R1 R2]. split; [exact R1|lia].
    + exfalso. clear -E. induction sets as [|x sets IHs]; simpl in E; [discriminate|exact (IHs E)].
Qed.

Lemma build_ok (fuel : nat) (start : list RegEx) (d : DFA) :
  build fuel start = Some d ->
  exists b, builder_ok start b /\ d = b_states b.
Proof.
  unfold build. simpl. destruct (explore fuel _ start 1) as [b|] eqn:E; [|discriminate].
  intros H. injection H as <-. exists b. split; [|reflexivity].
  refine (proj1 (explore_ok start fuel _ _ start 1 _ _ E)).
  - unfold builder_ok. simpl. split; [exists [state_new [] (regexvec_class start)]; reflexivity|].
    split; [lia|]. split; [reflexivity|]. split.
    + intros st k d' [<-|[<-|[]]] [].
    + split; [intros st [<-|[<-|[]]]; constructor|].
      intros q v Hq. destruct (vec_compare start (regexvec_sink (length start))); cbn [In] in Hq;
        repeat match goal with H : _ \/ _ |- _ => destruct H end;
        try match goal with H : (_, _) = (_, _) |- _ => injection H as _ <- end; try contradiction; lia.
  - simpl. lia.
Qed.

Lemma run_total (d : DFA) :
  (forall st k j, In st d -> In (k, j) (next st) -> (j < length d)%nat) -> (0 < length d)%nat ->
  forall w s, (s < length d)%nat -> exists id, dfa_run d s w = Some id /\ (id < length d)%nat.
Proof.
  intros Ht H0 w. induction w as [|a w IH]; intros s Hs.
  - exists s. split; [reflexivity|exact Hs].
  - cbn [dfa_run]. unfold dfa_step. destruct (nth_error d s) as [st|] eqn:E.
    + apply IH. destruct (map_get (next st) a) as [j|] eqn:Eg; [|exact H0].
      apply (Ht st a j); [apply nth_error_In with s, E|apply map_get_In, Eg].
    + apply nth_error_None in E. lia.
Qed.

(** [DFABuilder] *)
(** X12 (DFABuilder::build, add_state, explore, goto): a built DFA has the sink at 0, the start state at 1 with the start vector's class, functional transition maps, and a run from any state stays inside the DFA. *)
Theorem build_shape (fuel : nat) (start : list RegEx) (d : DFA) :
  build fuel start = Some d ->
  (exists rest, d = state_sink :: rest) /\ (1 < length d)%nat /\
  dfa_class d 1 = Some (regexvec_class start) /\
  (forall st, In st d -> NoDup (map fst (next st))) /\
  (forall w s, (s < length d)%nat -> exists id, dfa_run d s w = Some id /\ (id < length d)%nat).
Proof.
  intros E. destruct (build_ok fuel start d E) as (b & (H1 & H2 & H3 & H4 & H5 & H6) & ->).
  split; [exact H1|]. split; [exact H2|]. split.
  - unfold dfa_class. rewrite (nth_error_nth' _ state_sink H2). simpl. rewrite H3. reflexivity.
  - split; [exact H5|]. apply run_total; [exact H4|lia].
Qed.

Lemma build_shape_witness :
  build 20 [example_regex] = Some example_dfa /\ (1 < length example_dfa)%nat.
Proof.
  assert (E : build 20 [example_regex] = Some example_dfa) by (vm_compute; reflexivity).
  split; [exact E|]. destruct (build_shape 20 [example_regex] example_dfa E) as (_ & H & _). exact H.
Defined.

(** ** NaiveLexTable: the table simulates the DFA *)
Lemma fold_inv {A B} (f : A -> B -> A) (I : A -> Prop) (l : list B) (x : A) :
  I x -> (forall a b, I a -> In b l -> I (f a b)) -> I (fold_left f l x).
Proof.
  revert x. induction l as [|y l IH]; intros x Hx Hf; simpl; [exact Hx|].
  apply IH; [apply Hf; [exact Hx|left; reflexivity]|]. intros a b Ha Hb. apply Hf; [exact Ha|right; exact Hb].
Qed.

Lemma to_nat_lt (a : byte) : (Byte.to_nat a < 256)%nat.
Proof. pose proof (bval_range a). unfold bval in H. lia. Qed.

Lemma to_nat_inj (a b : byte) : Byte.to_nat a = Byte.to_nat b -> a = b.
Proof.
  intros E. apply (f_equal Byte.of_nat) in E. rewrite !Byte.of_to_nat in E. congruence.
Qed.

Lemma map_get_None_In (m : ByteMap) (a : byte) (d : nat) : map_get m a = None -> ~ In (a, d) m.
Proof.
  induction m as [|[k v] m IH]; simpl; [tauto|].
  destruct (Byte.eqb a k) eqn:E; [discriminate|]. intros H [H'|H'].
  - injection H' as -> ->. rewrite byte_eqb_refl in E. discriminate.
  - exact (IH H H').
Qed.

Lemma naive_row_spec (k : nat) (E : ByteMap) (nx : list nat) :
  length (naive_row k E nx) = length nx /\
  (forall p, (forall a d, In (a, d) E -> p <> (256 * k + Byte.to_nat a)%nat) ->
     nth p (naive_row k E nx) 0%nat = nth p nx 0%nat) /\
  (NoDup (map fst E) -> forall a d, In (a, d) E -> (256 * k + Byte.to_nat a < length nx)%nat ->
     nth (256 * k + Byte.to_nat a) (naive_row k E nx) 0%nat = (d - 1)%nat).
Proof.
  unfold naive_row. revert nx. induction E as [|[a0 d0] E IH]; intros nx; simpl.
  - split; [reflexivity|]. split; [reflexivity|]. intros _ a d [].
  - destruct (IH (list_set nx (256 * k + Byte.to_nat a0)%nat (d0 - 1)%nat)) as (L1 & U1 & W1).
    rewrite list_set_length in L1. split; [exact L1|]. split.
    + intros p Hp. rewrite U1 by (intros a d H; apply (Hp a d); right; exact H).
      rewrite list_set_nth. destruct (Nat.eqb_spec p (256 * k + Byte.to_nat a0)%nat); [|reflexivity].
      exfalso. apply (Hp a0 d0); [left; reflexivity|exact e].
    + intros Hnd a d [E'|H] Hl; inversion Hnd as [|? ? Hn Hnd']; subst.
      * injection E' as -> ->. rewrite U1.
        -- rewrite list_set_nth, Nat.eqb_refl. destruct (Nat.ltb_spec (256 * k + Byte.to_nat a)%nat (length nx)); [reflexivity|lia].
        -- intros a' d' H' E2. apply Hn. assert (a' = a) as -> by (apply to_nat_inj; lia).
           apply (in_map fst) in H'. exact H'.
      * apply W1; [exact Hnd'|exact H|rewrite list_set_length; exact Hl].
Qed.

Lemma naive_rows_spec (N : nat) (L : list State) : forall (k : nat) (nx : list nat),
  length nx = (256 * N)%nat -> (k + length L <= N)%nat ->
  (forall st, In st L -> NoDup (map fst (next st))) ->
  length (naive_rows (combine (seq k (length L)) L) nx) = length nx /\
  (forall p, (p < 256 * k)%nat -> nth p (naive_rows (combine (seq k (length L)) L) nx) 0%nat = nth p nx 0%nat) /\
  (forall i a, (k <= i < k + length L)%nat ->
     nth (256 * i + Byte.to_nat a) (naive_rows (combine (seq k (length L)) L) nx) 0%nat =
     match map_get (next (nth (i - k) L state_sink)) a with
     | Some d => (d - 1)%nat
     | None => nth (256 * i + Byte.to_nat a) nx 0%nat
     end).
Proof.
  induction L as [|st L IH]; intros k nx Hl Hk Hnd.
  - split; [reflexivity|]. split; [reflexivity|]. simpl. intros i a H. lia.
  - cbn [length seq combine]. unfold naive_rows. cbn [fold_left].
    fold (naive_rows (combine (seq (S k) (length L)) L) (naive_row k (next st) nx)).
    destruct (naive_row_spec k (next st) nx) as (R1 & R2 & R3).
    assert (Hst : NoDup (map fst (next st))) by (apply Hnd; left; reflexivity).
    destruct (IH (S k) (naive_row k (next st) nx) ltac:(lia) ltac:(simpl in Hk; lia)
                (fun st' H => Hnd st' (or_intror H))) as (I1 & I2 & I3).
    split; [lia|]. split.
    + intros p Hp. rewrite I2 by lia. apply R2. intros a d _. pose proof (to_nat_lt a). lia.
    + intros i a Hi. destruct (Nat.eq_dec i k) as [->|Hik].
      * rewrite I2 by (pose proof (to_nat_lt a); lia). rewrite Nat.sub_diag. cbn [nth].
        destruct (map_get (next st) a) as [d|] eqn:Eg.
        -- apply R3; [exact Hst|apply map_get_In, Eg|]. pose proof (to_nat_lt a). simpl in Hk. lia.
        -- apply R2. intros a' d' H' E. assert (a' = a) as -> by (apply to_nat_inj; lia).
           exact (map_get_None_In _ _ _ Eg H').
      * rewrite I3 by (simpl in Hi; lia). replace (i - k)%nat with (S (i - S k)) by lia. cbn [nth].
        destruct (map_get (next (nth (i - S k) L state_sink)) a); [reflexivity|].
        apply R2. intros a' d _ E. pose proof (to_nat_lt a'). lia.
Qed.

Section NaiveTable.

Variables (rest : list State) (commands : list Command).
Let m := state_sink :: rest.
Let T := naive_table (naive_from_dfa m commands).
Hypothesis Hkeys : forall st, In st m -> NoDup (map fst (next st)).
Hypothesis Htargets : forall st k j, In st m -> In (k, j) (next st) -> (1 <= j < length m)%nat.

Lemma naive_sink : lt_sink T = length rest.
Proof.
  unfold T, m, naive_table, naive_from_dfa. cbn [lt_sink nl_classes]. rewrite length_app, length_map. simpl. lia.
Qed.

Lemma naive_class (t : nat) :
  lt_class T t = if (t <? length rest)%nat then class (nth (S t) m state_sink) else None.
Proof.
  unfold T, m, naive_table, naive_from_dfa. cbn [lt_class nl_classes]. cbn [tl].
  destruct (Nat.ltb_spec t (length rest)).
  - rewrite app_nth1 by (rewrite length_map; exact H).
    change None with (class state_sink). rewrite map_nth. reflexivity.
  - rewrite app_nth2 by (rewrite length_map; exact H). rewrite length_map.
    destruct (t - length rest)%nat as [|[|x]]; reflexivity.
Qed.

Lemma naive_step (t : nat) (a : byte) : (t < length rest)%nat ->
  lt_step T t a = match map_get (next (nth (S t) m state_sink)) a with
                  | Some d => (d - 1)%nat
                  | None => length rest
                  end.
Proof.
  intros Ht. unfold T, m, naive_table, naive_from_dfa. cbn [lt_step nl_next]. cbn [tl].
  replace (length (state_sink :: rest) - 1)%nat with (length rest) by (simpl; lia).
  change (fold_left _ (combine (seq 0 (length rest)) rest) (repeat (length rest) (256 * length rest)))
    with (naive_rows (combine (seq 0 (length rest)) rest) (repeat (length rest) (256 * length rest))).
  destruct (naive_rows_spec (length rest) rest 0 (repeat (length rest) (256 * length rest)))
    as (_ & _ & R3).
  - apply repeat_length.
  - lia.
  - intros st H. apply Hkeys. right. exact H.
  - rewrite R3 by lia. rewrite Nat.sub_0_r. cbn [nth]. unfold m. cbn [nth].
    destruct (map_get _ a); [reflexivity|].
    rewrite nth_indep with (d' := length rest) by (rewrite repeat_length; pose proof (to_nat_lt a); lia).
    apply nth_repeat.
Qed.

Lemma sink_like_dead (s : nat) : nth s m state_sink = state_sink ->
  forall w, tclass m (trun m s w) = None.
Proof.
  intros Hs w. revert s Hs. induction w as [|a w IH]; intros s Hs; cbn [trun].
  - unfold tclass. rewrite Hs. reflexivity.
  - apply IH. unfold tstep. rewrite Hs. reflexivity.
Qed.

Lemma naive_run (w : list byte) : forall t s, naive_rel rest t s ->
  lt_class T (lt_run T t w) = tclass m (trun m s w).
Proof.
  induction w as [|a w IH]; intros t s R.
  - cbn [lt_run trun]. rewrite naive_class. destruct R as [[Ht ->]|[-> Hs]].
    + apply Nat.ltb_lt in Ht. rewrite Ht. reflexivity.
    + rewrite Nat.ltb_irrefl. symmetry. apply (sink_like_dead s Hs []).
  - cbn [lt_run trun]. rewrite naive_sink. destruct R as [[Ht ->]|[-> Hs]].
    + assert (Hne : (t =? length rest)%nat = false) by (apply Nat.eqb_neq; lia). rewrite Hne.
      apply IH. rewrite naive_step by exact Ht. unfold tstep.
      destruct (map_get (next (nth (S t) m state_sink)) a) as [d|] eqn:Eg.
      * assert (Hd : (1 <= d < length m)%nat).
        { apply (Htargets (nth (S t) m state_sink) a d); [apply nth_In; unfold m; simpl; lia|apply map_get_In, Eg]. }
        left. unfold m in Hd. simpl in Hd. split; lia.
      * right. split; reflexivity.
    + rewrite Nat.eqb_refl. rewrite naive_class, Nat.ltb_irrefl. symmetry.
      apply (sink_like_dead s Hs (a :: w)).
Qed.

Lemma naive_run_start (w : list byte) :
  lt_class T (lt_run T START_STATE w) = tclass m (trun m 1 w).
Proof.
  apply naive_run. unfold START_STATE. destruct (Nat.eq_dec (length rest) 0) as [E|E].
  - right. split; [exact (eq_sym E)|]. apply length_zero_iff_nil in E. unfold m. rewrite E. reflexivity.
  - left. split; [lia|reflexivity].
Qed.

End NaiveTable.

(** ** NaiveLexTable::new over the minimised DFA *)
Lemma minimize_next_shape (dfa : DFA) (rest : list Ids) (set : Ids) :
  NoDup (map fst (minimize_next dfa rest set)) /\
  forall k j, In (k, j) (minimize_next dfa rest set) -> (1 <= j <= length rest)%nat.
Proof.
  unfold minimize_next. apply fold_inv.
  - split; [constructor|intros k j []].
  - intros nx source Hnx _. apply fold_inv; [exact Hnx|].
    intros nx' [symbol dest] [H1 H2] _.
    destruct (map_get nx' symbol); [split; assumption|].
    destruct (position (ids_mem dest) rest) as [id|] eqn:Ep; [|split; assumption].
    destruct (map_insert_keys nx' symbol (S id)) as (_ & K2 & K3). split; [apply K3, H1|].
    intros k j Hkj. destruct (K2 k j Hkj) as [H | ->]; [apply (H2 k j H)|].
    destruct (position_Some _ _ _ Ep) as (z & Ez & _).
    assert (id < length rest)%nat by (apply nth_error_Some; congruence). lia.
Qed.

Lemma minimized_shape (dfa : DFA) (rest : list Ids) :
  (forall st, In st (minimized_states dfa rest) -> NoDup (map fst (next st))) /\
  (forall st k j, In st (minimized_states dfa rest) -> In (k, j) (next st) ->
     (1 <= j < length (minimized_states dfa rest))%nat).
Proof.
  unfold minimized_states. cbn [length]. rewrite length_map. split.
  - intros st [<-|Hst]; [constructor|]. apply in_map_iff in Hst as (set & <- & _).
    apply minimize_next_shape.
  - intros st k j [<-|Hst] Hkj; [destruct Hkj|]. apply in_map_iff in Hst as (set & <- & _).
    destruct (minimize_next_shape dfa rest set) as [_ H]. specialize (H k j Hkj). lia.
Qed.

Lemma naive_pipeline (fuel : nat) (regexes : list RegEx) (commands : list Command) (d : DFA) :
  build fuel regexes = Some d ->
  (exists w c, run_class d w = Some (Some c)) ->
  exists T, naive_lex_table_new fuel regexes commands = Some T /\
    forall w, run_class d w = Some (lt_class (naive_table T) (lt_run (naive_table T) START_STATE w)).
Proof.
  intros Eb Hlive.
  destruct (build_ok fuel regexes d Eb) as (b & (H1 & Hn & _ & Htg & Hkeys & _) & Ed).
  rewrite <- Ed in H1, Hn, Htg, Hkeys.
  assert (Ht : forall s a, (s < length d)%nat -> (tstep d s a < length d)%nat).
  { intros s a Hs. unfold tstep.
    destruct (map_get (next (nth s d state_sink)) a) as [j|] eqn:E; [|lia].
    apply (Htg (nth s d state_sink) a j); [apply nth_In, Hs|apply map_get_In, E]. }
  assert (Hk : forall s, (s < length d)%nat -> NoDup (map fst (next (nth s d state_sink)))).
  { intros s Hs. apply Hkeys, nth_In, Hs. }
  assert (Hd0 : dead d 0).
  { intros w. destruct H1 as [rest E]. rewrite E. apply (sink_like_dead rest 0). reflexivity. }
  destruct (equivalence_classes_spec d) as (P & Ee & HP).
  { intros E. rewrite E in Hn. simpl in Hn. lia. }
  { exact Ht. }
  destruct (P_second d P Ht Hd0 HP Hn Hlive) as (B0 & B1 & P2 & EP & H0 & HB1).
  set (m := minimized_states d (B1 :: P2)).
  exists (naive_from_dfa m commands). split.
  - unfold naive_lex_table_new. rewrite Eb. unfold minimize. rewrite Ee, EP. reflexivity.
  - intros w.
    assert (R : run_class m w = run_class d w).
    { apply (sim_run_class d P Ht Hd0 HP Hk B0 (B1 :: P2) EP H0 w).
      split; [exact Hn|]. exists B1. rewrite EP. split; [reflexivity|exact HB1]. }
    rewrite <- R. destruct (minimized_shape d (B1 :: P2)) as [Mk Mt]. fold m in Mk, Mt.
    assert (Hm : (1 < length m)%nat) by (unfold m, minimized_states; simpl; lia).
    assert (Htm : forall s a, (s < length m)%nat -> (tstep m s a < length m)%nat).
    { intros s a Hs. unfold tstep.
      destruct (map_get (next (nth s m state_sink)) a) as [j|] eqn:E; [|lia].
      apply (Mt (nth s m state_sink) a j); [apply nth_In, Hs|apply map_get_In, E]. }
    unfold run_class. destruct (dfa_run_trun m w Htm 1 Hm) as (Er & Lr). rewrite Er.
    rewrite dfa_class_tclass by exact Lr. f_equal. symmetry.
    unfold m, minimized_states. apply naive_run_start.
    + apply Mk.
    + apply Mt.
Qed.

(** ** Hopcroft: equivalence classes and the minimised DFA *)
Lemma part_ok_blocks (n : nat) (P : list Ids) : part_ok n P -> (length P <= n)%nat.
Proof.
  intros (Hs & Hb & _ & Hdis). pose proof (sorted_NoDup P Hs) as Hnd.
  assert (Hmap : NoDup (map (hd 0%nat) P) /\ forall x, In x (map (hd 0%nat) P) -> (x < n)%nat).
  { clear Hs. induction P as [|B P IH]; [split; [constructor|intros x []]|].
    assert (HB : B <> [] /\ StronglySorted lt B /\ forall x, In x B -> (x < n)%nat) by (apply Hb; left; reflexivity).
    assert (Hhd : In (hd 0%nat B) B) by (destruct B as [|x B]; [destruct HB as [[] _]; reflexivity|left; reflexivity]).
    inversion Hnd as [|? ? HnB Hnd']; subst.
    destruct IH as [IH1 IH2].
    - intros C HC. apply Hb. right. exact HC.
    - intros C D x HC HD Hx Hy. apply (Hdis C D x); auto; right; assumption.
    - exact Hnd'.
    - split.
      + constructor; [|exact IH1]. intros Hin. apply in_map_iff in Hin as (C & EC & HC).
        assert (HC' : In (hd 0%nat C) C).
        { destruct C as [|y C]; [destruct (Hb [] (or_intror HC)) as [[] _]; reflexivity|left; reflexivity]. }
        rewrite EC in HC'. assert (B = C) as <- by (apply (Hdis B C (hd 0%nat B)); auto; [left; reflexivity|right; exact HC]).
        contradiction.
      + intros x [<-|Hx]; [apply HB, Hhd|apply IH2, Hx]. }
  destruct Hmap as [H1 H2].
  replace (length P) with (length (map (hd 0%nat) P)) by apply length_map.
  apply Nat.le_trans with (length (seq 0 n)); [|rewrite length_seq; lia].
  apply NoDup_incl_length; [exact H1|]. intros x Hx. apply in_seq. specialize (H2 x Hx). lia.
Qed.

Lemma equivalence_classes_blocks (dfa : DFA) :
  dfa <> [] -> (forall s a, (s < length dfa)%nat -> (tstep dfa s a < length dfa)%nat) ->
  exists P, equivalence_classes dfa = Some P /\ part_ok (length dfa) P /\
    forall B x y w, In B P -> In x B -> In y B -> tclass dfa (trun dfa x w) = tclass dfa (trun dfa y w).
Proof.
  intros Hne Ht. destruct (equivalence_classes_spec dfa Hne Ht) as (P & Ee & HP).
  exists P. split; [exact Ee|]. split; [apply HP|].
  intros B x y w HB Hx Hy. destruct (P_pair dfa P Ht HP w B x y HB Hx Hy) as (C & HC & H1 & H2).
  destruct HP as (_ & Hu & _). apply (Hu C); assumption.
Qed.

Lemma minimize_shape_gen (dfa : DFA) :
  dfa <> [] -> (forall s a, (s < length dfa)%nat -> (tstep dfa s a < length dfa)%nat) ->
  exists m, minimize dfa = Some m /\ (length m <= length dfa)%nat /\
    (exists rest, m = state_sink :: rest) /\
    (forall st, In st m -> NoDup (map fst (next st))) /\
    (forall st k j, In st m -> In (k, j) (next st) -> (1 <= j < length m)%nat).
Proof.
  intros Hne Ht. destruct (equivalence_classes_spec dfa Hne Ht) as (P & Ee & HP).
  exists (minimized_states dfa (tl P)). split; [unfold minimize; rewrite Ee; reflexivity|].
  destruct (minimized_shape dfa (tl P)) as [Mk Mt].
  split; [|split; [eexists; reflexivity|split; assumption]].
  pose proof (part_ok_blocks _ _ (proj1 HP)) as Hl.
  unfold minimized_states. cbn [length]. rewrite length_map.
  destruct P as [|B P]; simpl in *; [destruct dfa; [contradiction|simpl; lia]|lia].
Qed.

(** ** Tables, scanner and Hopcroft: extra statements *)
Lemma tstep_lt_of_targets (dfa : DFA) :
  (forall st b d, In st dfa -> In (b, d) (next st) -> (d < length dfa)%nat) ->
  forall s a, (s < length dfa)%nat -> (tstep dfa s a < length dfa)%nat.
Proof.
  intros Htg s a Hs. unfold tstep.
  destruct (map_get (next (nth s dfa state_sink)) a) as [j|] eqn:E; [|lia].
  apply (Htg (nth s dfa state_sink) a j); [apply nth_In, Hs|apply map_get_In, E].
Qed.


Lemma one_state_keys : forall st, In st (state_sink :: one_state_rest) -> NoDup (map fst (next st)).
Proof.
  intros st [<-|[<-|[]]]; simpl; repeat constructor; simpl; tauto.
Qed.

Lemma one_state_targets : forall st k j, In st (state_sink :: one_state_rest) -> In (k, j) (next st) ->
  (1 <= j < length (state_sink :: one_state_rest))%nat.
Proof.
  intros st k j [<-|[<-|[]]] Hkj; simpl in Hkj; [destruct Hkj|].
  destruct Hkj as [E|[]]. injection E as _ <-. simpl. lia.
Qed.


(** X13 (NaiveLexTable::new, LexTable for NaiveLexTable): for a DFA with the sink at 0, functional transition maps and targets in [1, length), running the naive table from its start state yields the class of running the DFA from state 1. *)
Theorem naive_table_simulates (rest : list State) (commands : list Command)
  (Hkeys : forall st, In st (state_sink :: rest) -> NoDup (map fst (next st)))
  (Htargets : forall st k j, In st (state_sink :: rest) -> In (k, j) (next st) ->
     (1 <= j < length (state_sink :: rest))%nat) :
  forall w, lt_class (naive_table (naive_from_dfa (state_sink :: rest) commands))
              (lt_run (naive_table (naive_from_dfa (state_sink :: rest) commands)) START_STATE w) =
            tclass (state_sink :: rest) (trun (state_sink :: rest) 1 w).
Proof. intros w. apply (naive_run_start rest commands Hkeys Htargets w). Qed.

Lemma naive_table_simulates_witness :
  lt_class (naive_table (naive_from_dfa (state_sink :: one_state_rest) [Emit]))
    (lt_run (naive_table (naive_from_dfa (state_sink :: one_state_rest) [Emit])) START_STATE ["a"; "a"]%byte) =
  tclass (state_sink :: one_state_rest) (trun (state_sink :: one_state_rest) 1 ["a"; "a"]%byte).
Proof. exact (naive_table_simulates one_state_rest [Emit] one_state_keys one_state_targets ["a"; "a"]%byte). Defined.

(** X14 (NaiveLexTable::new): for a built DFA that accepts some word, the naive table built from the same regexes returns, on every input, the class the built DFA returns. *)
Theorem naive_lex_table_new_spec (fuel : nat) (regexes : list RegEx) (commands : list Command) (d : DFA)
  (Hb : build fuel regexes = Some d) (Hlive : exists w c, run_class d w = Some (Some c)) :
  exists T, naive_lex_table_new fuel regexes commands = Some T /\
    forall w, run_class d w = Some (lt_class (naive_table T) (lt_run (naive_table T) START_STATE w)).
Proof. exact (naive_pipeline fuel regexes commands d Hb Hlive). Qed.

Lemma naive_lex_table_new_spec_witness :
  exists T, naive_lex_table_new 20 [example_regex] [Emit] = Some T /\
    forall w, run_class example_dfa w = Some (lt_class (naive_table T) (lt_run (naive_table T) START_STATE w)).
Proof.
  apply naive_lex_table_new_spec.
  - vm_compute. reflexivity.
  - exists ["a"; "b"]%byte, 0%nat. vm_compute. reflexivity.
Defined.

(** X15 (Scan::next, both scanners): when every class's command is Emit, the scanner with commands behaves as the scanner without commands. *)
Theorem scan_next_rd_emit (T : LexTable) (HE : forall c, lt_command T c = Emit)
  (fuel : nat) (input : list byte) (index : Z) :
  scan_next (S fuel) T input index = Some (scan_next_rd T input index).
Proof.
  unfold scan_next_rd. cbn [scan_next]. destruct (index <? Z.of_nat (length input)); [|reflexivity].
  unfold attempt, START_STATE.
  destruct (simulate T (skipn (Z.to_nat index) input) 0%nat index (lt_sink T) 0) as [[[state idx] las] lai].
  unfold command_attempt. cbn [tok_class].
  destruct (lt_class T state) as [c|]; [rewrite HE; reflexivity|].
  destruct (lt_class T las) as [c|]; [rewrite HE|]; reflexivity.
Qed.

Lemma scan_next_rd_emit_witness :
  scan_next 1 emit_table [x00] 0 = Some (scan_next_rd emit_table [x00] 0).
Proof. apply scan_next_rd_emit. intros [|c]; reflexivity. Defined.

(** X16 (hopcroft::equivalence_classes): on a non-empty DFA whose transitions stay inside it, the partition covers the states and any two states of one block accept the same words with the same class. *)
Theorem equivalence_classes_sound (dfa : DFA) (Hne : dfa <> [])
  (Ht : forall s a, (s < length dfa)%nat -> (tstep dfa s a < length dfa)%nat) :
  exists P, equivalence_classes dfa = Some P /\ part_ok (length dfa) P /\
    forall B x y w, In B P -> In x B -> In y B -> tclass dfa (trun dfa x w) = tclass dfa (trun dfa y w).
Proof. exact (equivalence_classes_blocks dfa Hne Ht). Qed.

Lemma equivalence_classes_sound_witness :
  exists P, equivalence_classes example_dfa = Some P /\ part_ok (length example_dfa) P /\
    forall B x y w, In B P -> In x B -> In y B ->
      tclass example_dfa (trun example_dfa x w) = tclass example_dfa (trun example_dfa y w).
Proof.
  apply equivalence_classes_sound.
  - vm_compute. discriminate.
  - apply tstep_lt_of_targets, targets_ok_spec. vm_compute. reflexivity.
Defined.

(** X17 (hopcroft::minimize): on a non-empty DFA whose transitions stay inside it, the minimised DFA is no larger, has the sink at 0, functional transition maps, and targets in [1, length). *)
Theorem minimize_shape (dfa : DFA) (Hne : dfa <> [])
  (Ht : forall s a, (s < length dfa)%nat -> (tstep dfa s a < length dfa)%nat) :
  exists m, minimize dfa = Some m /\ (length m <= length dfa)%nat /\
    (exists rest, m = state_sink :: rest) /\
    (forall st, In st m -> NoDup (map fst (next st))) /\
    (forall st k j, In st m -> In (k, j) (next st) -> (1 <= j < length m)%nat).
Proof. exact (minimize_shape_gen dfa Hne Ht). Qed.

Lemma minimize_shape_witness :
  exists m, minimize example_dfa = Some m /\ (length m <= length example_dfa)%nat /\
    (exists rest, m = state_sink :: rest) /\
    (forall st, In st m -> NoDup (map fst (next st))) /\
    (forall st k j, In st m -> In (k, j) (next st) -> (1 <= j < length m)%nat).
Proof.
  apply minimize_shape.
  - vm_compute. discriminate.
  - apply tstep_lt_of_targets, targets_ok_spec. vm_compute. reflexivity.
Defined.

(** ** ByteSet and derivative classes: extra statements *)
(** X1 (ByteSet::point, ByteSet::contains): the point set of [v] contains exactly [v]. *)
Theorem point_contains (v x : byte) : contains (point v) x = Byte.eqb x v.
Proof. exact (point_bit v x). Qed.

Lemma range_contains_witness :
  bval "003" <= bval "017" /\
  contains (range "003" "017") "010" = (bval "003" <=? bval "010") && (bval "010" <=? bval "017") /\
  Z.testbit (charset_range "003" "017") (bval "010") = (bval "003" <=? bval "010") && (bval "010" <=? bval "017").
Proof.
  assert (H : bval "003" <= bval "017") by (vm_compute; discriminate).
  split; [exact H|]. exact (range_contains "003" "017" "010" H).
Defined.

(** X10 (cross): [cross] returns the distinct non-empty intersections of a set of each collection, and maps two partitions of the bytes to a partition without empty classes. *)
Theorem cross_classes (set1 set2 : list ByteSet) :
  NoDup (cross set1 set2) /\
  (forall u, In u (cross set1 set2) <->
     exists t s, In t set2 /\ In s set1 /\ u = intersection t s /\ is_empty u = false) /\
  (byte_partition set1 -> byte_partition set2 -> classes_ok (cross set1 set2)).
Proof.
  destruct (cross_members set1 set2) as [H1 H2]. split; [exact H1|]. split; [exact H2|].
  apply cross_ok.
Qed.

(** X11 (approx_deriv_classes, approx_deriv_classes_vec): the classes computed for a vector of regexes are distinct, non-empty and partition the bytes. *)
Theorem approx_deriv_classes_partition (q : list RegEx) (cs : list ByteSet)
  (H : approx_deriv_classes_vec q = Some cs) : classes_ok cs.
Proof. exact (adc_vec_ok q cs H). Qed.

Lemma approx_deriv_classes_partition_witness :
  exists cs, approx_deriv_classes_vec [example_regex] = Some cs /\ classes_ok cs.
Proof.
  let v := eval vm_compute in (approx_deriv_classes_vec [example_regex]) in
  match v with Some ?cs =>
    exists cs; assert (E : approx_deriv_classes_vec [example_regex] = Some cs) by (vm_compute; reflexivity);
    split; [exact E | exact (approx_deriv_classes_partition [example_regex] cs E)]
  end.
Defined.
